(** * Production telemetry engine: rollups, cycle-time targets, overcycle
      detection and tag-change publishing.

    Shallow embedding of the decision logic of the Jython gateway scripts
    (ProductionRollup, ProductionTargetsLive, OvercyclePublisher,
    TagValueChange) together with the properties the specification states
    about them.

    Conventions of the embedding.
    - A Python [float] is the rational [Q] it denotes; [int(x)] is
      truncation towards zero; [round(x)] rounds half away from zero
      (Python 2).  Float arithmetic is exact, except in the base and live
      targets, whose integer results depend on the rounding of one float
      operation: there each operation rounds to binary64 ([Double]).
    - A timestamp is its epoch-millisecond value ([system.date.toMillis]).
    - A historian dataset is the list of its rows [(ts, value)], where the
      value is [None] when [float(...)] raises on it.
    - Python's [None] result is [None] of an option type. *)

From Stdlib Require Import ZArith QArith Qround Qpower Lqa Lia.
From stdpp Require Import base list sorting strings gmap pretty.
From Equations Require Import Equations.

Local Open Scope Z_scope.

(* ===================================================================== *)
(** * Numeric conversions shared by the modules *)
(* ===================================================================== *)

Module Num.

(** [int(x)] on a float: truncation towards zero. *)
Definition int_of_float (x : Q) : Z :=
  if Qle_bool 0 x then Qfloor x else Qceiling x.

(** [round(x)]: nearest integer, halves away from zero. *)
Definition round_half_away (x : Q) : Z :=
  if Qle_bool 0 x then Qfloor (x + (1 # 2))%Q else Qceiling (x - (1 # 2))%Q.

(** [round(x, 3)]: the nearest multiple of 1/1000. *)
Definition round3 (x : Q) : Q :=
  (inject_Z (round_half_away (x * 1000)%Q) / 1000)%Q.

Definition Qmax (a b : Q) : Q := if Qle_bool a b then b else a.
Definition Qmin (a b : Q) : Q := if Qle_bool a b then a else b.

(** Python's [a < b], [a <= b] on floats, as booleans. *)
Definition Qltb (a b : Q) : bool := negb (Qle_bool b a).
Definition Qleb (a b : Q) : bool := Qle_bool a b.

#[global] Instance Qlt_decision (a b : Q) : Decision (a < b)%Q.
Proof.
  destruct (Qlt_le_dec a b) as [Hlt|Hle]; [by left|right].
  by apply Qle_not_lt.
Defined.

End Num.

(* ===================================================================== *)
(** * TagValueChange: tri-state AND over a node group *)
(* ===================================================================== *)

Module TagValueChange.

(** A coerced member value: [Some true], [Some false], or [None]
    (unknown / invalid). *)
Definition tristate := option bool.

(** The [for v in values] loop of [_and_tristate], with its two flags;
    the empty list case is the code after the loop. *)
Fixpoint and_tristate_loop (values : list tristate)
         (saw_none saw_true : bool) : tristate :=
  match values with
  | [] =>
      if saw_none && negb saw_true then None
      else if saw_none && saw_true then None
      else if saw_true then Some true else None
  | v :: rest =>
      match v with
      | Some false => Some false
      | None => and_tristate_loop rest true saw_true
      | Some true => and_tristate_loop rest saw_none true
      end
  end.

Definition _and_tristate (values : list tristate) : tristate :=
  and_tristate_loop values false false.

(** The reduction rule as the specification words it: a total case
    analysis on the list. *)
Definition and_reduce_rule (values : list tristate) (r : tristate) : Prop :=
  (In (Some false) values -> r = Some false) /\
  (~ In (Some false) values -> In None values -> r = None) /\
  (~ In (Some false) values -> ~ In None values -> r = Some true).

End TagValueChange.

(* ===================================================================== *)
(** * ProductionRollup: historian helpers and the live tick *)
(* ===================================================================== *)

Module ProductionRollup.

(** One row of a 'Wide' history dataset: timestamp and the value column,
    [None] when [float(ds.getValueAt(i, 1))] raises. *)
Definition hist_row : Type := Z * option Q.

(** Result of [system.tag.queryTagHistory]: [None] when the call raises. *)
Definition dataset : Type := option (list hist_row).

(** First loop of [_series_positive_delta]: the first convertible value. *)
Fixpoint first_peak (rows : list hist_row) : option Q :=
  match rows with
  | [] => None
  | (_, Some v) :: _ => Some v
  | (_, None) :: rest => first_peak rest
  end.

(** Second loop: running [peak] and [total] over every row. *)
Fixpoint delta_loop (rows : list hist_row) (peak total : Q) : Q :=
  match rows with
  | [] => total
  | (_, None) :: rest => delta_loop rest peak total
  | (_, Some v) :: rest =>
      if Num.Qltb peak v
      then delta_loop rest v (total + (v - peak))%Q
      else delta_loop rest peak total
  end.

Section Historian.
(** [system.tag.queryTagHistory(paths=[tag], startDate, endDate,
    includeBoundingValues=True)]. *)
Variable queryTagHistory : string -> Z -> Z -> dataset.

(** [if not tag_path or start_dt >= end_dt: return 0]: a tag path that is
    [None] or the empty string gives 0. *)
Definition _series_positive_delta
           (tag_path : option string) (start_dt end_dt : Z) : Z :=
  match tag_path with
  | None => 0
  | Some tag =>
      if bool_decide (tag = EmptyString) then 0
      else if start_dt >=? end_dt then 0
      else
        match queryTagHistory tag start_dt end_dt with
        | None => 0
        | Some rows =>
            match first_peak rows with
            | None => 0
            | Some peak => Num.int_of_float (delta_loop rows peak 0)
            end
        end
  end.

(** [_hist_value_at_or_before]: last row of a 48 h look-back; [None]
    for a tag path that is [None] or the empty string
    ([if not tag_path: return None]). *)
Definition _hist_value_at_or_before
           (tag_path : option string) (at_dt : Z) : option Q :=
  match tag_path with
  | None => None
  | Some tag =>
      if bool_decide (tag = EmptyString) then None
      else
        match queryTagHistory tag (at_dt - 48 * 3600000) at_dt with
        | None => None
        | Some rows =>
            match last rows with
            | Some (_, v) => v
            | None => None
            end
        end
  end.
End Historian.






(** ** Per-station live state ([_state[sid]]) *)

Record station_state := {
  line_id : Z;
  tag : option string;
  hour_start_utc : Z;
  hour_start_count : Z;
  hour_total : Z;
  last_peak : Z;
  hour_last_flush : Z;
  shift_id : option Z;
  shift_date : option string;
  shift_start_count : Z;
  shift_total : Z;
  week_start_local : Z;
  week_total : Z;
  past_shift_done_keys : gset string
}.

Record hour_row := {
  hr_station_id : Z;
  hr_line_id : Z;
  hr_hour_start_utc_ms : Z;
  hr_total_parts : Z;
  hr_start_count : Z;
  hr_end_count : option Z;
  hr_is_closed : Z
}.

Record shift_row := {
  sr_station_id : Z;
  sr_shift_id : Z;
  sr_shift_local_date : string;
  sr_total_parts : Z;
  sr_start_count : option Z;
  sr_end_count : option Z;
  sr_is_closed : Z
}.

Definition WRITE_IDLE_SEC : Z := 30.

Section InitState.
Variable queryTagHistory : string -> Z -> Z -> dataset.

(** [_ensure_init_station_state], for a station not yet in [_state]:
    [curr] is the live counter read (0 when the read is bad), [sh] the
    active shift of the line with its start ([_active_shift_for_line]). *)
Definition _ensure_init_station_state
           (lid : Z) (tg : option string) (now cur_hr_u week_st : Z)
           (curr : Z) (sh : option (Z * string * Z)) : station_state :=
  let hr_start_cnt :=
    default (inject_Z curr)
            (_hist_value_at_or_before queryTagHistory tg cur_hr_u) in
  let hour_partial := _series_positive_delta queryTagHistory tg cur_hr_u now in
  let week_so_far := _series_positive_delta queryTagHistory tg week_st now in
  {| line_id := lid; tag := tg;
     hour_start_utc := cur_hr_u;
     hour_start_count := Num.int_of_float hr_start_cnt;
     hour_total := hour_partial;
     last_peak := curr;
     hour_last_flush := now;
     shift_id := (fun x => x.1.1) <$> sh;
     shift_date := (fun x => x.1.2) <$> sh;
     shift_start_count :=
       match sh with
       | Some (_, _, sh_start) =>
           Num.int_of_float
             (default (inject_Z curr)
                (_hist_value_at_or_before queryTagHistory tg sh_start))
       | None => curr
       end;
     shift_total :=
       match sh with
       | Some (_, _, sh_start) =>
           _series_positive_delta queryTagHistory tg sh_start now
       | None => 0
       end;
     week_start_local := week_st;
     week_total := week_so_far;
     past_shift_done_keys := ∅ |}.
End InitState.

(** A historian that holds the single sample [(ts, v)] of a tag. *)
Definition one_sample (ts : Z) (v : Q) : string -> Z -> Z -> dataset :=
  fun _ _ _ => Some [(ts, Some v)].

Record wm_row := {
  wm_station_id : Z;
  last_utc_ms : Z;
  cur_hour_start_utc_ms : Z;
  cur_hour_start_count : Z;
  cur_hour_last_peak : Z
}.

(** "Hour rollover detection": closes the previous hour window, writes
    the watermark and re-anchors; [anchor] is
    [_hist_value_at_or_before(tag, cur_hr)]. *)
Definition hour_rollover (sid : Z) (s : station_state)
           (now_ms cur_hr curr : Z) (anchor : option Q)
  : station_state * list hour_row * list wm_row :=
  if bool_decide (hour_start_utc s ≠ cur_hr) then
    ({| line_id := line_id s; tag := tag s;
        hour_start_utc := cur_hr;
        hour_start_count :=
          match anchor with
          | Some a => Num.int_of_float a
          | None => curr
          end;
        hour_total := 0;
        last_peak := curr;
        hour_last_flush := now_ms;
        shift_id := shift_id s; shift_date := shift_date s;
        shift_start_count := shift_start_count s;
        shift_total := shift_total s;
        week_start_local := week_start_local s;
        week_total := week_total s;
        past_shift_done_keys := past_shift_done_keys s |},
     [ {| hr_station_id := sid; hr_line_id := line_id s;
          hr_hour_start_utc_ms := hour_start_utc s;
          hr_total_parts := Z.max 0 (hour_total s);
          hr_start_count := hour_start_count s;
          hr_end_count := Some (last_peak s);
          hr_is_closed := 1 |} ],
     [ {| wm_station_id := sid;
          last_utc_ms := hour_start_utc s;
          cur_hour_start_utc_ms := cur_hr;
          cur_hour_start_count := curr;
          cur_hour_last_peak := curr |} ])
  else (s, [], []).

Definition set_counters (s : station_state) (peak ht st wt : Z)
  : station_state :=
  {| line_id := line_id s; tag := tag s;
     hour_start_utc := hour_start_utc s;
     hour_start_count := hour_start_count s;
     hour_total := ht;
     last_peak := peak;
     hour_last_flush := hour_last_flush s;
     shift_id := shift_id s; shift_date := shift_date s;
     shift_start_count := shift_start_count s;
     shift_total := st;
     week_start_local := week_start_local s;
     week_total := wt;
     past_shift_done_keys := past_shift_done_keys s |}.

(** "Incremental accumulation (reset-safe)". *)
Definition accumulate (s : station_state) (curr : Z) : station_state :=
  if curr >=? last_peak s then
    let inc := curr - last_peak s in
    if inc >? 0 then
      set_counters s curr (hour_total s + inc) (shift_total s + inc)
                   (week_total s + inc)
    else s
  else
    set_counters s curr (hour_total s) (shift_total s) (week_total s).

(** "occasional open-hour write to keep charts alive". *)
Definition idle_flush (sid : Z) (s : station_state) (now_ms : Z)
  : station_state * list hour_row :=
  if now_ms - hour_last_flush s >=? WRITE_IDLE_SEC * 1000 then
    ({| line_id := line_id s; tag := tag s;
        hour_start_utc := hour_start_utc s;
        hour_start_count := hour_start_count s;
        hour_total := hour_total s;
        last_peak := last_peak s;
        hour_last_flush := now_ms;
        shift_id := shift_id s; shift_date := shift_date s;
        shift_start_count := shift_start_count s;
        shift_total := shift_total s;
        week_start_local := week_start_local s;
        week_total := week_total s;
        past_shift_done_keys := past_shift_done_keys s |},
     [ {| hr_station_id := sid; hr_line_id := line_id s;
          hr_hour_start_utc_ms := hour_start_utc s;
          hr_total_parts := Z.max 0 (hour_total s);
          hr_start_count := hour_start_count s;
          hr_end_count := None;
          hr_is_closed := 0 |} ])
  else (s, []).

(** The hour part of one tick for one station: rollover, accumulation,
    idle flush.  [reading] is the station's entry in [cur_by_sid], absent
    when the read was not of good quality; the state then freezes at
    [last_peak].  (The shift and week parts that follow in [run_rollups]
    re-seed [shift_total] and [week_total] on a shift or week change and
    are not part of this model.) *)
Definition tick_hour (sid : Z) (s : station_state)
           (now_ms cur_hr : Z) (reading : option Z) (anchor : option Q)
  : station_state * list hour_row * list wm_row :=
  let curr := default (last_peak s) reading in
  let '(s1, closed, wms) := hour_rollover sid s now_ms cur_hr curr anchor in
  let '(s2, open) := idle_flush sid (accumulate s1 curr) now_ms in
  (s2, closed ++ open, wms).

(** Successive ticks inside one hour window: the time of the tick and
    the live counter value it reads. *)
Definition run_ticks (sid : Z) (s : station_state) (cur_hr : Z)
           (obs : list (Z * option Z)) : station_state :=
  foldl (fun st o => (tick_hour sid st o.1 cur_hr o.2 None).1.1) s obs.

(** What the accumulation does to the pair [(hour_total, last_peak)]. *)
Definition peak_step (p : Z * Z) (reading : option Z) : Z * Z :=
  let curr := default p.2 reading in
  if curr >=? p.2 then
    if curr - p.2 >? 0 then (p.1 + (curr - p.2), curr) else p
  else (p.1, curr).

(** ** Late reconciliation of ended shift windows *)

Definition past_window : Type := Z * string * Z * Z.

(** [u"%s|%s" % (int(shid), unicode(day_str))] *)
Definition done_key (shid : Z) (day_str : string) : string :=
  pretty shid +:+ "|" +:+ day_str.

Definition key_of (w : past_window) : string :=
  done_key w.1.1.1 w.1.1.2.

Section Reconcile.
Variable queryTagHistory : string -> Z -> Z -> dataset.

(** The closed row of one window, anchored in the historian. *)
Definition reconciled_row (sid : Z) (tg : option string)
           (w : past_window) : shift_row :=
  let '(shid, day_str, st_dt, en_dt) := w in
  let start_cnt :=
    match tg with
    | Some _ => _hist_value_at_or_before queryTagHistory tg st_dt
    | None => None
    end in
  let end_cnt :=
    match tg with
    | Some _ => _hist_value_at_or_before queryTagHistory tg en_dt
    | None => None
    end in
  let tot :=
    match tg with
    | Some _ => _series_positive_delta queryTagHistory tg st_dt en_dt
    | None => 0
    end in
  {| sr_station_id := sid; sr_shift_id := shid;
     sr_shift_local_date := day_str;
     sr_total_parts := tot;
     sr_start_count := Num.int_of_float <$> start_cnt;
     sr_end_count := Num.int_of_float <$> end_cnt;
     sr_is_closed := 1 |}.

(** [_reconcile_late_shifts_for_station]: the loop over the line's
    ended windows, threading the station's [done] set and the tick's
    [shift_rows] batch. *)
Fixpoint reconcile_loop (sid : Z) (tg : option string)
         (past : list past_window) (done : gset string)
         (shift_rows : list shift_row)
  : gset string * list shift_row :=
  match past with
  | [] => (done, shift_rows)
  | w :: rest =>
      let key := key_of w in
      if bool_decide (key ∈ done)
      then reconcile_loop sid tg rest done shift_rows
      else reconcile_loop sid tg rest ({[key]} ∪ done)
                          (shift_rows ++ [reconciled_row sid tg w])
  end.

Definition _reconcile_late_shifts_for_station
           (sid : Z) (s : station_state) (past : list past_window)
           (shift_rows : list shift_row)
  : station_state * list shift_row :=
  let '(done, rows) :=
    reconcile_loop sid (tag s) past (past_shift_done_keys s) shift_rows in
  ({| line_id := line_id s; tag := tag s;
      hour_start_utc := hour_start_utc s;
      hour_start_count := hour_start_count s;
      hour_total := hour_total s;
      last_peak := last_peak s;
      hour_last_flush := hour_last_flush s;
      shift_id := shift_id s; shift_date := shift_date s;
      shift_start_count := shift_start_count s;
      shift_total := shift_total s;
      week_start_local := week_start_local s;
      week_total := week_total s;
      past_shift_done_keys := done |}, rows).
End Reconcile.

End ProductionRollup.

(* ===================================================================== *)
(** * ProductionTargetsLive: effective cycle time and its debounce *)
(* ===================================================================== *)

Module ProductionTargetsLive.

Definition DEBOUNCE_TICKS : Z := 1.

Definition Qsum (l : list Q) : Q := foldr Qplus 0%Q l.

(** [max(cts)] of a list whose head is [c]. *)
Definition Qmaximum (c : Q) (l : list Q) : Q := foldl Num.Qmax c l.

Definition clamp01 (x : Q) : Q := Num.Qmax 0 (Num.Qmin 1 x).

(** [_ct_eff_from_cts(ct_list, fixtures_per_side, parallelism_factor)];
    the comprehension keeps the entries with [ct and ct > 0.0]. *)
Definition _ct_eff_from_cts (ct_list : list Q) (fixtures_per_side : Z)
           (parallelism_factor : option Q) : Q :=
  let cts := filter (fun ct => Num.Qltb 0 ct = true) ct_list in
  match cts with
  | [] => 0
  | [c] => c
  | c :: rest =>
      let k := inject_Z (Z.of_nat (length cts)) in
      let mean_ct := (Qsum cts / k)%Q in
      let par_ct := (Qmaximum c rest / k)%Q in
      match parallelism_factor with
      | None => mean_ct
      | Some pf =>
          let lam := clamp01 pf in
          ((1 - lam) * mean_ct + lam * par_ct)%Q
      end
  end.

(** The fields of [_tstate[sid]] the debounce block reads and writes. *)
Record ct_state := {
  last_parts_key : option string;
  stable_ticks : Z;
  ct_eff : Q
}.

(** What the earlier part of the tick hands to the debounce block. *)
Record parts_obs := {
  parts_used : list string;
  is_missing_cfg : bool;
  ct_list : list Q;
  (** CTs of the slowest configured parts, [[]] when [cfg_cts] is empty *)
  seed : list Q;
  fps : Z;
  lam : Q
}.

(** [parts_used] joined with a bar; the empty string for no parts. *)
Fixpoint join_bar (l : list string) : string :=
  match l with
  | [] => EmptyString
  | [p] => p
  | p :: rest => p +:+ "|" +:+ join_bar rest
  end.

Definition parts_key (o : parts_obs) : string := join_bar (parts_used o).

(** "Debounce CT changes by parts set" followed by "CT using station
    parallelism factor" and the commit [s["ct_eff"] = ct_eff_new], for a
    debounce threshold [D]. *)
Definition debounce_step_with (D : Z) (s : ct_state) (o : parts_obs)
  : ct_state :=
  let key := parts_key o in
  let ticks :=
    if bool_decide (Some key = last_parts_key s)
    then Z.min D (stable_ticks s + 1)
    else if is_missing_cfg o then D else 1 in
  let ct_eff_new :=
    if is_missing_cfg o then 0%Q
    else
      match parts_used o with
      | _ :: _ =>
          if ticks >=? D
          then _ct_eff_from_cts (ct_list o) (fps o) (Some (lam o))
          else ct_eff s
      | [] =>
          if Qeq_bool (ct_eff s) 0 && negb (bool_decide (seed o = []))
          then _ct_eff_from_cts (seed o) (fps o) (Some (lam o))
          else ct_eff s
      end in
  {| last_parts_key := Some key; stable_ticks := ticks;
     ct_eff := ct_eff_new |}.

Definition debounce_step : ct_state -> parts_obs -> ct_state :=
  debounce_step_with DEBOUNCE_TICKS.

(** The debounce as the specification words it for the default
    threshold: the tick that first sees a changed, configured parts set
    leaves the effective CT as it was. *)
Definition debounce_waits (s : ct_state) (o : parts_obs) : Prop :=
  Some (parts_key o) <> last_parts_key s ->
  is_missing_cfg o = false ->
  (ct_eff (debounce_step s o) == ct_eff s)%Q.

(** A station running part A at 30 s that now shows part B (50 s). *)
Definition state_A : ct_state :=
  {| last_parts_key := Some "A"; stable_ticks := 1; ct_eff := 30 |}.

Definition obs_B : parts_obs :=
  {| parts_used := ["B"]; is_missing_cfg := false; ct_list := [50%Q];
     seed := [50%Q; 30%Q]; fps := 1; lam := 0 |}.

(** [k] successive ticks that all observe [o]. *)
Definition ticks_with (D : Z) (o : parts_obs) (k : nat) (s : ct_state)
  : ct_state :=
  Nat.iter k (fun st => debounce_step_with D st o) s.

End ProductionTargetsLive.

(* ===================================================================== *)
(** * OvercyclePublisher: CT lookup, classification, leaderboards *)
(* ===================================================================== *)

Module OvercyclePublisher.

Definition _MAX_TOP : nat := 5.
Definition EPSILON : Q := 0.
Definition _FINAL_GRACE_MIN : Z := 18 * 60.

(** A CT segment [(effective_from_utc, ct, mult)], start in epoch ms. *)
Definition segment : Type := Z * Q * Q.

Definition seg_start (segs : list segment) (i : nat) : Z :=
  match segs !! i with
  | Some sg => sg.1.1
  | None => 0
  end.

(** First [while] of [_ct_at]: advance while the next segment has
    already started at [tms]. *)
Equations? scan_forward (segs : list segment) (tms : Z) (i : nat) : nat
  by wf (length segs - i)%nat lt :=
  scan_forward segs tms i with decide (S i < length segs)%nat := {
    | left _ with decide (seg_start segs (S i) <= tms) := {
        | left _ => scan_forward segs tms (S i)
        | right _ => i }
    | right _ => i }.
Proof. lia. Qed.

(** Second [while]: step back while the segment starts after [tms]. *)
Fixpoint scan_backward (segs : list segment) (tms : Z) (i : nat) : nat :=
  match i with
  | O => O
  | S j =>
      if decide (seg_start segs i > tms)
      then scan_backward segs tms j
      else i
  end.

Definition hint_index (segs : list segment) (i_hint : Z) : nat :=
  if bool_decide (0 <= i_hint < Z.of_nat (length segs))
  then Z.to_nat i_hint else O.

(** The index [i] the two loops of [_ct_at] stop at. *)
Definition ct_index (ts : Z) (segs : list segment) (i_hint : Z) : nat :=
  scan_backward segs ts (scan_forward segs ts (hint_index segs i_hint)).

Definition _ct_at (ts : Z) (segs : list segment) (i_hint : Z)
  : Q * Q * Z :=
  let i := ct_index ts segs i_hint in
  match segs !! i with
  | None => (0%Q, 2%Q, Z.of_nat i)
  | Some (_, ct, mult) => (ct, mult, Z.of_nat i)
  end.

(** [segs.sort(key=start)]: starts are non-decreasing along the list. *)
Definition sorted_segments (segs : list segment) : Prop :=
  forall i j, (i <= j < length segs)%nat ->
              seg_start segs i <= seg_start segs j.

(** Segment [n] is the one in force at [t]: it has started, and every
    later segment has not. *)
Definition in_force (segs : list segment) (t : Z) (n : nat) : Prop :=
  (n < length segs)%nat /\ seg_start segs n <= t /\
  forall k, (n < k < length segs)%nat -> t < seg_start segs k.

(** The lookup property as the specification states it, for any [t]. *)
Definition ct_lookup_rule (segs : list segment) (t : Z) (i_hint : Z)
  : Prop :=
  exists n sg, _ct_at t segs i_hint = (sg.1.2, sg.2, Z.of_nat n)
               /\ segs !! n = Some sg /\ in_force segs t n.

Definition two_segments : list segment :=
  [(100, 30%Q, 2%Q); (200, 40%Q, 2%Q)].

(** ** Delta computation for one station *)

(** The loop variables of [_compute_deltas_for_line]. *)
Record oc_acc := {
  cnt : Z;
  mx : Q;
  sum_over : Q;
  idx : Z
}.

Definition oc_init : oc_acc :=
  {| cnt := 0; mx := 0; sum_over := 0; idx := 0 |}.

Definition hist_row : Type := Z * option Q.

(** One iteration of the history loop; every [continue] keeps the
    counters and only the lookup hint [idx] moves. *)
Definition oc_step (segs : list segment) (a : oc_acc) (row : hist_row)
  : oc_acc :=
  match row.2 with
  | None => a
  | Some act =>
      let '(ct, mult, i) := _ct_at row.1 segs (idx a) in
      let skip := {| cnt := cnt a; mx := mx a; sum_over := sum_over a;
                     idx := i |} in
      if Num.Qleb ct 0 then skip
      else if Num.Qleb act ct then skip
      else if Num.Qltb (ct * mult) act then skip
      else if Num.Qltb 0 EPSILON && Num.Qltb act (ct * (1 + EPSILON))
      then skip
      else
        let over := (act - ct)%Q in
        {| cnt := cnt a + 1;
           mx := if Num.Qltb (mx a) over then over else mx a;
           sum_over := (sum_over a + over)%Q;
           idx := i |}
  end.

(** The loop invariant of the history scan. *)
Definition oc_inv (a : oc_acc) : Prop :=
  0 <= cnt a /\ (0 <= mx a)%Q /\ (mx a <= sum_over a)%Q /\
  (cnt a = 0 -> (mx a == 0)%Q /\ (sum_over a == 0)%Q).

(** The classification scenario of the specification: one segment
    [(ct = 30, mult = 2.0)] and the cycle times 29, 35, 61, 45. *)
Definition spec_segment : list segment := [(0, 30%Q, 2%Q)].

Definition spec_samples : list hist_row :=
  [(1, Some 29%Q); (2, Some 35%Q); (3, Some 61%Q); (4, Some 45%Q)].

(** [if segs and ds: for i in range(ds.getRowCount()): ...] *)
Definition scan_history (segs : list segment)
           (ds : option (list hist_row)) : oc_acc :=
  match segs, ds with
  | _ :: _, Some rows => foldl (oc_step segs) oc_init rows
  | _, _ => oc_init
  end.

Record station := {
  station_id : Z;
  line_id : Z
}.

(** A cumulative anchor row; the formatted dates are kept as epoch ms.
    [is_final] is the key the caller adds afterwards. *)
Record anchor_row := {
  ar_line_id : Z;
  ar_station_id : Z;
  ar_shift_id : Z;
  ar_shift_date : string;
  shift_start_local : Z;
  shift_end_local : Z;
  as_of_local : Z;
  inc_over_cnt : Z;
  inc_over_sec : Q;
  inc_max_over_sec : Q;
  slot_duration_min : Z;
  is_final : option Z
}.

(** [int(round((toMillis(b) - toMillis(start)) / 60000.0))] *)
Definition minutes_between (start b : Z) : Z :=
  Num.round_half_away (inject_Z (b - start) / 60000).

Section Deltas.
(** The reads [_compute_deltas_for_line] issues per station:
    [_ct_segments], [_query_ct_history], and the existence of the
    station's CycleTime tag. *)
Variable ct_segments : Z -> Z -> Z -> list segment.
Variable query_ct_history : Z -> Z -> Z -> option (list hist_row).
Variable has_ct_tag : Z -> bool.

Definition station_delta (st : station) (shid : Z) (sdate : string)
           (shift_start a b shift_end : Z) (include_zero_for : gset Z)
  : list anchor_row :=
  let sid := station_id st in
  let segs := ct_segments sid a b in
  let ds := query_ct_history sid a b in
  let seed_zero := bool_decide (sid ∈ include_zero_for) || has_ct_tag sid in
  let r := scan_history segs ds in
  if (cnt r >? 0) || Num.Qltb 0 (sum_over r) || seed_zero then
    [ {| ar_line_id := line_id st; ar_station_id := sid;
         ar_shift_id := shid; ar_shift_date := sdate;
         shift_start_local := shift_start;
         shift_end_local := shift_end;
         as_of_local := b;
         inc_over_cnt := cnt r;
         inc_over_sec := Num.round3 (sum_over r);
         inc_max_over_sec := Num.round3 (mx r);
         slot_duration_min := minutes_between shift_start b;
         is_final := None |} ]
  else [].

Definition _compute_deltas_for_line (stations_on_line : list station)
           (shid : Z) (sdate : string)
           (shift_start a b shift_end : Z) (include_zero_for : gset Z)
  : list anchor_row :=
  flat_map (fun st => station_delta st shid sdate shift_start a b
                                    shift_end include_zero_for)
           stations_on_line.
End Deltas.

(** ** Leaderboards *)

(** ["%02d" % n] for [0 <= n]. *)
Definition pad2 (n : Z) : string :=
  if n <? 10 then "0" +:+ pretty n else pretty n.

(** [_fmt_mmss]: [sec = int(max(0, round(float(sec or 0))))], then
    ["%d:%02d" % (sec // 60, sec % 60)]. *)
Definition _fmt_mmss (sec : Q) : string :=
  let s := Z.max 0 (Num.round_half_away sec) in
  pretty (s / 60) +:+ ":" +:+ pad2 (s mod 60).

(** A row of the shift accumulator ([acc]). *)
Record acc_row := {
  sid : Z;
  acc_sum_over : Q;
  sum_cnt : Z
}.

(** Python's [sorted(l, key=..., reverse=True)]: a stable sort into
    descending key order.  [ltb x y] is [key x < key y]; an element is
    placed in front of the first one whose key is not greater, so equal
    keys keep the order they have in [l]. *)
Section Sorted.
Context {A : Type} (ltb : A -> A -> bool).

Fixpoint insert_desc (x : A) (l : list A) : list A :=
  match l with
  | [] => [x]
  | y :: ys => if ltb x y then y :: insert_desc x ys else x :: y :: ys
  end.

Definition sorted_reverse (l : list A) : list A :=
  foldr insert_desc [] l.


End Sorted.

(** Tuple comparison of the keys [(sum_over, sum_cnt)] and
    [(sum_cnt, sum_over)]. *)
Definition time_key_ltb (x y : acc_row) : bool :=
  Num.Qltb (acc_sum_over x) (acc_sum_over y)
  || (Qeq_bool (acc_sum_over x) (acc_sum_over y) && (sum_cnt x <? sum_cnt y)).

Definition total_key_ltb (x y : acc_row) : bool :=
  (sum_cnt x <? sum_cnt y)
  || ((sum_cnt x =? sum_cnt y) && Num.Qltb (acc_sum_over x) (acc_sum_over y)).

Definition top_tim (acc : list acc_row) : list acc_row :=
  take _MAX_TOP (sorted_reverse time_key_ltb acc).

Definition top_tot (acc : list acc_row) : list acc_row :=
  take _MAX_TOP (sorted_reverse total_key_ltb acc).







Inductive entry_value :=
| VText (s : string)
| VInt (n : Z).

(** One element of ["Overcycles"]. *)
Record overcycle_entry := {
  ID : Z;
  StnID : string;
  Value : entry_value
}.

(** [H]: station id to station name, from [_get_hierarchy]. *)
Definition _name (H : gmap Z string) (s : Z) : string :=
  match H !! s with
  | Some n => if bool_decide (n = EmptyString) then "Station_" +:+ pretty s else n
  | None => "Station_" +:+ pretty s
  end.

(** The name used in the line snapshot's JSON lists:
    [(H.get(sid, {}) or {}).get("station", u"Station_%d" % sid)]. *)
Definition _snapshot_name (H : gmap Z string) (s : Z) : string :=
  default ("Station_" +:+ pretty s) (H !! s).

(** [[{...} for i, r in enumerate(top)]] with [ID = i + 1]. *)
Definition entries (name : Z -> string) (value : acc_row -> entry_value)
           (top : list acc_row) : list overcycle_entry :=
  imap (fun i r => {| ID := Z.of_nat i + 1; StnID := name (sid r);
                      Value := value r |}) top.

Definition times_value (r : acc_row) : entry_value :=
  VText (_fmt_mmss (acc_sum_over r)).

Definition totals_value (r : acc_row) : entry_value := VInt (sum_cnt r).

(** ["Overcycles"] of the TopOvercycleTimes and TopOvercycleTotals
    payloads. *)
Definition times_entries (H : gmap Z string) (acc : list acc_row) :=
  entries (_name H) times_value (top_tim acc).

Definition totals_entries (H : gmap Z string) (acc : list acc_row) :=
  entries (_name H) totals_value (top_tot acc).

(** ** Finalization of a just-ended shift *)

Definition shift_window : Type := Z * string * Z * Z.

(** [_last_ended_shift_for_line]: [wins] is the line's window list,
    sorted by start. *)
Fixpoint last_ended (wins : list shift_window) (now_ms : Z)
         (last : option shift_window) : option shift_window :=
  match wins with
  | [] => last
  | w :: rest =>
      if w.2 <=? now_ms then last_ended rest now_ms (Some w) else last
  end.

Definition _last_ended_shift_for_line (wins : list shift_window)
           (now_ms grace_ms : Z) : option shift_window :=
  match last_ended wins now_ms None with
  | Some w => if now_ms - w.2 <=? grace_ms then Some w else None
  | None => None
  end.

(** What one tick reads from the durable store for a line and shift;
    [None] stands for a named query that raised. *)
Record store_view := {
  (** [getLineLastAsOfForShift]: the [last_as_of] column of each row *)
  last_as_of_rows : option (list (option Z));
  (** [getStationCumForShiftByLine]: [(station_id, as_of_local)] *)
  station_cum_rows : option (list (Z * option Z));
  (** [getShiftAccumForLine], with and then without [shift_id] *)
  shift_accum : option (list acc_row);
  shift_accum_retry : option (list acc_row)
}.

Definition first_some (l : list (option Z)) : option Z :=
  foldr (fun o r => match o with Some t => Some t | None => r end) None l.

Definition latest (l : list (Z * option Z)) : option Z :=
  foldl (fun best r =>
           match r.2, best with
           | Some t, None => Some t
           | Some t, Some b0 => if t >? b0 then Some t else best
           | None, _ => best
           end) None l.

Definition _line_last_asof (v : store_view) (shift_start : Z) : Z :=
  match
    match last_as_of_rows v with
    | Some rows => first_some rows
    | None => None
    end
  with
  | Some t => t
  | None =>
      match station_cum_rows v with
      | Some rows => default shift_start (latest rows)
      | None => shift_start
      end
  end.

(** [_existing_station_rows]: [None] when the query raises, because the
    handler's [_LE] call itself raises ([log_error] takes no [message]
    argument) and the exception leaves the function. *)
Definition _existing_station_rows (v : store_view) : option (gset Z) :=
  match station_cum_rows v with
  | Some rows => Some (list_to_set (rows.*1))
  | None => None
  end.

Record line_snapshot := {
  ls_line_id : Z;
  ls_shift_id : Z;
  ls_shift_date : string;
  ls_shift_start_local : Z;
  ls_shift_end_local : Z;
  ls_as_of_local : Z;
  ls_is_final : Z;
  ls_slot_duration_min : Z;
  ls_is_published : Z;
  top_totals_json : list overcycle_entry;
  top_times_json : list overcycle_entry
}.

(** The writes a tick issues, in order. *)
Inductive effect :=
| UpsertSlotStationBatch (rows : list anchor_row)
| Publish (scope_slug : string) (payload : list overcycle_entry)
| UpsertSlotLineBatch (row : line_snapshot).

Definition is_publish (e : effect) : Prop :=
  match e with
  | Publish _ _ => True
  | _ => False
  end.

Definition set_final (f : Z) (r : anchor_row) : anchor_row :=
  {| ar_line_id := ar_line_id r; ar_station_id := ar_station_id r;
     ar_shift_id := ar_shift_id r; ar_shift_date := ar_shift_date r;
     shift_start_local := shift_start_local r;
     shift_end_local := shift_end_local r;
     as_of_local := as_of_local r;
     inc_over_cnt := inc_over_cnt r;
     inc_over_sec := inc_over_sec r;
     inc_max_over_sec := inc_max_over_sec r;
     slot_duration_min := slot_duration_min r;
     is_final := Some f |}.

Section Finalize.
Variable ct_segments : Z -> Z -> Z -> list segment.
Variable query_ct_history : Z -> Z -> Z -> option (list hist_row).
Variable has_ct_tag : Z -> bool.
Variable H : gmap Z string.

(** "catch-up delta to the shift end": the writes issued, or [None]
    when [_existing_station_rows] raises; the exception then leaves
    [run_overcycle] and the tick writes nothing more. *)
Definition catch_up (sts : list station) (w : shift_window)
           (v : store_view) : option (list effect) :=
  let '(shid, sday, s_ms, e_ms) := w in
  let last_asof := _line_last_asof v s_ms in
  if last_asof <? e_ms then
    match _existing_station_rows v with
    | None => None
    | Some existed =>
        let delta_rows :=
          set_final 1 <$>
            _compute_deltas_for_line ct_segments query_ct_history has_ct_tag
              sts shid sday s_ms last_asof e_ms e_ms existed in
        Some match delta_rows with
             | [] => []
             | _ => [UpsertSlotStationBatch delta_rows]
             end
    end
  else Some [].

(** "build totals from DB accum and publish" and "final snapshot
    row".  [_any_h_for_line] finds a hierarchy whenever the line has a
    station, which [run_overcycle]'s grouping guarantees. *)
Definition final_snapshot (lid : Z) (sts : list station)
           (w : shift_window) (v : store_view) : list effect :=
  let '(shid, sday, s_ms, e_ms) := w in
  match
    match shift_accum v with
    | Some rows => Some rows
    | None => shift_accum_retry v
    end
  with
  | None => []
  | Some acc =>
      let h_any :=
        match acc with
        | r :: _ => bool_decide (is_Some (H !! sid r))
        | [] => false
        end || negb (bool_decide (sts = [])) in
      (if h_any
       then [Publish "TopOvercycleTotals" (totals_entries H acc);
             Publish "TopOvercycleTimes" (times_entries H acc)]
       else [])
      ++ [UpsertSlotLineBatch
            {| ls_line_id := lid; ls_shift_id := shid;
               ls_shift_date := sday;
               ls_shift_start_local := s_ms;
               ls_shift_end_local := e_ms;
               ls_as_of_local := e_ms;
               ls_is_final := 1;
               ls_slot_duration_min := minutes_between s_ms e_ms;
               ls_is_published := 0;
               top_totals_json :=
                 entries (_snapshot_name H) totals_value (top_tot acc);
               top_times_json :=
                 entries (_snapshot_name H) times_value (top_tim acc) |}]
  end.

(** Step "1) finalize a prior shift that just ended" of
    [run_overcycle] for one line. *)
Definition finalize_prior_shift (lid : Z) (sts : list station)
           (wins : list shift_window) (now_ms : Z) (v : store_view)
  : list effect :=
  match _last_ended_shift_for_line wins now_ms
                                   (_FINAL_GRACE_MIN * 60 * 1000) with
  | None => []
  | Some w =>
      match catch_up sts w v with
      | None => []
      | Some delta => delta ++ final_snapshot lid sts w v
      end
  end.
End Finalize.

(** ** The shift-finalization scenario of the specification

    Line 1 runs shift 1 from 06:00 to 14:00 (milliseconds of the day);
    station 7 is its only station.  [view_after_final] is the store as
    a first finalizing tick leaves it: the anchors of the shift reach
    its end and the accumulator holds the station's totals. *)
Definition scenario_wins : list shift_window :=
  [(1, "2025-06-22", 21600000, 50400000)].

Definition scenario_sts : list station :=
  [{| station_id := 7; line_id := 1 |}].

Definition view_after_final : store_view :=
  {| last_as_of_rows := Some [Some 50400000];
     station_cum_rows := Some [(7, Some 50400000)];
     shift_accum :=
       Some [{| sid := 7; acc_sum_over := 20; sum_cnt := 2 |}];
     shift_accum_retry := None |}.

(** The tick at 14:10 over that store. *)
Definition second_tick : list effect :=
  finalize_prior_shift (fun _ _ _ => []) (fun _ _ _ => None)
                       (fun _ => true) ∅ 1 scenario_sts scenario_wins
                       51000000 view_after_final.

End OvercyclePublisher.


(* ===================================================================== *)
(** * Double-precision results of the target computations

    The base and live targets truncate the result of one float division
    or multiplication, so the rounding of that operation decides the
    integer written.  In this part a finite float is the rational it
    denotes, and a float operation is the exact operation on the
    operands' values followed by rounding to the nearest binary64 number,
    ties to even.  A result whose magnitude rounds to [2^1024] or more is
    not finite: it is [None] here. *)
(* ===================================================================== *)

Module Double.

(** [2 ^ e] for an integer exponent. *)
Definition pow2 (e : Z) : Q := Qpower 2 e.

(** Rounding to the nearest integer, ties to the even one. *)
Definition rne (q : Q) : Z :=
  let f := Qfloor q in
  let d := (q - inject_Z f)%Q in
  if Num.Qltb d (1 # 2) then f
  else if Num.Qltb (1 # 2) d then f + 1
  else if Z.even f then f else f + 1.

(** The binary exponent [L] of a positive [x]: [2^L <= x < 2^(L+1)]. *)
Definition ilog2 (x : Q) : Z :=
  if Qle_bool 1 x then Z.log2 (Qfloor x)
  else - Z.log2_up (Qceiling (/ x)).

(** binary64 keeps 53 significant bits; its least exponent is -1074. *)
Definition round_pos (x : Q) : Q :=
  let e := Z.max (ilog2 x - 52) (-1074) in
  (inject_Z (rne (x / pow2 e)) * pow2 e)%Q.

(** The nearest number with 53 significant bits and an exponent of at
    least -1074, with no bound on the exponent from above. *)
Definition round_nearest (x : Q) : Q :=
  if Num.Qltb 0 x then round_pos x
  else if Num.Qltb x 0 then (- round_pos (- x))%Q
  else 0%Q.

(** The binary64 number nearest to [x]; [None] when it is not finite. *)
Definition round_double (x : Q) : option Q :=
  let r := round_nearest x in
  if Qle_bool (pow2 1024) r || Qle_bool r (- pow2 1024) then None
  else Some r.

(** [float(n)] of an integer; [None] is Python's [OverflowError]. *)
Definition float_of_int (n : Z) : option Q := round_double (inject_Z n).

(** Division of floats (by a non-zero one) and multiplication of floats;
    [None] is an infinite result. *)
Definition fdiv (a b : Q) : option Q := round_double (a / b).
Definition fmul (a b : Q) : option Q := round_double (a * b).

(** The double written [3.6]: [8106479329266893 / 2^51]. *)
Definition d3_6 : Q := 8106479329266893 # 2251799813685248.

End Double.

(* ===================================================================== *)
(** * Break spans and working time (ProductionTargetsLive and
      ProductionPublisher share this code) *)
(* ===================================================================== *)

Module Breaks.

(** A break span [(s, e)] in epoch ms, read as the half-open [s, e). *)
Definition span : Type := Z * Z.

(** A row of [getBreaksOnDate]; a missing time is [None]. *)
Record break_row := {
  is_active : bool;
  line_id : Z;
  break_start_time : option Z;
  break_end_time : option Z
}.

(** The spans [_load_breaks_if_needed] collects for one line: inactive
    rows, rows without both times and rows with [e <= s] are skipped. *)
Definition spans_of_rows (lid : Z) (rows : list break_row) : list span :=
  omap (fun r =>
          if negb (is_active r) then None
          else if negb (bool_decide (line_id r = lid)) then None
          else
            match break_start_time r, break_end_time r with
            | Some s, Some e => if e <=? s then None else Some (s, e)
            | _, _ => None
            end) rows.

(** Python's order on the tuples [(s, e)], used by [spans.sort()]. *)
Definition span_le (a b : span) : Prop :=
  a.1 < b.1 \/ (a.1 = b.1 /\ a.2 <= b.2).

#[export] Instance span_le_dec (a b : span) : Decision (span_le a b).
Proof. unfold span_le. apply _. Defined.

(** One iteration of the "merge overlaps" loop.  [merged] is kept newest
    first, so its head is Python's [merged[-1]]. *)
Definition merge_step (merged : list span) (x : span) : list span :=
  match merged with
  | [] => [x]
  | (ls, le) :: rest =>
      if x.1 >? le then x :: (ls, le) :: rest
      else (ls, Z.max le x.2) :: rest
  end.

Definition merge_spans (spans : list span) : list span :=
  reverse (foldl merge_step [] (merge_sort span_le spans)).

(** [_breaks["by_line"][lid]] after a load of the rows of yesterday and
    today. *)
Definition load_breaks (lid : Z) (rows : list break_row) : list span :=
  merge_spans (spans_of_rows lid rows).

(** The part of a span inside [start_ms, end_ms). *)
Definition overlap (start_ms end_ms : Z) (x : span) : Z :=
  let lo := Z.max start_ms x.1 in
  let hi := Z.min end_ms x.2 in
  if hi >? lo then hi - lo else 0.

(** The [blocked] loop of [_working_ms]. *)
Definition blocked_ms (start_ms end_ms : Z) (spans : list span) : Z :=
  foldl (fun blocked x => blocked + overlap start_ms end_ms x) 0 spans.

(** [_working_ms(start_ms, end_ms, line_id)], with the line's spans
    [_breaks["by_line"].get(line_id, [])] passed in. *)
Definition _working_ms (start_ms end_ms : Z) (spans : list span) : Z :=
  let total := Z.max 0 (end_ms - start_ms) in
  if total =? 0 then 0
  else
    match spans with
    | [] => total
    | _ => Z.max 0 (total - blocked_ms start_ms end_ms spans)
    end.

Definition _hour_working_seconds (hour_start_ms : Z) (spans : list span) : Z :=
  _working_ms hour_start_ms (hour_start_ms + 3600 * 1000) spans / 1000.

(** An instant lies inside one of the spans. *)
Definition covers (spans : list span) (t : Z) : Prop :=
  Exists (fun x => x.1 <= t < x.2) spans.

(** Spans in ascending order, each non-empty, each ending strictly before
    the next begins. *)
Definition separated (spans : list span) : Prop :=
  Forall (fun x => x.1 < x.2) spans /\
  Sorted (fun a b => a.2 < b.1) spans.

(** The same, for the loop's newest-first list. *)
Definition separated_rev (merged : list span) : Prop :=
  Forall (fun x => x.1 < x.2) merged /\
  Sorted (fun a b => b.2 < a.1) merged.

(** A break row that is counted for line [lid] and contains [t]. *)
Definition row_covers (lid : Z) (t : Z) (r : break_row) : Prop :=
  is_active r = true /\ line_id r = lid /\
  exists s e, break_start_time r = Some s /\ break_end_time r = Some e /\
              s <= t < e.

(** ** Base targets of [run_targets] *)

(** [int(work_sec / ct_eff) if work_sec > 0 else 0] behind the test
    [ct_eff and ct_eff > 0.0], and 0 where that test fails.  [ct_eff] is
    the value of a finite double; the quotient is a double division of
    [float(work_sec)] by it.  [None]: [int] raises on an infinite
    quotient (or [float] on the integer). *)
Definition base_target (work_sec : Z) (ct_eff : Q) : option Z :=
  if Num.Qltb 0 ct_eff then
    if work_sec >? 0 then
      match Double.float_of_int work_sec with
      | Some a =>
          match Double.fdiv a ct_eff with
          | Some q => Some (Num.int_of_float q)
          | None => None
          end
      | None => None
      end
    else Some 0
  else Some 0.

(** "Hourly BASE" ([WRITE_HOURLY_BASE_TO_DB] is [True]): the new
    [last_hour_base] and the rows appended.  Nothing happens for a
    station that is not critical.  The row is written only when the
    value changed since the last one and is positive; [last_hour_base]
    is updated on every change.  [None]: the computation raises, which
    ends the tick before any row is sent. *)
Definition hourly_base_step (is_critical : bool) (last_hour_base : option Z)
           (hour_start_local_ms : Z) (spans : list span) (ct_eff : Q)
  : option (option Z * list Z) :=
  if is_critical then
    match base_target (_hour_working_seconds hour_start_local_ms spans)
                      ct_eff with
    | Some hour_base =>
        Some (if bool_decide (last_hour_base = Some hour_base)
              then (last_hour_base, [])
              else (Some hour_base,
                    if hour_base >? 0 then [hour_base] else []))
    | None => None
    end
  else Some (last_hour_base, []).

(** "Shift BASE" ([WRITE_SHIFT_BASE_TO_DB] is [True]): the new
    [last_shift_base] and the rows appended.  The block runs for a
    critical station whose [shift_id] is not [None] and whose
    [shift_start_ms] and [shift_end_ms] are truthy: present and not 0.
    The row is written on every change, also when the value is 0. *)
Definition shift_base_step (is_critical : bool) (shift_id : option Z)
           (shift_start_ms shift_end_ms : option Z)
           (last_shift_base : option Z) (spans : list span) (ct_eff : Q)
  : option (option Z * list Z) :=
  match shift_id, shift_start_ms, shift_end_ms with
  | Some _, Some s_ms, Some e_ms =>
      if is_critical && negb (s_ms =? 0) && negb (e_ms =? 0) then
        match base_target (_working_ms s_ms e_ms spans / 1000) ct_eff with
        | Some shift_base =>
            Some (if bool_decide (last_shift_base = Some shift_base)
                  then (last_shift_base, [])
                  else (Some shift_base, [shift_base]))
        | None => None
        end
      else Some (last_shift_base, [])
  | _, _, _ => Some (last_shift_base, [])
  end.

(** ** Live targets of [publish_hourly_rows] *)

(** "break-aware LiveTarget" of an hourly row at time [now_ms]:
    [frac = min(1.0, max(0.0, float(elapsed) / float(total)))] and
    [int(tgt_base * frac)], each operation on doubles.  An infinite
    quotient would be clamped to 1; [None]: [float] or [int] raises. *)
Definition live_target_hour (is_closed : bool) (tgt_base : Z)
           (hour_ms now_ms : Z) (spans : list span) : option Z :=
  let hour_end := hour_ms + 3600 * 1000 in
  if is_closed || (tgt_base <=? 0) then Some 0
  else
    let work_total_sec := _working_ms hour_ms hour_end spans / 1000 in
    if work_total_sec <=? 0 then Some 0
    else
      let now_cap := Z.min now_ms hour_end in
      let work_elapsed_sec := _working_ms hour_ms now_cap spans / 1000 in
      match Double.float_of_int work_elapsed_sec,
            Double.float_of_int work_total_sec with
      | Some a, Some b =>
          let frac :=
            match Double.fdiv a b with
            | Some q => Num.Qmin 1 (Num.Qmax 0 q)
            | None => 1%Q
            end in
          match Double.float_of_int tgt_base with
          | Some t =>
              match Double.fmul t frac with
              | Some p => Some (Num.int_of_float p)
              | None => None
              end
          | None => None
          end
      | _, _ => None
      end.

End Breaks.


(* ===================================================================== *)
(** * Shift windows of a line (OvercyclePublisher and
      ProductionTargetsLive share this code) *)
(* ===================================================================== *)

Module Shifts.
Import OvercyclePublisher.

(** A row of [getShiftScheduleOnDate]; a missing time is [None]. *)
Record schedule_row := {
  sch_line_id : Z;
  sch_shift_id : Z;
  start_time : option Z;
  end_time : option Z
}.

Definition win_start (w : shift_window) : Z := w.1.2.
Definition win_end (w : shift_window) : Z := w.2.

(** The windows [_load_shifts_if_needed] appends for one line from the
    rows of one day; rows without both times are skipped. *)
Definition wins_of_rows (lid : Z) (day : string) (rows : list schedule_row)
  : list shift_window :=
  omap (fun r =>
          if bool_decide (sch_line_id r = lid) then
            match start_time r, end_time r with
            | Some st, Some en => Some (sch_shift_id r, day, st, en)
            | _, _ => None
            end
          else None) rows.

(** [by_line[lid].sort(key=lambda t: t[2])]: Python's stable sort by the
    start, as an insertion after the windows that do not start later. *)
Fixpoint insert_by_start (w : shift_window) (l : list shift_window)
  : list shift_window :=
  match l with
  | [] => [w]
  | y :: rest =>
      if win_start w <? win_start y then w :: y :: rest
      else y :: insert_by_start w rest
  end.

Definition sort_by_start (l : list shift_window) : list shift_window :=
  foldl (fun acc w => insert_by_start w acc) [] l.

(** [_shifts["by_line"][lid]] after a load of yesterday's and today's
    schedule rows. *)
Definition load_shifts (lid : Z) (yday today : string)
           (yrows trows : list schedule_row) : list shift_window :=
  sort_by_start (wins_of_rows lid yday yrows ++ wins_of_rows lid today trows).

(** [s_ms <= now_ms < e_ms] *)
Definition contains (now_ms : Z) (w : shift_window) : Prop :=
  win_start w <= now_ms < win_end w.

(** [_active_shift_for_line]; [(None, None, None, None)] is [None]. *)
Fixpoint _active_shift_for_line (wins : list shift_window) (now_ms : Z)
  : option shift_window :=
  match wins with
  | [] => None
  | w :: rest =>
      if (win_start w <=? now_ms) && (now_ms <? win_end w) then Some w
      else _active_shift_for_line rest now_ms
  end.

End Shifts.


(* ===================================================================== *)
(** * OvercyclePublisher: the current-shift step of a tick *)
(* ===================================================================== *)

Module OvercycleTick.
Import OvercyclePublisher.

(** The counters of the history scan, without the lookup hint. *)
Definition counters (a : oc_acc) : Z * Q * Q := (cnt a, mx a, sum_over a).

(** The counters against the number [n] of samples read so far. *)
Definition oc_bound (n : Z) (a : oc_acc) : Prop :=
  0 <= cnt a <= n /\ (0 <= mx a)%Q /\
  (sum_over a <= inject_Z (cnt a) * mx a)%Q.

Section Current.
Variable ct_segments : Z -> Z -> Z -> list segment.
Variable query_ct_history : Z -> Z -> Z -> option (list hist_row).
Variable has_ct_tag : Z -> bool.
Variable H : gmap Z string.

(** "delta since last_asof" of step "2) current active shift": the
    writes issued, or [None] when [_existing_station_rows] raises; the
    exception then leaves [run_overcycle]. *)
Definition current_delta (sts : list station) (w : shift_window)
           (now_ms : Z) (v : store_view) : option (list effect) :=
  let '(shid, sday, s_ms, e_ms) := w in
  let as_of := if now_ms <? e_ms then now_ms else e_ms in
  let last_asof := _line_last_asof v s_ms in
  if as_of >? last_asof then
    match _existing_station_rows v with
    | None => None
    | Some existed =>
        let delta_rows :=
          set_final 0 <$>
            _compute_deltas_for_line ct_segments query_ct_history has_ct_tag
              sts shid sday s_ms last_asof as_of e_ms existed in
        Some match delta_rows with
             | [] => []
             | _ => [UpsertSlotStationBatch delta_rows]
             end
    end
  else Some [].

(** "build current snapshot and publish" and "current snapshot row". *)
Definition current_snapshot (lid : Z) (sts : list station)
           (w : shift_window) (now_ms : Z) (v : store_view) : list effect :=
  let '(shid, sday, s_ms, e_ms) := w in
  let as_of := if now_ms <? e_ms then now_ms else e_ms in
  match
    match shift_accum v with
    | Some rows => Some rows
    | None => shift_accum_retry v
    end
  with
  | None => []
  | Some acc =>
      let h_any :=
        match acc with
        | r :: _ => bool_decide (is_Some (H !! sid r))
        | [] => false
        end || negb (bool_decide (sts = [])) in
      (if h_any
       then [Publish "TopOvercycleTotals" (totals_entries H acc);
             Publish "TopOvercycleTimes" (times_entries H acc)]
       else [])
      ++ [UpsertSlotLineBatch
            {| ls_line_id := lid; ls_shift_id := shid;
               ls_shift_date := sday;
               ls_shift_start_local := s_ms;
               ls_shift_end_local := e_ms;
               ls_as_of_local := as_of;
               ls_is_final := 0;
               ls_slot_duration_min := minutes_between s_ms as_of;
               ls_is_published := 1;
               top_totals_json :=
                 entries (_snapshot_name H) totals_value (top_tot acc);
               top_times_json :=
                 entries (_snapshot_name H) times_value (top_tim acc) |}]
  end.

(** Step "2) current active shift" of [run_overcycle] for one line, which
    runs when step 1 has not raised: the writes it issues. *)
Definition current_shift (lid : Z) (sts : list station)
           (wins : list shift_window) (now_ms : Z) (v : store_view)
  : list effect :=
  match Shifts._active_shift_for_line wins now_ms with
  | None => []
  | Some w =>
      match current_delta sts w now_ms v with
      | None => []
      | Some delta => delta ++ current_snapshot lid sts w now_ms v
      end
  end.
End Current.

(** The station rows an effect writes. *)
Definition station_rows_of (e : effect) : option (list anchor_row) :=
  match e with
  | UpsertSlotStationBatch rows => Some rows
  | _ => None
  end.


End OvercycleTick.


(* ===================================================================== *)
(** * ProductionRollup: time helpers and the shift part of a tick *)
(* ===================================================================== *)

Module RollupTick.
Import ProductionRollup.

Definition HOUR_MS : Z := 3600 * 1000.

(** [_floor_hour_utc]: minute, second and millisecond of the UTC calendar
    set to 0, on the epoch-ms value of the date. *)
Definition _floor_hour_utc (d : Z) : Z := d - d mod HOUR_MS.

(** [_ceil_hour_utc]: the date itself when minute, second and millisecond
    are all 0, else the floor plus one hour. *)
Definition _ceil_hour_utc (d : Z) : Z :=
  if negb (d mod HOUR_MS =? 0) then _floor_hour_utc d + HOUR_MS else d.

(** [Calendar.DAY_OF_WEEK] of a local day, counted in days since
    1970-01-01 (a Thursday): 1 is Sunday, 7 is Saturday. *)
Definition day_of_week (day : Z) : Z := (day + 4) mod 7 + 1.

(** [_week_start_local_sys(d, dow_1to7)] on the local day of [d]: the
    midnight [back] days earlier. *)
Definition _week_start_local_sys (day dow_1to7 : Z) : Z :=
  let back := (day_of_week day - dow_1to7 + 7) mod 7 in
  day - back.

(** A row of the tick's [shift_rows] batch; [s["shift_date"]] is written
    as it is held. *)
Record shift_snapshot := {
  ss_station_id : Z;
  ss_shift_id : Z;
  ss_shift_local_date : option string;
  ss_total_parts : Z;
  ss_start_count : Z;
  ss_end_count : option Z;
  ss_is_closed : Z
}.

Definition set_shift (s : station_state) (shid : option Z)
           (sdate : option string) (start_count total : Z) : station_state :=
  {| line_id := line_id s; tag := tag s;
     hour_start_utc := hour_start_utc s;
     hour_start_count := hour_start_count s;
     hour_total := hour_total s;
     last_peak := last_peak s;
     hour_last_flush := hour_last_flush s;
     shift_id := shid; shift_date := sdate;
     shift_start_count := start_count;
     shift_total := total;
     week_start_local := week_start_local s;
     week_total := week_total s;
     past_shift_done_keys := past_shift_done_keys s |}.

(** "If the tuple we just got has an end <= now, treat it as no current
    shift". *)
Definition current_window (active : option (Z * string * Z * Z))
           (now_ms : Z) : option (Z * string * Z * Z) :=
  match active with
  | Some w => if now_ms >=? w.2 then None else Some w
  | None => None
  end.

Section ShiftPart.
Variable queryTagHistory : string -> Z -> Z -> dataset.

(** "Shift handling" of [run_rollups] for one station: [active] is the
    result of [_active_shift_for_line], [curr] the counter value of the
    tick. *)
Definition tick_shift (sid : Z) (s : station_state) (now_ms curr : Z)
           (active : option (Z * string * Z * Z))
  : station_state * list shift_snapshot :=
  let cur := current_window active now_ms in
  let cur_sh_id := (fun w : Z * string * Z * Z => w.1.1.1) <$> cur in
  let cur_sh_date := (fun w : Z * string * Z * Z => w.1.1.2) <$> cur in
  let '(s1, closed) :=
    if bool_decide (shift_id s <> cur_sh_id \/ shift_date s <> cur_sh_date)
    then
      (match cur with
       | Some w =>
           set_shift s cur_sh_id cur_sh_date
             (match _hist_value_at_or_before queryTagHistory (tag s) w.1.2 with
              | Some base => Num.int_of_float base
              | None => curr
              end)
             (_series_positive_delta queryTagHistory (tag s) w.1.2 now_ms)
       | None => set_shift s None None curr 0
       end,
       match shift_id s, shift_date s with
       | Some shid, Some d =>
           if bool_decide (d <> EmptyString) then
             [ {| ss_station_id := sid; ss_shift_id := shid;
                  ss_shift_local_date := Some d;
                  ss_total_parts := Z.max 0 (shift_total s);
                  ss_start_count := shift_start_count s;
                  ss_end_count := Some (last_peak s);
                  ss_is_closed := 1 |} ]
           else []
       | _, _ => []
       end)
    else (s, []) in
  (s1,
   closed ++
   match shift_id s1 with
   | Some shid =>
       [ {| ss_station_id := sid; ss_shift_id := shid;
            ss_shift_local_date := shift_date s1;
            ss_total_parts := Z.max 0 (shift_total s1);
            ss_start_count := shift_start_count s1;
            ss_end_count := None;
            ss_is_closed := 0 |} ]
   | None => []
   end).
End ShiftPart.

End RollupTick.


(* ===================================================================== *)
(** * ProductionTargetsLive: part configuration, overcycle multiplier and
      the first increment of a counter *)
(* ===================================================================== *)

Module TargetsConfig.
Import ProductionTargetsLive.

(** A row of [getPartCTsForStation]; a null or unconvertible value is
    [None]. *)
Record part_ct_row := {
  part_number : option string;
  cycle_time : option Q;
  overcycle_multiplier : option Q
}.

(** One row of the loop of [_refresh_station_ct_config] on the pair
    [(ctmap, multmap)]. *)
Definition cfg_step (acc : gmap string Q * gmap string Q) (r : part_ct_row)
  : gmap string Q * gmap string Q :=
  let pn := default EmptyString (part_number r) in
  let ct := default 0%Q (cycle_time r) in
  if Num.Qltb 0 ct && negb (bool_decide (pn = EmptyString)) then
    (<[pn := ct]> acc.1,
     match overcycle_multiplier r with
     | Some m => if Num.Qltb 0 m then <[pn := m]> acc.2 else acc.2
     | None => acc.2
     end)
  else acc.

(** [_refresh_station_ct_config]: the maps stored for the station; [None]
    is a query that raised. *)
Definition _refresh_station_ct_config (ds2 : option (list part_ct_row))
  : gmap string Q * gmap string Q :=
  foldl cfg_step (∅, ∅) (default [] ds2).

(** [p not in cfg_cts or (cfg_cts.get(p, 0.0) or 0.0) <= 0.0] *)
Definition is_missing_part (cfg_cts : gmap string Q) (p : string) : bool :=
  match cfg_cts !! p with
  | None => true
  | Some ct => Num.Qleb ct 0
  end.

(** [missing_parts] of "Missing configuration detection". *)
Definition missing_parts (cfg_cts : gmap string Q) (live_parts : list string)
           (fps : nat) : list string :=
  filter (fun p => is_missing_part cfg_cts p = true) (take fps live_parts).

(** [min(mult_vals)] of a list whose head is [m]. *)
Definition Qminimum (m : Q) (l : list Q) : Q := foldl Num.Qmin m l.

(** The positive multipliers configured for the parts in use. *)
Definition mult_vals (parts_used : list string) (cfg_mults : gmap string Q)
  : list Q :=
  omap (fun p =>
          match cfg_mults !! p with
          | Some fv => if Num.Qltb 0 fv then Some fv else None
          | None => None
          end) parts_used.

(** "Effective overcycle multiplier with same parallelism logic";
    [eff_mult] stays 0.0 when the configuration is missing. *)
Definition eff_mult (is_missing_cfg : bool) (parts_used : list string)
           (cfg_mults : gmap string Q) (parallelism_factor : Q) : Q :=
  if is_missing_cfg then 0%Q
  else
    match parts_used with
    | [] => 0%Q
    | _ :: _ =>
        match mult_vals parts_used cfg_mults with
        | [] => 0%Q
        | [m] => m
        | m :: rest =>
            let vals := m :: rest in
            let mean_m := (Qsum vals / inject_Z (Z.of_nat (length vals)))%Q in
            let min_m := Qminimum m rest in
            let lam_m := Num.Qmax 0 (Num.Qmin 1 parallelism_factor) in
            ((1 - lam_m) * mean_m + lam_m * min_m)%Q
        end
    end.

(** The sample [r] is readable and above [b]. *)
Definition exceeds (b : Q) (r : ProductionRollup.hist_row) : bool :=
  match r.2 with
  | Some v => Num.Qltb b v
  | None => false
  end.

(** The row loop of [_first_increment_ts]; the inner [if v > base] of the
    last branch can never hold, so [base] stays as first set. *)
Fixpoint first_increment_loop (rows : list ProductionRollup.hist_row)
         (base : option Q) : option Z :=
  match rows with
  | [] => None
  | (ts, None) :: rest => first_increment_loop rest base
  | (ts, Some v) :: rest =>
      match base with
      | None => first_increment_loop rest (Some v)
      | Some b =>
          if Num.Qltb b v then Some ts
          else first_increment_loop rest (if Num.Qltb b v then Some v else base)
      end
  end.

Section FirstIncrement.
Variable queryTagHistory : string -> Z -> Z -> ProductionRollup.dataset.

Definition _first_increment_ts (tag_path : string) (prev_val : option Q)
           (start_ms end_ms : Z) : option Z :=
  match queryTagHistory tag_path start_ms end_ms with
  | None => None
  | Some rows => first_increment_loop rows prev_val
  end.
End FirstIncrement.

End TargetsConfig.


(* ===================================================================== *)
(** * TagValueChange: event-path index and the code-name cache *)
(* ===================================================================== *)

Module TagRouting.

(** A tag path, as its characters. *)
Definition path : Type := list Ascii.ascii.

(** [u"/Value"] *)
Definition VALUE : path := String.list_ascii_of_string "/Value".

(** [s.endswith(suf)] *)
Definition endswith (s suf : path) : bool := bool_decide (suf `suffix_of` s).

(** [s[:-len(suf)]] *)
Definition strip_suffix (s suf : path) : path :=
  take (length s - length suf) s.

(** [_index_variants(p)] *)
Definition _index_variants (s : path) : gset path :=
  {[ s ]}
  ∪ (if endswith s VALUE then {[ strip_suffix s VALUE ]}
     else {[ s ++ VALUE ]})
  ∪ (if negb (endswith s (VALUE ++ VALUE)) then {[ s ++ VALUE ++ VALUE ]}
     else ∅).

(** [path_to_topicstrs.setdefault(pv, set()).add(topic)] *)
Definition add_topic (topic : string) (pv : path)
           (idx : gmap path (gset string)) : gmap path (gset string) :=
  <[ pv := default ∅ (idx !! pv) ∪ {[ topic ]} ]> idx.

(** "index all likely event-path variants for lookup on change" *)
Definition register (idx : gmap path (gset string)) (p : path)
           (topic : string) : gmap path (gset string) :=
  set_fold (add_topic topic) idx (_index_variants p).

(** The [topic_keys] of "NODE/CYCLE routing" in [_process_change]. *)
Definition topic_keys (idx : gmap path (gset string)) (p : path)
  : gset string :=
  let direct := default ∅ (idx !! p) in
  if bool_decide (direct = ∅) && endswith p VALUE
  then default ∅ (idx !! strip_suffix p VALUE)
  else if bool_decide (direct = ∅)
       then default ∅ (idx !! (p ++ VALUE))
       else direct.

End TagRouting.

Module NameCache.

Definition _LOOKUP_TTL_SEC : Q := 300.

Section Cache.
Context {K : Type} `{Countable K}.

(** [_cache_get(cache_dict, key)] at clock reading [now]: the result and
    the dictionary it leaves.  A dictionary maps a key to
    [(name, ts_sec)]. *)
Definition _cache_get (now : Q) (c : gmap K (option string * Q)) (key : option K)
  : option string * gmap K (option string * Q) :=
  match key with
  | None => (None, c)
  | Some k =>
      match c !! k with
      | None => (None, c)
      | Some (name, ts) =>
          if Num.Qleb (now - ts) _LOOKUP_TTL_SEC then (name, c)
          else (None, delete k c)
      end
  end.

(** [_cache_put(cache_dict, key, name)] at clock reading [now]. *)
Definition _cache_put (now : Q) (c : gmap K (option string * Q)) (key : K)
           (name : option string)
  : gmap K (option string * Q) :=
  <[ key := (name, now) ]> c.

(** [_get_reject_name] / [_get_userrole_name] on a normalized key:
    [lookup_name] is the named query with its name extraction, [t_get]
    and [t_put] the clock readings of the two cache calls.  The third
    component tells whether the query was issued. *)
Definition _get_name (lookup_name : K -> option string) (t_get t_put : Q)
           (c : gmap K (option string * Q)) (key : K) : option string * gmap K (option string * Q) * bool :=
  let '(cached, c1) := _cache_get t_get c (Some key) in
  match cached with
  | Some name => (Some name, c1, false)
  | None =>
      match lookup_name key with
      | Some name => (Some name, _cache_put t_put c1 key (Some name), true)
      | None => (None, _cache_put t_put c1 key None, true)
      end
  end.
End Cache.

End NameCache.

(* ===================================================================== *)
(** * Properties *)
(* ===================================================================== *)

(** ** Tri-state AND *)

Section TriState.
Import TagValueChange.

Lemma and_loop_false values sn st :
  In (Some false) values -> and_tristate_loop values sn st = Some false.
Proof.
  revert sn st; induction values as [|[[|]|] rest IH]; simpl; intros sn st Hin.
  - contradiction.
  - destruct Hin as [Heq|Hin]; [discriminate | auto].
  - reflexivity.
  - destruct Hin as [Heq|Hin]; [discriminate | auto].
Qed.

Lemma and_loop_unknown values sn st :
  ~ In (Some false) values -> sn = true \/ In None values ->
  and_tristate_loop values sn st = None.
Proof.
  revert sn st; induction values as [|[[|]|] rest IH]; simpl; intros sn st Hnf Hn.
  - destruct Hn as [->|[]]. by destruct st.
  - apply IH; [tauto|]. destruct Hn as [?|[?|?]]; [auto|discriminate|auto].
  - exfalso; apply Hnf; auto.
  - apply IH; [tauto | auto].
Qed.

Lemma and_loop_true values st :
  ~ In (Some false) values -> ~ In None values ->
  st = true \/ values <> [] ->
  and_tristate_loop values false st = Some true.
Proof.
  revert st; induction values as [|[[|]|] rest IH]; simpl; intros st Hnf Hnn Hne.
  - destruct Hne as [->|?]; [reflexivity | congruence].
  - apply IH; [tauto | tauto | auto].
  - exfalso; apply Hnf; auto.
  - exfalso; apply Hnn; auto.
Qed.

(** C9 (as stated, refuted): on the empty list no value is false and
    none is unknown, yet the reduction answers unknown, not true. *)
Lemma and_tristate_empty_unknown :
  _and_tristate [] = None /\ ~ and_reduce_rule [] (_and_tristate []).
Proof.
  split; [reflexivity|].
  intros (_ & _ & Htrue).
  specialize (Htrue (fun H => H) (fun H => H)). discriminate.
Qed.

(** C9 (amended): over a non-empty list of tri-state values the
    AND-reduce returns false whenever any value is false; otherwise
    unknown whenever any value is unknown; otherwise (all true) true.
    Over the empty list it returns unknown. *)
Theorem and_tristate_rule (values : list tristate) :
  (values <> [] -> and_reduce_rule values (_and_tristate values)) /\
  (values = [] -> _and_tristate values = None).
Proof.
  split.
  - intros Hne. unfold and_reduce_rule, _and_tristate. repeat split.
    + apply and_loop_false.
    + intros Hnf Hn. apply and_loop_unknown; auto.
    + intros Hnf Hnn. apply and_loop_true; auto.
  - intros ->. reflexivity.
Qed.

Lemma and_tristate_rule_witness :
  [Some true; None] <> [] /\
  and_reduce_rule [Some true; None] (_and_tristate [Some true; None]).
Proof.
  split; [discriminate|].
  apply (proj1 (and_tristate_rule [Some true; None])). discriminate.
Defined.
End TriState.

(** ** Reset-safe positive delta over a history series *)

Section PositiveDelta.
Import ProductionRollup.


Lemma Qltb_true a b : Num.Qltb a b = true <-> (a < b)%Q.
Proof.
  unfold Num.Qltb. rewrite negb_true_iff, <- not_true_iff_false, Qle_bool_iff.
  split; [apply Qnot_le_lt | apply Qlt_not_le].
Qed.

Lemma Qltb_false a b : Num.Qltb a b = false <-> (b <= a)%Q.
Proof.
  unfold Num.Qltb. rewrite negb_false_iff. apply Qle_bool_iff.
Qed.




Lemma int_of_float_nonneg (x : Q) : (0 <= x)%Q -> Num.int_of_float x = Qfloor x.
Proof.
  intros H. unfold Num.int_of_float.
  by rewrite (proj2 (Qle_bool_iff 0 x) H).
Qed.

Lemma int_of_float_Z (n : Z) : Num.int_of_float (inject_Z n) = n.
Proof.
  unfold Num.int_of_float.
  destruct (Qle_bool 0 (inject_Z n)); [apply Qfloor_Z | apply Qceiling_Z].
Qed.

Lemma int_of_float_mono (x y : Q) :
  (x <= y)%Q -> Num.int_of_float x <= Num.int_of_float y.
Proof.
  intros Hxy. unfold Num.int_of_float.
  destruct (Qle_bool 0 x) eqn:Ex, (Qle_bool 0 y) eqn:Ey.
  - by apply Qfloor_resp_le.
  - apply Qle_bool_iff in Ex.
    assert (~ (0 <= y)%Q) by (rewrite <- Qle_bool_iff; congruence). lra.
  - assert (Hx : ~ (0 <= x)%Q) by (rewrite <- Qle_bool_iff; congruence).
    apply Qle_bool_iff in Ey.
    transitivity 0.
    + change 0 with (Qceiling 0). apply Qceiling_resp_le. lra.
    + change 0 with (Qfloor 0). by apply Qfloor_resp_le.
  - by apply Qceiling_resp_le.
Qed.

Lemma int_of_float_Qeq (x y : Q) :
  (x == y)%Q -> Num.int_of_float x = Num.int_of_float y.
Proof.
  intros Hxy. apply Z.le_antisymm; apply int_of_float_mono; lra.
Qed.




End PositiveDelta.

(** ** Reset-safe accumulation in the rollup tick *)

Section Accumulation.
Import ProductionRollup.

Lemma accumulate_keeps_hour s curr :
  hour_start_utc (accumulate s curr) = hour_start_utc s.
Proof.
  unfold accumulate.
  destruct (curr >=? last_peak s); [destruct (_ >? 0)|]; reflexivity.
Qed.

Lemma accumulate_view s curr :
  (hour_total (accumulate s curr), last_peak (accumulate s curr))
  = peak_step (hour_total s, last_peak s) (Some curr).
Proof.
  unfold accumulate, peak_step; simpl.
  destruct (curr >=? last_peak s); [destruct (_ >? 0)|]; reflexivity.
Qed.

(** A tick without a good reading leaves the counters as they are. *)
Lemma accumulate_frozen s :
  accumulate s (last_peak s) = s.
Proof.
  unfold accumulate. rewrite (proj2 (Z.geb_le _ _)) by lia.
  by rewrite Z.sub_diag.
Qed.

Lemma tick_hour_same_hour sid s now_ms cur_hr reading anchor :
  hour_start_utc s = cur_hr ->
  let s' := (tick_hour sid s now_ms cur_hr reading anchor).1.1 in
  hour_start_utc s' = cur_hr /\
  (hour_total s', last_peak s') = peak_step (hour_total s, last_peak s) reading.
Proof.
  intros Hh. unfold tick_hour, hour_rollover.
  rewrite bool_decide_eq_false_2 by (intros Hne; apply Hne, Hh).
  unfold idle_flush.
  destruct (_ >=? _); simpl;
    (split; [by rewrite accumulate_keeps_hour|]);
    rewrite accumulate_view; by destruct reading.
Qed.

Lemma run_ticks_view sid s cur_hr obs :
  hour_start_utc s = cur_hr ->
  (hour_total (run_ticks sid s cur_hr obs),
   last_peak (run_ticks sid s cur_hr obs))
  = foldl peak_step (hour_total s, last_peak s) (obs.*2).
Proof.
  revert s; induction obs as [|[now_ms reading] obs IH]; intros s Hh; [done|].
  destruct (tick_hour_same_hour sid s now_ms cur_hr reading None Hh)
    as [Hh' Hv].
  change (run_ticks sid s cur_hr ((now_ms, reading) :: obs))
    with (run_ticks sid (tick_hour sid s now_ms cur_hr reading None).1.1
                    cur_hr obs).
  rewrite (IH _ Hh'). cbn zeta in Hv. by rewrite Hv.
Qed.

Lemma run_ticks_hour_total sid s cur_hr obs :
  hour_start_utc s = cur_hr ->
  hour_total (run_ticks sid s cur_hr obs)
  = (foldl peak_step (hour_total s, last_peak s) (obs.*2)).1.
Proof.
  intros Hh. by rewrite <- (run_ticks_view sid s cur_hr obs Hh).
Qed.

(** C2: the accumulation of a tick is reset-safe.  With
    [curr >= last_peak] the difference is added to the hour, shift and
    week totals and [last_peak] becomes [curr]; with [curr < last_peak]
    the new value becomes the baseline and no total changes, so no
    total ever decreases; and a station first observed at 50, with no
    increase recorded earlier in the hour, whose later ticks in the same
    hour read 55, 0 and 7 ends with [hour_total] 12. *)
Theorem accumulate_reset_safe (s : station_state) (curr : Z) :
  (last_peak s <= curr ->
     hour_total (accumulate s curr) = hour_total s + (curr - last_peak s) /\
     shift_total (accumulate s curr) = shift_total s + (curr - last_peak s) /\
     week_total (accumulate s curr) = week_total s + (curr - last_peak s) /\
     last_peak (accumulate s curr) = curr) /\
  (curr < last_peak s ->
     hour_total (accumulate s curr) = hour_total s /\
     shift_total (accumulate s curr) = shift_total s /\
     week_total (accumulate s curr) = week_total s /\
     last_peak (accumulate s curr) = curr) /\
  hour_total s <= hour_total (accumulate s curr) /\
  (forall query sid lid tg t0 t1 t2 t3 hr wk,
     _series_positive_delta query tg hr t0 = 0 ->
     hour_total
       (run_ticks sid
          (_ensure_init_station_state query lid tg t0 hr wk 50 None) hr
          [(t0, Some 50); (t1, Some 55); (t2, Some 0); (t3, Some 7)]) = 12).
Proof.
  split; [|split; [|split]].
  - intros Hle. unfold accumulate.
    rewrite (proj2 (Z.geb_le _ _)) by lia.
    destruct (Z.gtb_spec (curr - last_peak s) 0); simpl; lia.
  - intros Hlt. unfold accumulate.
    rewrite Z.geb_leb, (proj2 (Z.leb_gt _ _)) by lia. done.
  - unfold accumulate.
    destruct (Z.geb_spec curr (last_peak s)); simpl; [|lia].
    destruct (Z.gtb_spec (curr - last_peak s) 0); simpl; lia.
  - intros query sid lid tg t0 t1 t2 t3 hr wk H0.
    rewrite run_ticks_hour_total by reflexivity.
    cbn [_ensure_init_station_state hour_total last_peak]. rewrite H0.
    reflexivity.
Qed.

Lemma accumulate_reset_safe_witness :
  hour_total
    (run_ticks 1
       (_ensure_init_station_state (one_sample 29100000 50) 1
          (Some "TotalParts") 29100000 28800000 0 50 None) 28800000
       [(29100000, Some 50); (29700000, Some 55); (30000000, Some 0);
        (30300000, Some 7)]) = 12.
Proof.
  apply (proj2 (proj2 (proj2 (accumulate_reset_safe
           (_ensure_init_station_state (one_sample 29100000 50) 1
              (Some "TotalParts") 29100000 28800000 0 50 None) 55)))).
  reflexivity.
Defined.
End Accumulation.

(** ** Finalization of just-ended shifts *)

Section LateReconcile.
Import ProductionRollup.
Variable queryTagHistory : string -> Z -> Z -> dataset.

Lemma reconcile_loop_mono sid tg past done rows :
  done ⊆ (reconcile_loop queryTagHistory sid tg past done rows).1.
Proof.
  revert done rows; induction past as [|w rest IH]; intros done rows; simpl.
  - done.
  - case_bool_decide; [apply IH|].
    etrans; [|apply IH]. set_solver.
Qed.

Lemma reconcile_loop_marks sid tg past done rows w :
  w ∈ past -> key_of w ∈ (reconcile_loop queryTagHistory sid tg past done rows).1.
Proof.
  revert done rows; induction past as [|w' rest IH]; intros done rows Hin.
  - by apply elem_of_nil in Hin.
  - apply elem_of_cons in Hin as [->|Hin]; simpl.
    + case_bool_decide as Hk.
      * by apply reconcile_loop_mono.
      * apply reconcile_loop_mono. set_solver.
    + case_bool_decide; by apply IH.
Qed.

Lemma reconcile_loop_all_done sid tg past done rows :
  (forall w, w ∈ past -> key_of w ∈ done) ->
  reconcile_loop queryTagHistory sid tg past done rows = (done, rows).
Proof.
  revert done rows; induction past as [|w rest IH]; intros done rows Hall;
    simpl; [done|].
  rewrite bool_decide_eq_true_2 by (apply Hall; left).
  apply IH. intros w' Hw'. apply Hall. by right.
Qed.

Lemma reconcile_loop_fresh sid tg past done rows :
  NoDup (key_of <$> past) ->
  (forall w, w ∈ past -> key_of w ∉ done) ->
  (reconcile_loop queryTagHistory sid tg past done rows).2
  = rows ++ (reconciled_row queryTagHistory sid tg <$> past).
Proof.
  revert done rows; induction past as [|w rest IH]; intros done rows Hnd Hfr;
    simpl.
  - by rewrite app_nil_r.
  - apply NoDup_cons in Hnd as [Hw Hnd].
    rewrite bool_decide_eq_false_2 by (apply Hfr; left).
    rewrite IH; [by rewrite <- app_assoc | done |].
    intros w' Hw' Hin. apply elem_of_union in Hin as [Hin|Hin].
    + apply elem_of_singleton in Hin. apply Hw. rewrite <- Hin.
      by apply list_elem_of_fmap_2.
    + apply (Hfr w'); [by right | done].
Qed.

(** A second reconciliation pass of a station over the same ended
    windows appends nothing and leaves the state as it is. *)
Lemma reconcile_twice sid s past rows rows' :
  let r1 := _reconcile_late_shifts_for_station queryTagHistory sid s past rows in
  _reconcile_late_shifts_for_station queryTagHistory sid r1.1 past rows'
  = (r1.1, rows').
Proof.
  unfold _reconcile_late_shifts_for_station; simpl.
  destruct (reconcile_loop queryTagHistory sid (tag s) past (past_shift_done_keys s) rows)
    as [done1 rows1] eqn:E1; simpl.
  rewrite reconcile_loop_all_done; [done|].
  intros w Hw.
  pose proof (reconcile_loop_marks sid (tag s) past
                (past_shift_done_keys s) rows w Hw) as Hm.
  by rewrite E1 in Hm.
Qed.
End LateReconcile.

Section Finalization.
Import OvercyclePublisher.

(** C7 (as stated, refuted): the tick at 14:10, after the shift has been
    reconciled up to its end, still publishes both leaderboards and
    upserts the final line snapshot. *)
Lemma second_tick_writes_again :
  second_tick <> [] /\
  exists totals times row,
    second_tick = [Publish "TopOvercycleTotals" totals;
                   Publish "TopOvercycleTimes" times;
                   UpsertSlotLineBatch row]
    /\ ls_is_final row = 1.
Proof.
  split; [vm_compute; discriminate|].
  vm_compute. do 3 eexists. split; reflexivity.
Qed.

(** C7 (amended): once the anchors of a just-ended shift reach the
    shift end, a tick within the grace window writes no further station
    rows for it, but it publishes the leaderboards and upserts the final
    line snapshot ([is_final = 1], as of the shift end) again on every
    tick; the overcycle engine keeps no set of finished shifts.  The
    rollup engine does: the first late-reconciliation pass of a station
    emits one closed row per ended window not yet marked, and a second
    pass over the same windows emits no row. *)
Theorem finalize_snapshot_every_tick_reconcile_once :
  (forall ct_segments query_ct_history has_ct_tag H lid sts wins now_ms v
          shid sday s_ms e_ms acc,
      _last_ended_shift_for_line wins now_ms (_FINAL_GRACE_MIN * 60 * 1000)
        = Some (shid, sday, s_ms, e_ms) ->
      shift_accum v = Some acc ->
      e_ms <= _line_last_asof v s_ms ->
      exists pubs row,
        finalize_prior_shift ct_segments query_ct_history has_ct_tag H
                             lid sts wins now_ms v
          = pubs ++ [UpsertSlotLineBatch row]
        /\ Forall is_publish pubs
        /\ (sts <> [] -> length pubs = 2%nat)
        /\ ls_is_final row = 1
        /\ ls_as_of_local row = e_ms) /\
  (forall queryTagHistory sid s past rows,
      NoDup (ProductionRollup.key_of <$> past) ->
      (forall w, w ∈ past ->
                 ProductionRollup.key_of w
                   ∉ ProductionRollup.past_shift_done_keys s) ->
      (ProductionRollup._reconcile_late_shifts_for_station
         queryTagHistory sid s past rows).2
      = rows ++ (ProductionRollup.reconciled_row queryTagHistory sid
                   (ProductionRollup.tag s) <$> past)) /\
  (forall queryTagHistory sid s past rows rows',
      let r1 := ProductionRollup._reconcile_late_shifts_for_station
                  queryTagHistory sid s past rows in
      ProductionRollup._reconcile_late_shifts_for_station
        queryTagHistory sid r1.1 past rows' = (r1.1, rows')).
Proof.
  split; [|split; [|intros; apply reconcile_twice]].
  - intros cs qh ht H lid sts wins now_ms v shid sday s_ms e_ms acc
           Hprev Hacc Hasof.
    unfold finalize_prior_shift. rewrite Hprev.
    unfold catch_up, final_snapshot.
    rewrite (proj2 (Z.ltb_ge _ _)) by lia. rewrite Hacc. simpl.
    eexists _, _. split; [reflexivity|].
    split; [destruct (_ || _); repeat constructor|].
    split; [|split; reflexivity].
    intros Hne. rewrite (bool_decide_eq_false_2 (sts = [])) by done.
    by rewrite orb_true_r.
  - intros q sid s past rows Hnd Hfresh.
    unfold ProductionRollup._reconcile_late_shifts_for_station.
    pose proof (reconcile_loop_fresh q sid (ProductionRollup.tag s) past
                  (ProductionRollup.past_shift_done_keys s) rows Hnd Hfresh)
      as Hrows.
    destruct (ProductionRollup.reconcile_loop q sid _ past _ rows)
      as [done1 rows1]. exact Hrows.
Qed.

Lemma finalize_snapshot_every_tick_reconcile_once_witness :
  exists pubs row,
    second_tick = pubs ++ [UpsertSlotLineBatch row]
    /\ Forall is_publish pubs
    /\ (scenario_sts <> [] -> length pubs = 2%nat)
    /\ ls_is_final row = 1
    /\ ls_as_of_local row = 50400000.
Proof.
  apply (proj1 finalize_snapshot_every_tick_reconcile_once
               (fun _ _ _ => []) (fun _ _ _ => None) (fun _ => true) ∅ 1
               scenario_sts scenario_wins 51000000 view_after_final
               1 "2025-06-22" 21600000 50400000
               [{| sid := 7; acc_sum_over := 20; sum_cnt := 2 |}]).
  - reflexivity.
  - reflexivity.
  - vm_compute. discriminate.
Defined.
End Finalization.

(** ** CT segment lookup *)

Section CtLookup.
Import OvercyclePublisher.

Lemma scan_forward_spec segs t i :
  (i < length segs)%nat ->
  (i <= scan_forward segs t i < length segs)%nat /\
  ((S (scan_forward segs t i) < length segs)%nat ->
     t < seg_start segs (S (scan_forward segs t i))) /\
  (forall k, (i < k <= scan_forward segs t i)%nat -> seg_start segs k <= t).
Proof.
  funelim (scan_forward segs t i); intros Hi.
  - repeat split; intros; lia.
  - destruct (H l) as (Hr & Hn & Hk).
    split; [lia|]. split; [exact Hn|].
    intros k Hk'. destruct (decide (k = S i)) as [->|]; [done|].
    apply Hk. lia.
  - repeat split; intros; lia.
Qed.

Lemma scan_backward_spec segs t i :
  (scan_backward segs t i <= i)%nat /\
  (scan_backward segs t i = O \/ seg_start segs (scan_backward segs t i) <= t) /\
  (forall k, (scan_backward segs t i < k <= i)%nat -> t < seg_start segs k).
Proof.
  induction i as [|j IH]; simpl.
  - split; [lia|]. split; [by left|]. intros; lia.
  - destruct (decide (seg_start segs (S j) > t)) as [Hgt|Hle].
    + destruct IH as (Hb & Hz & Hk).
      split; [lia|]. split; [done|].
      intros k Hk'. destruct (decide (k = S j)) as [->|]; [lia|].
      apply Hk. lia.
    + split; [lia|]. split; [right; lia|]. intros; lia.
Qed.

Lemma hint_index_lt segs h : segs <> [] -> (hint_index segs h < length segs)%nat.
Proof.
  intros Hne. unfold hint_index. case_bool_decide; [lia|].
  destruct segs; [done | simpl; lia].
Qed.

Lemma ct_index_spec segs t h :
  segs <> [] -> sorted_segments segs ->
  (ct_index t segs h < length segs)%nat /\
  (seg_start segs 0 <= t -> in_force segs t (ct_index t segs h)) /\
  (t < seg_start segs 0 -> ct_index t segs h = O).
Proof.
  intros Hne Hs. unfold ct_index.
  pose proof (hint_index_lt segs h Hne) as Hh.
  destruct (scan_forward_spec segs t _ Hh) as (Hf & Hfn & Hfk).
  set (f := scan_forward segs t (hint_index segs h)) in *.
  destruct (scan_backward_spec segs t f) as (Hb & Hbz & Hbk).
  set (b := scan_backward segs t f) in *.
  split; [lia|]. split.
  - intros H0. split; [lia|]. split.
    + destruct Hbz as [->|]; done.
    + intros k Hk. destruct (decide (k <= f)%nat).
      * apply Hbk. lia.
      * assert (t < seg_start segs (S f)) by (apply Hfn; lia).
        pose proof (Hs (S f) k). lia.
  - intros H0. destruct Hbz as [|Hle]; [done|].
    pose proof (Hs O b). lia.
Qed.

Lemma in_force_unique segs t n m :
  in_force segs t n -> in_force segs t m -> m = n.
Proof.
  intros (Hn & Hln & Hkn) (Hm & Hlm & Hkm).
  destruct (lt_eq_lt_dec m n) as [[Hlt|Heq]|Hgt]; [|done|].
  - specialize (Hkm n). lia.
  - specialize (Hkn m). lia.
Qed.

Lemma ct_at_index segs t h :
  segs <> [] ->
  exists sg, segs !! ct_index t segs h = Some sg /\
             _ct_at t segs h = (sg.1.2, sg.2, Z.of_nat (ct_index t segs h)).
Proof.
  intros Hne.
  assert (Hlt : (ct_index t segs h < length segs)%nat).
  { unfold ct_index.
    pose proof (hint_index_lt segs h Hne) as Hh.
    pose proof (scan_forward_spec segs t _ Hh) as (Hf & _).
    pose proof (scan_backward_spec segs t
                  (scan_forward segs t (hint_index segs h))) as (Hb & _).
    lia. }
  apply lookup_lt_is_Some_2 in Hlt as [sg Hsg].
  exists sg. split; [done|]. unfold _ct_at, segment in *. cbv zeta. rewrite Hsg.
  by destruct sg as [[st ct] mult].
Qed.

(** C8 (as stated, refuted): for a timestamp before the first segment's
    start the lookup still returns the first segment, whose start is
    not at or before the timestamp. *)
Lemma ct_at_before_first_segment :
  _ct_at 50 two_segments 0 = (30%Q, 2%Q, 0) /\
  ~ ct_lookup_rule two_segments 50 0.
Proof.
  split; [reflexivity|].
  intros (n & sg & Hct & Hsg & Hn & Hle & _).
  assert (E : _ct_at 50 two_segments 0 = (30%Q, 2%Q, 0)) by reflexivity.
  rewrite E in Hct. injection Hct as _ _ Hz.
  assert (n = O) as -> by lia.
  vm_compute in Hle. apply Hle. reflexivity.
Qed.

(** C8 (amended): for any sorted non-empty list of CT segments, any
    starting hint and any timestamp [t] at or after the first segment's
    start, the lookup returns the segment with the greatest start at or
    before [t]: segment [n] exactly when it has started and no later
    segment has.  For a [t] before the first start it returns the first
    segment. *)
Theorem ct_at_greatest_start_le (segs : list segment) (t h : Z) :
  segs <> [] -> sorted_segments segs ->
  exists n sg,
    _ct_at t segs h = (sg.1.2, sg.2, Z.of_nat n) /\ segs !! n = Some sg /\
    (seg_start segs 0 <= t ->
       in_force segs t n /\
       (forall m, in_force segs t m <-> m = n) /\
       (forall k, (k < length segs)%nat -> seg_start segs k <= t ->
                  seg_start segs k <= seg_start segs n)) /\
    (t < seg_start segs 0 -> n = O).
Proof.
  intros Hne Hs.
  destruct (ct_at_index segs t h Hne) as (sg & Hsg & Hct).
  destruct (ct_index_spec segs t h Hne Hs) as (Hlt & Hin & Hbefore).
  exists (ct_index t segs h), sg.
  split; [done|]. split; [done|]. split; [|done].
  intros H0. specialize (Hin H0). split; [done|]. split.
  - intros m. split.
    + intros Hm. by apply (in_force_unique segs t _ _ Hin Hm).
    + by intros ->.
  - intros k Hk Hle. destruct Hin as (_ & _ & Hlater).
    destruct (le_lt_dec k (ct_index t segs h)) as [Hkn|Hkn].
    + apply Hs. lia.
    + specialize (Hlater k). lia.
Qed.

Lemma ct_at_greatest_start_le_witness :
  exists n sg,
    _ct_at 250 two_segments 0 = (sg.1.2, sg.2, Z.of_nat n)
    /\ two_segments !! n = Some sg /\
    (seg_start two_segments 0 <= 250 ->
       in_force two_segments 250 n /\
       (forall m, in_force two_segments 250 m <-> m = n) /\
       (forall k, (k < length two_segments)%nat ->
                  seg_start two_segments k <= 250 ->
                  seg_start two_segments k <= seg_start two_segments n)) /\
    (250 < seg_start two_segments 0 -> n = O).
Proof.
  apply (ct_at_greatest_start_le two_segments 250 0).
  - discriminate.
  - intros i j Hij. simpl in Hij.
    destruct i as [|[|i]]; destruct j as [|[|j]]; vm_compute; try lia;
      discriminate.
Defined.
End CtLookup.

(** ** Overcycle classification and the cumulative anchor rows *)

Section Overcycle.
Import OvercyclePublisher.

Lemma Qleb_true a b : Num.Qleb a b = true <-> (a <= b)%Q.
Proof. apply Qle_bool_iff. Qed.

Lemma Qleb_false a b : Num.Qleb a b = false <-> (b < a)%Q.
Proof.
  unfold Num.Qleb. rewrite <- not_true_iff_false, Qle_bool_iff.
  split; [apply Qnot_le_lt | apply Qlt_not_le].
Qed.

Lemma round_half_away_nonneg x :
  (0 <= x)%Q -> Num.round_half_away x = Qfloor (x + (1 # 2)).
Proof.
  intros Hx. unfold Num.round_half_away.
  by rewrite (proj2 (Qle_bool_iff 0 x) Hx).
Qed.

Lemma round3_mono x y :
  (0 <= x)%Q -> (x <= y)%Q -> (Num.round3 x <= Num.round3 y)%Q.
Proof.
  intros Hx Hxy. unfold Num.round3.
  rewrite !round_half_away_nonneg by lra.
  assert (Hf : Qfloor (x * 1000 + (1 # 2)) <= Qfloor (y * 1000 + (1 # 2))).
  { apply Qfloor_resp_le. lra. }
  rewrite Zle_Qle in Hf. unfold Qdiv.
  apply Qmult_le_compat_r; [done | by vm_compute].
Qed.

Lemma round3_zero x : (x == 0)%Q -> (Num.round3 x == 0)%Q.
Proof.
  intros Hx. unfold Num.round3.
  rewrite round_half_away_nonneg by lra.
  assert (H1 : Qfloor (x * 1000 + (1 # 2)) <= Qfloor (1 # 2)).
  { apply Qfloor_resp_le. lra. }
  assert (H2 : Qfloor (1 # 2) <= Qfloor (x * 1000 + (1 # 2))).
  { apply Qfloor_resp_le. lra. }
  change (Qfloor (1 # 2)) with 0 in *.
  assert (E : Qfloor (x * 1000 + (1 # 2)) = 0) by lia.
  rewrite E. reflexivity.
Qed.

Lemma round3_nonneg x : (0 <= x)%Q -> (0 <= Num.round3 x)%Q.
Proof.
  intros Hx. rewrite <- (round3_zero 0) by reflexivity.
  apply round3_mono; lra.
Qed.

Lemma oc_step_cases segs a ts act ct mult i :
  _ct_at ts segs (idx a) = (ct, mult, i) ->
  (0 < ct)%Q ->
  ((ct < act)%Q /\ (act <= ct * mult)%Q ->
     oc_step segs a (ts, Some act)
     = {| cnt := cnt a + 1;
          mx := if Num.Qltb (mx a) (act - ct) then (act - ct)%Q else mx a;
          sum_over := (sum_over a + (act - ct))%Q;
          idx := i |}) /\
  (~ ((ct < act)%Q /\ (act <= ct * mult)%Q) ->
     oc_step segs a (ts, Some act)
     = {| cnt := cnt a; mx := mx a; sum_over := sum_over a; idx := i |}).
Proof.
  intros Hct Hpos. unfold oc_step; simpl. rewrite Hct.
  rewrite (proj2 (Qleb_false ct 0)) by done.
  change (Num.Qltb 0 EPSILON) with false. simpl.
  split.
  - intros [Hlo Hhi].
    rewrite (proj2 (Qleb_false act ct)) by done.
    by rewrite (proj2 (Qltb_false (ct * mult) act)).
  - intros Hn.
    destruct (Num.Qleb act ct) eqn:E1; [done|].
    destruct (Num.Qltb (ct * mult) act) eqn:E2; [done|].
    apply Qleb_false in E1. apply Qltb_false in E2. tauto.
Qed.

Lemma oc_step_inv segs a row : oc_inv a -> oc_inv (oc_step segs a row).
Proof.
  intros (Hc & Hm & Hms & Hz). destruct row as [ts [act|]]; [|done].
  unfold oc_step; simpl.
  destruct (_ct_at ts segs (idx a)) as [[ct mult] i].
  destruct (Num.Qleb ct 0); [done|].
  destruct (Num.Qleb act ct) eqn:E1; [done|].
  destruct (Num.Qltb (ct * mult) act); [done|].
  apply Qleb_false in E1.
  unfold oc_inv; simpl.
  split; [lia|].
  destruct (Num.Qltb (mx a) (act - ct)) eqn:E2.
  - split; [lra|]. split; [lra|]. intros; lia.
  - apply Qltb_false in E2. split; [lra|]. split; [lra|]. intros; lia.
Qed.

Lemma scan_history_inv segs ds : oc_inv (scan_history segs ds).
Proof.
  assert (H0 : oc_inv oc_init).
  { unfold oc_inv, oc_init; simpl. repeat split; (lia || lra). }
  unfold scan_history. destruct segs as [|sg segs]; [done|].
  destruct ds as [rows|]; [|done].
  generalize dependent oc_init. induction rows as [|r rows IH]; intros a Ha; simpl.
  - done.
  - apply IH. by apply oc_step_inv.
Qed.

(** C3: with the applicable segment [(ct, mult)], [ct > 0], a sample
    [act] counts as an overcycle event, contributing [act - ct], if and
    only if [ct < act <= ct * mult]; otherwise the counters stay as they
    are.  For the segment (30, 2.0) the samples 29, 35, 61, 45 give
    [cnt = 2], [sum_over = 20], [max_over = 15]. *)
Theorem overcycle_classification
        (segs : list segment) (a : oc_acc) (ts : Z) (act ct mult : Q)
        (i : Z) :
  _ct_at ts segs (idx a) = (ct, mult, i) ->
  (0 < ct)%Q ->
  let a' := oc_step segs a (ts, Some act) in
  (cnt a' = cnt a + 1 <-> (ct < act)%Q /\ (act <= ct * mult)%Q) /\
  ((ct < act)%Q /\ (act <= ct * mult)%Q ->
     sum_over a' = (sum_over a + (act - ct))%Q /\
     mx a' = if Num.Qltb (mx a) (act - ct) then (act - ct)%Q else mx a) /\
  (~ ((ct < act)%Q /\ (act <= ct * mult)%Q) ->
     cnt a' = cnt a /\ sum_over a' = sum_over a /\ mx a' = mx a) /\
  (let r := scan_history spec_segment (Some spec_samples) in
   cnt r = 2 /\ (sum_over r == 20)%Q /\ (mx r == 15)%Q).
Proof.
  intros Hct Hpos a'.
  destruct (oc_step_cases segs a ts act ct mult i Hct Hpos) as [Hyes Hno].
  split; [|split; [|split]].
  - split.
    + intros Hcnt.
      destruct (Qlt_le_dec ct act) as [Hlo|Hlo];
        [destruct (Qlt_le_dec (ct * mult) act) as [Hhi|Hhi]|]; [|done|].
      * subst a'. rewrite Hno in Hcnt by lra. simpl in Hcnt. lia.
      * subst a'. rewrite Hno in Hcnt by lra. simpl in Hcnt. lia.
    + intros Hoc. subst a'. by rewrite (Hyes Hoc).
  - intros Hoc. subst a'. by rewrite (Hyes Hoc).
  - intros Hn. subst a'. by rewrite (Hno Hn).
  - vm_compute. repeat split.
Qed.

Lemma overcycle_classification_witness :
  let a' := oc_step spec_segment oc_init (2, Some 35%Q) in
  (cnt a' = cnt oc_init + 1 <-> (30 < 35)%Q /\ (35 <= 30 * 2)%Q).
Proof.
  apply (overcycle_classification spec_segment oc_init 2 35 30 2 0).
  - reflexivity.
  - reflexivity.
Defined.

(** C10: every cumulative anchor row of the delta computation has a
    non-negative count, a non-negative summed overage and a non-negative
    largest overage that does not exceed the sum; a row without any
    counted event (a seeded zero row) carries 0 in all three. *)
Theorem anchor_rows_nonneg
        (ct_segments : Z -> Z -> Z -> list segment)
        (query_ct_history : Z -> Z -> Z -> option (list hist_row))
        (has_ct_tag : Z -> bool)
        (sts : list station) (shid : Z) (sdate : string)
        (shift_start a b shift_end : Z) (include_zero_for : gset Z)
        (r : anchor_row) :
  In r (_compute_deltas_for_line ct_segments query_ct_history has_ct_tag
          sts shid sdate shift_start a b shift_end include_zero_for) ->
  0 <= inc_over_cnt r /\
  (0 <= inc_over_sec r)%Q /\
  (0 <= inc_max_over_sec r)%Q /\
  (inc_max_over_sec r <= inc_over_sec r)%Q /\
  (inc_over_cnt r = 0 ->
     (inc_over_sec r == 0)%Q /\ (inc_max_over_sec r == 0)%Q).
Proof.
  unfold _compute_deltas_for_line. rewrite in_flat_map.
  intros (st & _ & Hr). unfold station_delta in Hr.
  pose proof (scan_history_inv (ct_segments (station_id st) a b)
                (query_ct_history (station_id st) a b))
    as (Hc & Hm & Hms & Hz).
  destruct (_ || _); [|done].
  destruct Hr as [<-|[]]; simpl.
  split; [done|]. split; [apply round3_nonneg; lra|].
  split; [by apply round3_nonneg|]. split; [by apply round3_mono|].
  intros H0. destruct (Hz H0). split; by apply round3_zero.
Qed.


Lemma anchor_rows_nonneg_witness :
  exists r,
    In r (_compute_deltas_for_line
            (fun _ _ _ => spec_segment) (fun _ _ _ => Some spec_samples)
            (fun _ => true) scenario_sts 1 "2025-06-22" 0 0 900000 28800000 ∅)
    /\ 0 <= inc_over_cnt r /\ (inc_max_over_sec r <= inc_over_sec r)%Q.
Proof.
  eexists. split; [left; reflexivity|].
  refine (let H := anchor_rows_nonneg
                     (fun _ _ _ => spec_segment)
                     (fun _ _ _ => Some spec_samples)
                     (fun _ => true) scenario_sts 1 "2025-06-22"
                     0 0 900000 28800000 ∅ _ (or_introl eq_refl) in _).
  split; [exact (proj1 H) | exact (proj1 (proj2 (proj2 (proj2 H))))].
Defined.
End Overcycle.

(** ** Effective cycle time *)

Section EffectiveCT.
Import ProductionTargetsLive.

Lemma filter_positive_all (cts : list Q) :
  Forall (fun c => (0 < c)%Q) cts ->
  filter (fun ct => Num.Qltb 0 ct = true) cts = cts.
Proof.
  induction 1 as [|c l Hc Hl IH]; [done|].
  rewrite filter_cons_True by (by apply Qltb_true). by rewrite IH.
Qed.

Lemma Qmax_cases a b :
  (Num.Qmax a b = a /\ (b <= a)%Q) \/ (Num.Qmax a b = b /\ (a <= b)%Q).
Proof.
  unfold Num.Qmax. destruct (Qle_bool a b) eqn:E.
  - right. split; [done|]. by apply Qle_bool_iff.
  - left. split; [done|].
    assert (~ (a <= b)%Q) by (rewrite <- Qle_bool_iff; congruence). lra.
Qed.

Lemma Qmin_cases a b :
  (Num.Qmin a b = a /\ (a <= b)%Q) \/ (Num.Qmin a b = b /\ (b <= a)%Q).
Proof.
  unfold Num.Qmin. destruct (Qle_bool a b) eqn:E.
  - left. split; [done|]. by apply Qle_bool_iff.
  - right. split; [done|].
    assert (~ (a <= b)%Q) by (rewrite <- Qle_bool_iff; congruence). lra.
Qed.

Lemma Qmaximum_spec c l :
  In (Qmaximum c l) (c :: l) /\
  forall x, In x (c :: l) -> (x <= Qmaximum c l)%Q.
Proof.
  unfold Qmaximum. revert c; induction l as [|y l IH]; intros c; simpl.
  - split; [by left|]. intros x [->|[]]. lra.
  - destruct (IH (Num.Qmax c y)) as [Hin Hub]. split.
    + destruct Hin as [Hin|Hin]; [|by right; right].
      rewrite <- Hin. destruct (Qmax_cases c y) as [[-> _]|[-> _]]; auto.
    + intros x Hx.
      assert (Hm : (Num.Qmax c y <= foldl Num.Qmax (Num.Qmax c y) l)%Q)
        by (apply Hub; by left).
      destruct Hx as [<-|[<-|Hx]].
      * destruct (Qmax_cases c y) as [[E ?]|[E ?]]; rewrite E in *; lra.
      * destruct (Qmax_cases c y) as [[E ?]|[E ?]]; rewrite E in *; lra.
      * apply Hub. by right.
Qed.

Lemma clamp01_range x : (0 <= clamp01 x)%Q /\ (clamp01 x <= 1)%Q.
Proof.
  unfold clamp01.
  destruct (Qmin_cases 1 x) as [[-> ?]|[-> ?]];
    destruct (Qmax_cases 0 1) as [[E1 ?]|[E1 ?]];
    destruct (Qmax_cases 0 x) as [[E2 ?]|[E2 ?]];
    rewrite ?E1, ?E2; split; lra.
Qed.

Lemma clamp01_id x : (0 <= x)%Q -> (x <= 1)%Q -> (clamp01 x == x)%Q.
Proof.
  intros H0 H1. unfold clamp01.
  destruct (Qmin_cases 1 x) as [[-> ?]|[-> ?]];
    [destruct (Qmax_cases 0 1) as [[-> ?]|[-> ?]]
    |destruct (Qmax_cases 0 x) as [[-> ?]|[-> ?]]]; lra.
Qed.

(** Entries that are not positive do not count: the list [30, 0] has one
    cycle time. *)
Lemma ct_eff_ignores_nonpositive (cts : list Q) (fixtures : Z) (pf : option Q) :
  _ct_eff_from_cts cts fixtures pf
  = _ct_eff_from_cts (filter (fun ct => Num.Qltb 0 ct = true) cts) fixtures pf
  /\ _ct_eff_from_cts [30%Q; 0%Q] 2 (Some (1 # 2)) = 30%Q.
Proof.
  split; [|reflexivity].
  unfold _ct_eff_from_cts. by rewrite list_filter_filter_l.
Qed.

Lemma filter_positive_Qlt (cts : list Q) :
  filter (fun ct => Num.Qltb 0 ct = true) cts
  = filter (fun c => (0 < c)%Q) cts.
Proof.
  induction cts as [|c l IH]; [done|].
  rewrite !filter_cons, IH.
  destruct (decide (Num.Qltb 0 c = true)) as [E|E];
    destruct (decide (0 < c)%Q) as [E'|E']; try done.
  - by apply Qltb_true in E.
  - by apply Qltb_true in E'.
Qed.

Lemma clamp01_cases (pf : Q) :
  ((pf <= 0)%Q -> (clamp01 pf == 0)%Q) /\
  ((0 <= pf)%Q -> (pf <= 1)%Q -> (clamp01 pf == pf)%Q) /\
  ((1 <= pf)%Q -> (clamp01 pf == 1)%Q).
Proof.
  unfold clamp01.
  destruct (Qmin_cases 1 pf) as [[-> ?]|[-> ?]];
    [destruct (Qmax_cases 0 1) as [[-> ?]|[-> ?]]
    |destruct (Qmax_cases 0 pf) as [[-> ?]|[-> ?]]];
    repeat split; intros; lra.
Qed.

Lemma Qsum_foldr (l : list Q) : Qsum l = foldr Qplus 0%Q l.
Proof. reflexivity. Qed.

(** C4: let [c_1 .. c_k] be the positive entries of the list of
    per-fixture cycle times and let the parallelism factor, clamped to
    [0, 1], be [lam] (0 for a factor below 0, 1 for a factor above 1,
    the factor itself in between).  The effective CT is 0.0 for
    [k = 0], the single value for [k = 1], and
    [(1 - lam) * (c_1 + .. + c_k) / k + lam * (max c / k)] for [k >= 2];
    for the CTs 30 and 50 with factor 0.5 it is 32.5. *)
Theorem ct_eff_blend (cts : list Q) (fixtures : Z) (pf : Q) :
  let pos := filter (fun c => (0 < c)%Q) cts in
  let r := _ct_eff_from_cts cts fixtures (Some pf) in
  let k := inject_Z (Z.of_nat (length pos)) in
  (pos = [] -> r = 0%Q) /\
  (forall c, pos = [c] -> r = c) /\
  ((2 <= length pos)%nat ->
     exists m lam,
       In m pos /\ (forall c, In c pos -> (c <= m)%Q) /\
       ((pf <= 0)%Q -> (lam == 0)%Q) /\
       ((0 <= pf)%Q -> (pf <= 1)%Q -> (lam == pf)%Q) /\
       ((1 <= pf)%Q -> (lam == 1)%Q) /\
       (r == (1 - lam) * (foldr Qplus 0 pos / k) + lam * (m / k))%Q) /\
  (_ct_eff_from_cts [30; 50] 2 (Some (1 # 2)) == 65 # 2)%Q.
Proof.
  cbv zeta. unfold _ct_eff_from_cts. cbv zeta.
  rewrite filter_positive_Qlt.
  split; [by intros ->|]. split; [by intros c ->|].
  split; [|by vm_compute].
  intros Hlen.
  destruct (filter (fun c => (0 < c)%Q) cts) as [|c [|c2 rest]];
    simpl in Hlen; [lia | lia |].
  destruct (Qmaximum_spec c (c2 :: rest)) as [Hin Hub].
  destruct (clamp01_cases pf) as (L0 & L1 & L2).
  exists (Qmaximum c (c2 :: rest)), (clamp01 pf).
  split; [done|]. split; [done|]. split; [done|]. split; [done|].
  split; [done|]. rewrite Qsum_foldr. reflexivity.
Qed.

Lemma ct_eff_blend_witness :
  exists m lam,
    In m [30%Q; 50%Q] /\ (forall c, In c [30%Q; 50%Q] -> (c <= m)%Q) /\
    (lam == 1 # 2)%Q /\
    (_ct_eff_from_cts [30; 50] 2 (Some (1 # 2))
     == (1 - lam) * (foldr Qplus 0 [30%Q; 50%Q] / inject_Z 2)
        + lam * (m / inject_Z 2))%Q.
Proof.
  destruct (proj1 (proj2 (proj2 (ct_eff_blend [30%Q; 50%Q] 2 (1 # 2))))
                  ltac:(simpl; lia))
    as (m & lam & Hin & Hub & _ & Hlam & _ & Hr).
  exists m, lam. split; [exact Hin|]. split; [exact Hub|].
  split; [apply Hlam; discriminate|]. exact Hr.
Defined.
End EffectiveCT.

(** ** Debounce of cycle-time changes *)

Section Debounce.
Import ProductionTargetsLive.

(** C6 (as stated, refuted): with the default threshold the tick that
    first sees part B instead of part A already switches the effective
    CT from 30 to 50. *)
Lemma debounce_not_waiting :
  ct_eff (debounce_step state_A obs_B) = 50%Q /\
  ~ debounce_waits state_A obs_B.
Proof.
  split; [reflexivity|].
  intros Hw. specialize (Hw ltac:(discriminate) eq_refl).
  vm_compute in Hw. discriminate.
Qed.

Lemma ticks_with_S D o k s :
  ticks_with D o (S k) s = debounce_step_with D (ticks_with D o k s) o.
Proof. reflexivity. Qed.

Lemma debounce_counts D o s k :
  1 <= D ->
  Some (parts_key o) <> last_parts_key s ->
  is_missing_cfg o = false ->
  parts_used o <> [] ->
  let new_ct := _ct_eff_from_cts (ct_list o) (fps o) (Some (lam o)) in
  let sk := ticks_with D o (S k) s in
  last_parts_key sk = Some (parts_key o) /\
  stable_ticks sk = Z.min D (Z.of_nat (S k)) /\
  ct_eff sk = if Z.of_nat (S k) <? D then ct_eff s else new_ct.
Proof.
  intros HD Hchg Hcfg Hne new_ct.
  induction k as [|k IH].
  - cbn zeta. unfold ticks_with; simpl. unfold debounce_step_with.
    rewrite bool_decide_eq_false_2 by done. rewrite Hcfg. simpl.
    split; [done|]. split; [lia|].
    destruct (parts_used o) as [|p ps]; [done|].
    change (Z.of_nat 1) with 1.
    destruct (Z.ltb_spec 1 D); destruct (Z.geb_spec 1 D); try lia; done.
  - destruct IH as (Hk & Hs & Hc). cbn zeta.
    rewrite ticks_with_S.
    set (sk := ticks_with D o (S k) s) in *.
    unfold debounce_step_with.
    rewrite bool_decide_eq_true_2 by done. rewrite Hcfg, Hs, Hc. simpl.
    split; [done|]. split; [lia|].
    destruct (parts_used o) as [|p ps]; [done|].
    destruct (Z.ltb_spec (Z.of_nat (S (S k))) D);
      destruct (Z.ltb_spec (Z.of_nat (S k)) D);
      destruct (Z.geb_spec (Z.min D (Z.min D (Z.of_nat (S k)) + 1)) D);
      try lia; done.
Qed.

(** C6 (amended): with the default [DEBOUNCE_TICKS = 1] a changed,
    configured parts set takes effect on the effective CT on the very
    tick that first observes it (in general on the [D]-th consecutive
    tick observing it, for a threshold [D >= 1]); a
    missing-configuration parts set bypasses the count and takes effect
    at once, with effective CT 0. *)
Theorem debounce_default_takes_effect_at_once (s : ct_state) (o : parts_obs) :
  Some (parts_key o) <> last_parts_key s ->
  let new_ct := _ct_eff_from_cts (ct_list o) (fps o) (Some (lam o)) in
  (is_missing_cfg o = false -> parts_used o <> [] ->
     ct_eff (debounce_step s o) = new_ct /\
     forall D k, 1 <= D ->
       ct_eff (ticks_with D o (S k) s)
       = if Z.of_nat (S k) <? D then ct_eff s else new_ct) /\
  (is_missing_cfg o = true ->
     ct_eff (debounce_step s o) = 0%Q /\
     stable_ticks (debounce_step s o) = DEBOUNCE_TICKS).
Proof.
  intros Hchg new_ct. split.
  - intros Hcfg Hne. split.
    + pose proof (debounce_counts DEBOUNCE_TICKS o s 0 ltac:(done) Hchg Hcfg Hne)
        as (_ & _ & Hc).
      exact Hc.
    + intros D k HD.
      by pose proof (debounce_counts D o s k HD Hchg Hcfg Hne) as (_ & _ & Hc).
  - intros Hcfg. unfold debounce_step, debounce_step_with.
    rewrite bool_decide_eq_false_2 by done. by rewrite Hcfg.
Qed.

Lemma debounce_default_takes_effect_at_once_witness :
  ct_eff (debounce_step state_A obs_B)
  = _ct_eff_from_cts (ct_list obs_B) (fps obs_B) (Some (lam obs_B)).
Proof.
  refine (proj1 (proj1 (debounce_default_takes_effect_at_once
                          state_A obs_B _) eq_refl _)).
  - discriminate.
  - discriminate.
Defined.
End Debounce.

(** ** Leaderboards *)

Section Leaderboards.
Import OvercyclePublisher.

Section StableSort.
Context {A : Type} (ltb : A -> A -> bool).
Hypothesis ltb_asym : forall x y, ltb x y = true -> ltb y x = false.
Hypothesis ltb_negtrans :
  forall x y z, ltb x y = true -> ltb x z = true \/ ltb z y = true.







End StableSort.

Section RankedTies.
Context {A : Type} (ltb : A -> A -> bool) (rank : A -> Z).
Hypothesis ltb_asym : forall x y, ltb x y = true -> ltb y x = false.
Hypothesis ltb_negtrans :
  forall x y z, ltb x y = true -> ltb x z = true \/ ltb z y = true.




End RankedTies.













End Leaderboards.


(** ** Rounding to binary64 *)

Section DoubleRounding.
Import Double.

Lemma pow2_pos e : (0 < pow2 e)%Q.
Proof. unfold pow2. by apply Qpower_0_lt. Qed.

Lemma pow2_plus a b : (pow2 (a + b) == pow2 a * pow2 b)%Q.
Proof. unfold pow2. by apply Qpower_plus. Qed.

Lemma pow2_le a b : a <= b -> (pow2 a <= pow2 b)%Q.
Proof. intros H. unfold pow2. by apply Qpower_le_compat_l. Qed.

Lemma pow2_lt_inv a b : (pow2 a < pow2 b)%Q -> a < b.
Proof. intros H. unfold pow2 in H. by apply Qpower_lt_compat_l_inv in H. Qed.

Lemma pow2_Z e : 0 <= e -> (pow2 e == inject_Z (2 ^ e))%Q.
Proof. intros H. unfold pow2. by rewrite (Zpower_Qpower 2 e H). Qed.

Lemma pow2_opp e : (pow2 (- e) == / pow2 e)%Q.
Proof. unfold pow2. apply Qpower_opp. Qed.

Lemma pow2_cancel e : (pow2 (- e) * pow2 e == 1)%Q.
Proof.
  rewrite <- pow2_plus. replace (- e + e) with 0 by lia. reflexivity.
Qed.

Lemma ilog2_spec x :
  (0 < x)%Q -> (pow2 (ilog2 x) <= x)%Q /\ (x < pow2 (ilog2 x + 1))%Q.
Proof.
  intros Hx. unfold ilog2. destruct (Qle_bool 1 x) eqn:E.
  - apply Qle_bool_iff in E.
    assert (Hf : 0 < Qfloor x).
    { apply Z.lt_le_trans with 1; [lia|]. change 1 with (Qfloor 1).
      by apply Qfloor_resp_le. }
    destruct (Z.log2_spec (Qfloor x) Hf) as [H1 H2].
    pose proof (Z.log2_nonneg (Qfloor x)) as Hn.
    pose proof (Qfloor_le x) as Hfl. pose proof (Qlt_floor x) as Hfu.
    rewrite !pow2_Z by lia. split.
    + eapply Qle_trans; [|exact Hfl]. by rewrite <- Zle_Qle.
    + eapply Qlt_le_trans; [exact Hfu|]. rewrite <- Zle_Qle.
      unfold Z.succ in H2. lia.
  - assert (Hx1 : (x < 1)%Q).
    { apply Qnot_le_lt. rewrite <- Qle_bool_iff. congruence. }
    set (y := (/ x)%Q).
    assert (Hy0 : (0 < y)%Q) by (by apply Qinv_lt_0_compat).
    assert (Hxy : (x * y == 1)%Q) by (unfold y; field; lra).
    pose proof (Qle_ceiling y) as Hcu. pose proof (Qceiling_lt y) as Hcl.
    set (c := Qceiling y) in *.
    assert (Hy1 : (1 < y)%Q) by nra.
    assert (Hc : 1 < c).
    { rewrite Zlt_Qlt. change (inject_Z 1) with 1%Q. lra. }
    destruct (Z.log2_up_spec c Hc) as [H1 H2].
    pose proof (Z.log2_up_pos c Hc) as Hj.
    set (j := Z.log2_up c) in *.
    split.
    + rewrite pow2_opp, pow2_Z by lia.
      apply Qle_shift_inv_r.
      * change 0%Q with (inject_Z 0). rewrite <- Zlt_Qlt. lia.
      * assert (Hcj : (inject_Z c <= inject_Z (2 ^ j))%Q) by (by rewrite <- Zle_Qle).
        nra.
    + replace (- j + 1) with (- (j - 1)) by lia.
      rewrite pow2_opp, pow2_Z by lia.
      apply Qlt_shift_inv_l.
      * change 0%Q with (inject_Z 0). rewrite <- Zlt_Qlt.
        apply Z.pow_pos_nonneg; lia.
      * assert (Hcj : (inject_Z (2 ^ (j - 1)) <= inject_Z (c - 1))%Q).
        { rewrite <- Zle_Qle. unfold Z.pred in H1.
          replace (j + -1) with (j - 1) in H1 by lia. lia. }
        nra.
Qed.

Lemma ilog2_mono x y : (0 < x)%Q -> (x <= y)%Q -> ilog2 x <= ilog2 y.
Proof.
  intros Hx Hxy.
  destruct (ilog2_spec x Hx) as [Hlx _].
  destruct (ilog2_spec y ltac:(lra)) as [_ Huy].
  assert (H : (pow2 (ilog2 x) < pow2 (ilog2 y + 1))%Q) by lra.
  apply pow2_lt_inv in H. lia.
Qed.

Lemma rne_range q : Qfloor q <= rne q <= Qfloor q + 1.
Proof.
  unfold rne. cbv zeta.
  destruct (Num.Qltb _ _); [lia|].
  destruct (Num.Qltb _ _); [lia|].
  destruct (Z.even _); lia.
Qed.

Lemma rne_mono p q : (p <= q)%Q -> rne p <= rne q.
Proof.
  intros Hpq. pose proof (Qfloor_resp_le p q Hpq) as Hf.
  pose proof (rne_range p) as Hp. pose proof (rne_range q) as Hq.
  destruct (Z.eq_dec (Qfloor p) (Qfloor q)) as [E|E]; [|lia].
  destruct (Num.Qltb (p - inject_Z (Qfloor p)) (1 # 2)) eqn:P1.
  - assert (rne p = Qfloor p) as ->; [|lia].
    unfold rne. cbv zeta. by rewrite P1.
  - unfold rne. cbv zeta. rewrite <- E, P1.
    apply Qltb_false in P1.
    rewrite (proj2 (Qltb_false (q - inject_Z (Qfloor p)) (1 # 2))) by lra.
    destruct (Num.Qltb (1 # 2) (p - inject_Z (Qfloor p))) eqn:P2.
    + apply Qltb_true in P2.
      rewrite (proj2 (Qltb_true (1 # 2) (q - inject_Z (Qfloor p)))) by lra. lia.
    + destruct (Num.Qltb (1 # 2) (q - inject_Z (Qfloor p)));
        destruct (Z.even (Qfloor p)); lia.
Qed.

Lemma rne_Z n : rne (inject_Z n) = n.
Proof.
  unfold rne. cbv zeta. rewrite Qfloor_Z.
  rewrite (proj2 (Qltb_true (inject_Z n - inject_Z n) (1 # 2))) by lra. done.
Qed.

Lemma rne_Qeq p n : (p == inject_Z n)%Q -> rne p = n.
Proof.
  intros H. apply Z.le_antisymm.
  - transitivity (rne (inject_Z n)); [apply rne_mono; lra|by rewrite rne_Z].
  - transitivity (rne (inject_Z n)); [by rewrite rne_Z|apply rne_mono; lra].
Qed.

Lemma round_pos_nonneg x : (0 < x)%Q -> (0 <= round_pos x)%Q.
Proof.
  intros Hx. unfold round_pos. cbv zeta.
  set (e := Z.max (ilog2 x - 52) (-1074)).
  pose proof (pow2_pos e) as Hp.
  apply Qmult_le_0_compat; [|lra].
  change 0%Q with (inject_Z 0). rewrite <- Zle_Qle.
  rewrite <- (rne_Z 0). apply rne_mono.
  apply Qle_shift_div_l; [done|]. rewrite Qmult_0_l. lra.
Qed.

Lemma round_pos_mono x y :
  (0 < x)%Q -> (x <= y)%Q -> (round_pos x <= round_pos y)%Q.
Proof.
  intros Hx Hxy. assert (Hy : (0 < y)%Q) by lra.
  pose proof (ilog2_mono x y Hx Hxy) as HL.
  destruct (ilog2_spec x Hx) as [_ Hux].
  destruct (ilog2_spec y Hy) as [Hly _].
  unfold round_pos. cbv zeta.
  set (ex := Z.max (ilog2 x - 52) (-1074)).
  set (ey := Z.max (ilog2 y - 52) (-1074)).
  pose proof (pow2_pos ex) as Hpx. pose proof (pow2_pos ey) as Hpy.
  destruct (Z.eq_dec ex ey) as [E|E].
  - rewrite <- E. apply Qmult_le_compat_r; [|lra].
    rewrite <- Zle_Qle. apply rne_mono.
    unfold Qdiv. apply Qmult_le_compat_r; [done|].
    apply Qinv_le_0_compat. lra.
  - assert (Hlt : ex < ey) by lia.
    assert (Hey : ey = ilog2 y - 52) by lia.
    (* the scaled [x] stays below [2^53] *)
    assert (Hqx : rne (x / pow2 ex) <= 2 ^ 53).
    { transitivity (rne (inject_Z (2 ^ 53))); [|by rewrite rne_Z].
      apply rne_mono.
      apply Qle_shift_div_r; [done|].
      rewrite <- (pow2_Z 53) by lia. rewrite <- pow2_plus.
      eapply Qle_trans; [apply Qlt_le_weak, Hux|]. apply pow2_le. lia. }
    (* the scaled [y] is at least [2^52] *)
    assert (Hqy : 2 ^ 52 <= rne (y / pow2 ey)).
    { transitivity (rne (inject_Z (2 ^ 52))); [by rewrite rne_Z|].
      apply rne_mono.
      apply Qle_shift_div_l; [done|].
      rewrite <- (pow2_Z 52) by lia. rewrite <- pow2_plus.
      eapply Qle_trans; [|exact Hly]. apply pow2_le. lia. }
    apply Qle_trans with (inject_Z (2 ^ 53) * pow2 ex)%Q.
    { apply Qmult_le_compat_r; [by rewrite <- Zle_Qle|lra]. }
    apply Qle_trans with (inject_Z (2 ^ 52) * pow2 ey)%Q.
    { rewrite <- (pow2_Z 53), <- (pow2_Z 52) by lia.
      rewrite <- !pow2_plus. apply pow2_le. lia. }
    apply Qmult_le_compat_r; [by rewrite <- Zle_Qle|lra].
Qed.

Lemma round_nearest_mono x y :
  (x <= y)%Q -> (round_nearest x <= round_nearest y)%Q.
Proof.
  intros Hxy. unfold round_nearest.
  destruct (Num.Qltb 0 x) eqn:X1.
  - apply Qltb_true in X1.
    rewrite (proj2 (Qltb_true 0 y)) by lra. by apply round_pos_mono.
  - apply Qltb_false in X1.
    destruct (Num.Qltb x 0) eqn:X2.
    + apply Qltb_true in X2.
      pose proof (round_pos_nonneg (- x) ltac:(lra)) as Hnx.
      destruct (Num.Qltb 0 y) eqn:Y1.
      * apply Qltb_true in Y1. pose proof (round_pos_nonneg y Y1). lra.
      * apply Qltb_false in Y1. destruct (Num.Qltb y 0) eqn:Y2.
        -- apply Qltb_true in Y2.
           pose proof (round_pos_mono (- y) (- x) ltac:(lra) ltac:(lra)). lra.
        -- lra.
    + apply Qltb_false in X2.
      destruct (Num.Qltb 0 y) eqn:Y1.
      * apply Qltb_true in Y1. by apply round_pos_nonneg.
      * apply Qltb_false in Y1.
        rewrite (proj2 (Qltb_false y 0)) by lra. lra.
Qed.

Lemma round_nearest_Qeq x y :
  (x == y)%Q -> (round_nearest x == round_nearest y)%Q.
Proof.
  intros H. apply Qle_antisym; apply round_nearest_mono; lra.
Qed.

Lemma round_pos_Z n :
  1 <= n <= 2 ^ 53 -> (round_pos (inject_Z n) == inject_Z n)%Q.
Proof.
  intros Hn. unfold round_pos. cbv zeta.
  assert (HL : ilog2 (inject_Z n) = Z.log2 n).
  { unfold ilog2. rewrite (proj2 (Qle_bool_iff 1 (inject_Z n))).
    - by rewrite Qfloor_Z.
    - change 1%Q with (inject_Z 1). rewrite <- Zle_Qle. lia. }
  rewrite HL.
  destruct (Z.log2_spec n ltac:(lia)) as [H1 H2].
  pose proof (Z.log2_nonneg n) as H0.
  assert (H53 : Z.log2 n <= 53).
  { rewrite <- (Z.log2_pow2 53) by lia. apply Z.log2_le_mono. lia. }
  rewrite Z.max_l by lia.
  destruct (Z.eq_dec (Z.log2 n) 53) as [E|E].
  - rewrite E in *. assert (n = 2 ^ 53) as -> by lia.
    vm_compute. reflexivity.
  - set (k := 52 - Z.log2 n).
    assert (Hk : 0 <= k) by lia.
    replace (Z.log2 n - 52) with (- k) by lia.
    pose proof (pow2_pos (- k)) as Hp. pose proof (pow2_cancel k) as Hc.
    assert (Hq : (inject_Z n / pow2 (- k) == inject_Z (n * 2 ^ k))%Q).
    { rewrite inject_Z_mult, <- (pow2_Z k) by lia.
      apply Qmult_inj_r with (pow2 (- k)); [lra|].
      transitivity (inject_Z n); [field; lra|].
      rewrite <- Qmult_assoc, (Qmult_comm (pow2 k)), Hc. ring. }
    rewrite (rne_Qeq _ _ Hq).
    rewrite inject_Z_mult, <- (pow2_Z k) by lia.
    rewrite <- Qmult_assoc, (Qmult_comm (pow2 k)), Hc. ring.
Qed.

(** Integers of magnitude up to [2^53] are binary64 numbers. *)
Lemma round_nearest_Z n :
  - 2 ^ 53 <= n <= 2 ^ 53 -> (round_nearest (inject_Z n) == inject_Z n)%Q.
Proof.
  intros Hn. unfold round_nearest.
  destruct (Num.Qltb 0 (inject_Z n)) eqn:E1.
  - apply Qltb_true in E1. change 0%Q with (inject_Z 0) in E1.
    rewrite <- Zlt_Qlt in E1. apply round_pos_Z. lia.
  - apply Qltb_false in E1. change 0%Q with (inject_Z 0) in E1.
    rewrite <- Zle_Qle in E1.
    destruct (Num.Qltb (inject_Z n) 0) eqn:E2.
    + apply Qltb_true in E2. change 0%Q with (inject_Z 0) in E2.
      rewrite <- Zlt_Qlt in E2.
      rewrite <- inject_Z_opp, round_pos_Z by lia.
      rewrite inject_Z_opp. ring.
    + apply Qltb_false in E2. change 0%Q with (inject_Z 0) in E2.
      rewrite <- Zle_Qle in E2. assert (n = 0) as -> by lia. reflexivity.
Qed.

Lemma pow2_53_1024 : (inject_Z (2 ^ 53) < pow2 1024)%Q.
Proof.
  rewrite <- (pow2_Z 53) by lia.
  assert (H : (pow2 53 < pow2 54)%Q).
  { rewrite !pow2_Z by lia. by rewrite <- Zlt_Qlt. }
  eapply Qlt_le_trans; [exact H|]. apply pow2_le. lia.
Qed.

(** A value between two integers of magnitude up to [2^53] rounds to a
    finite double between them. *)
Lemma round_double_between x lo hi :
  - 2 ^ 53 <= lo -> hi <= 2 ^ 53 ->
  (inject_Z lo <= x)%Q -> (x <= inject_Z hi)%Q ->
  exists r, round_double x = Some r /\ (r == round_nearest x)%Q /\
            (inject_Z lo <= r)%Q /\ (r <= inject_Z hi)%Q.
Proof.
  intros Hlo Hhi Hx1 Hx2.
  assert (Hlh : lo <= hi) by (rewrite Zle_Qle; lra).
  pose proof (round_nearest_mono _ _ Hx1) as H1.
  pose proof (round_nearest_mono _ _ Hx2) as H2.
  rewrite round_nearest_Z in H1 by lia.
  rewrite round_nearest_Z in H2 by lia.
  pose proof pow2_53_1024 as Hp.
  assert (Hhq : (inject_Z hi <= inject_Z (2 ^ 53))%Q) by (by rewrite <- Zle_Qle).
  assert (Hlq : (- inject_Z (2 ^ 53) <= inject_Z lo)%Q).
  { rewrite <- inject_Z_opp, <- Zle_Qle. lia. }
  exists (round_nearest x). unfold round_double. cbv zeta.
  destruct (Qle_bool (pow2 1024) (round_nearest x)) eqn:E1.
  { apply Qle_bool_iff in E1. lra. }
  destruct (Qle_bool (round_nearest x) (- pow2 1024)) eqn:E2.
  { apply Qle_bool_iff in E2. lra. }
  simpl. by repeat split.
Qed.

Lemma round_double_Some x r : round_double x = Some r -> r = round_nearest x.
Proof.
  unfold round_double. cbv zeta.
  destruct (_ || _); [done|]. by intros [= <-].
Qed.

Lemma round_double_mono x y rx ry :
  (x <= y)%Q -> round_double x = Some rx -> round_double y = Some ry ->
  (rx <= ry)%Q.
Proof.
  intros Hxy Hx Hy. apply round_double_Some in Hx, Hy. subst.
  by apply round_nearest_mono.
Qed.

(** [float(n)] is exact up to [2^53]. *)
Lemma float_of_int_exact n :
  - 2 ^ 53 <= n <= 2 ^ 53 ->
  exists a, float_of_int n = Some a /\ (a == inject_Z n)%Q.
Proof.
  intros Hn. unfold float_of_int.
  destruct (round_double_between (inject_Z n) n n) as (r & Hr & _ & H1 & H2);
    try lia; try lra.
  exists r. split; [done|lra].
Qed.

Lemma float_of_int_nonneg n a :
  0 <= n -> float_of_int n = Some a -> (0 <= a)%Q.
Proof.
  intros Hn Ha. apply round_double_Some in Ha. subst a.
  assert (H0 : (round_nearest 0 == 0)%Q) by reflexivity.
  rewrite <- H0. apply round_nearest_mono.
  change 0%Q with (inject_Z 0). by rewrite <- Zle_Qle.
Qed.

(** The literal [3.6] denotes the double nearest to 18/5. *)
Lemma d3_6_nearest :
  exists r, round_double (18 # 5) = Some r /\ (r == d3_6)%Q.
Proof. eexists. split; [by vm_compute|]. by vm_compute. Qed.

End DoubleRounding.

(** ** Break spans and working time *)

Section BreakSpans.
Import Breaks.

#[local] Instance span_le_total : Total span_le.
Proof. intros [a1 a2] [b1 b2]. unfold span_le; simpl. lia. Qed.

#[local] Instance span_le_trans : Transitive span_le.
Proof. intros [a1 a2] [b1 b2] [c1 c2]. unfold span_le; simpl. lia. Qed.

Lemma spans_of_rows_valid lid rows :
  Forall (fun x => x.1 < x.2) (spans_of_rows lid rows).
Proof.
  apply Forall_forall. intros [s e] Hin.
  apply list_elem_of_omap in Hin as (r & _ & Hr).
  destruct (is_active r); simpl in Hr; [|done].
  case_bool_decide; simpl in Hr; [|done].
  destruct (break_start_time r), (break_end_time r); try done.
  destruct (Z.leb_spec z0 z); [done|]. injection Hr as <- <-. simpl. lia.
Qed.

Lemma merge_step_separated merged x :
  x.1 < x.2 -> separated_rev merged -> separated_rev (merge_step merged x).
Proof.
  intros Hx [Hv Hs]. destruct merged as [|[ls le] rest]; simpl.
  - split; repeat constructor; done.
  - apply Forall_cons in Hv as [Hh Hv]. simpl in Hh.
    apply Sorted_inv in Hs as [Hs Hhd].
    destruct (Z.gtb_spec x.1 le).
    + split; [by repeat constructor|].
      constructor; [by constructor|]. constructor. simpl. lia.
    + split; [constructor; [simpl; lia | done]|].
      constructor; [done|]. destruct Hhd; constructor. simpl in *. lia.
Qed.

Lemma merge_fold_separated spans merged :
  Forall (fun x => x.1 < x.2) spans -> separated_rev merged ->
  separated_rev (foldl merge_step merged spans).
Proof.
  revert merged; induction spans as [|x spans IH]; intros merged Hv Hm;
    simpl; [done|].
  apply Forall_cons in Hv as [Hx Hv].
  apply IH; [done|]. by apply merge_step_separated.
Qed.

Lemma separated_rev_reverse merged :
  separated_rev merged -> separated (reverse merged).
Proof.
  intros [Hv Hs]. split; [by apply Forall_reverse|].
  exact (Sorted_reverse _ _ Hs).
Qed.

Lemma merge_spans_separated spans :
  Forall (fun x => x.1 < x.2) spans -> separated (merge_spans spans).
Proof.
  intros Hv. apply separated_rev_reverse, merge_fold_separated.
  - by rewrite merge_sort_Permutation.
  - split; constructor.
Qed.

Lemma covers_cons x l t : covers (x :: l) t <-> x.1 <= t < x.2 \/ covers l t.
Proof. unfold covers. apply Exists_cons. Qed.

Lemma covers_nil t : ~ covers [] t.
Proof. unfold covers. intros H. inversion H. Qed.

Lemma covers_elem l t : covers l t <-> exists x, x ∈ l /\ x.1 <= t < x.2.
Proof. unfold covers. apply Exists_exists. Qed.

Lemma merge_step_covers merged x t :
  (forall h, head merged = Some h -> h.1 <= x.1) ->
  covers (merge_step merged x) t <-> covers merged t \/ x.1 <= t < x.2.
Proof.
  intros Hh. destruct merged as [|[ls le] rest]; simpl.
  - rewrite covers_cons. pose proof (covers_nil t). tauto.
  - specialize (Hh _ eq_refl). simpl in Hh.
    destruct (Z.gtb_spec x.1 le); rewrite !covers_cons; simpl; [tauto|].
    split; [intros [?|?] | intros [[?|?]|?]]; try tauto; lia.
Qed.

Lemma merge_step_head merged x h :
  (forall h0, head merged = Some h0 -> h0.1 <= x.1) ->
  head (merge_step merged x) = Some h -> h.1 <= x.1.
Proof.
  intros Hh. destruct merged as [|[ls le] rest]; simpl.
  - intros [= <-]. lia.
  - specialize (Hh _ eq_refl). simpl in Hh.
    destruct (x.1 >? le); intros [= <-]; simpl; lia.
Qed.

Lemma merge_fold_covers spans merged t :
  StronglySorted span_le spans ->
  (forall h, head merged = Some h -> Forall (fun x => h.1 <= x.1) spans) ->
  covers (foldl merge_step merged spans) t <-> covers merged t \/ covers spans t.
Proof.
  intros Hs. revert merged.
  induction Hs as [|x spans Hs IH Hx]; intros merged Hh; simpl.
  - pose proof (covers_nil t). tauto.
  - assert (Hhx : forall h, head merged = Some h -> h.1 <= x.1).
    { intros h Hm. specialize (Hh h Hm). by apply Forall_cons in Hh as [? _]. }
    rewrite IH.
    { rewrite merge_step_covers by done. rewrite covers_cons. tauto. }
    intros h Hm. pose proof (merge_step_head merged x h Hhx Hm) as Hle.
    eapply Forall_impl; [exact Hx|]. intros y Hy. simpl.
    unfold span_le in Hy. lia.
Qed.

Lemma merge_spans_covers spans t :
  covers (merge_spans spans) t <-> covers spans t.
Proof.
  unfold merge_spans. rewrite covers_elem.
  setoid_rewrite elem_of_reverse. rewrite <- covers_elem.
  rewrite merge_fold_covers.
  - split.
    + intros [H|H]; [by apply covers_nil in H|].
      apply covers_elem in H as (x & Hx & Ht). apply covers_elem.
      exists x. by rewrite merge_sort_Permutation in Hx.
    + intros H. right.
      apply covers_elem in H as (x & Hx & Ht). apply covers_elem.
      exists x. by rewrite merge_sort_Permutation.
  - apply StronglySorted_merge_sort; apply _.
  - done.
Qed.

(** X1: the break spans a load leaves for a line are non-empty, in
    ascending order, and each ends strictly before the next begins. *)
Theorem load_breaks_separated (lid : Z) (rows : list break_row) :
  separated (load_breaks lid rows) /\
  forall i j x y, (i < j)%nat ->
    load_breaks lid rows !! i = Some x -> load_breaks lid rows !! j = Some y ->
    x.1 < x.2 /\ x.2 < y.1 /\ y.1 < y.2.
Proof.
  assert (Hsep : separated (load_breaks lid rows))
    by apply merge_spans_separated, spans_of_rows_valid.
  split; [done|]. destruct Hsep as [Hv Hs].
  assert (Hss : StronglySorted (fun a b => a.1 < a.2 /\ a.2 < b.1 /\ b.1 < b.2)
                               (load_breaks lid rows)).
  { revert Hv Hs. generalize (load_breaks lid rows) as l.
    induction l as [|a l IH]; intros Hv Hs; [constructor|].
    apply Forall_cons in Hv as [Ha Hv]. apply Sorted_inv in Hs as [Hs Hhd].
    specialize (IH Hv Hs). constructor; [done|].
    destruct l as [|b l]; [constructor|].
    apply HdRel_inv in Hhd. apply StronglySorted_inv in IH as [_ Hb].
    apply Forall_cons in Hv as [Hvb _].
    constructor; [lia|].
    eapply Forall_impl; [exact Hb|]. intros c Hc. simpl in *. lia. }
  intros i j x y Hij Hi Hj.
  rewrite <- (take_drop_middle _ _ _ Hi) in Hss, Hj.
  apply StronglySorted_app_1_r, StronglySorted_inv in Hss as [_ Hall].
  rewrite lookup_app_r in Hj by (rewrite length_take; lia).
  rewrite length_take_le in Hj by (apply lookup_lt_Some in Hi; lia).
  destruct (j - i)%nat as [|k] eqn:E; [lia|]. simpl in Hj.
  apply list_elem_of_lookup_2 in Hj.
  by apply (proj1 (Forall_forall _ _) Hall).
Qed.

(** X2: an instant lies inside a merged break span of a line if and only
    if it lies inside one of the line's active break rows. *)
Theorem load_breaks_covers (lid : Z) (rows : list break_row) (t : Z) :
  covers (load_breaks lid rows) t <-> exists r, r ∈ rows /\ row_covers lid t r.
Proof.
  unfold load_breaks. rewrite merge_spans_covers, covers_elem.
  unfold spans_of_rows. setoid_rewrite list_elem_of_omap.
  split.
  - intros ([s e] & (r & Hr & Hf) & Ht). exists r. split; [done|].
    destruct (is_active r) eqn:Ea; simpl in Hf; [|done].
    case_bool_decide as Hl; simpl in Hf; [|done].
    destruct (break_start_time r) as [s'|] eqn:Es; [|done].
    destruct (break_end_time r) as [e'|] eqn:Ee; [|done].
    destruct (e' <=? s'); [done|]. injection Hf as -> ->.
    repeat split; try done. by exists s, e.
  - intros (r & Hr & Ha & Hl & s & e & Hs & He & Ht).
    exists (s, e). split; [|done]. exists r. split; [done|].
    rewrite Ha, Hs, He; simpl. rewrite bool_decide_eq_true_2 by done; simpl.
    by rewrite (proj2 (Z.leb_gt e s)) by lia.
Qed.

(** ** Working time *)

Lemma blocked_ms_acc a b l acc :
  foldl (fun blocked x => blocked + overlap a b x) acc l
  = acc + blocked_ms a b l.
Proof.
  unfold blocked_ms. revert acc. induction l as [|x l IH]; intros acc; simpl.
  - lia.
  - rewrite (IH (acc + overlap a b x)), (IH (0 + overlap a b x)). lia.
Qed.

Lemma blocked_ms_cons a b x l :
  blocked_ms a b (x :: l) = overlap a b x + blocked_ms a b l.
Proof. unfold blocked_ms at 1. simpl. by rewrite blocked_ms_acc. Qed.

Lemma overlap_range a b x : 0 <= overlap a b x <= Z.max 0 (b - a).
Proof. unfold overlap. cbv zeta. destruct (Z.gtb_spec (Z.min b x.2) (Z.max a x.1)); lia. Qed.

Lemma blocked_ms_nonneg a b l : 0 <= blocked_ms a b l.
Proof.
  induction l as [|x l IH]; [done|].
  rewrite blocked_ms_cons. pose proof (overlap_range a b x). lia.
Qed.

Lemma blocked_ms_elem a b l x : x ∈ l -> overlap a b x <= blocked_ms a b l.
Proof.
  induction 1 as [x l|x y l _ IH]; rewrite blocked_ms_cons.
  - pose proof (blocked_ms_nonneg a b l). lia.
  - pose proof (overlap_range a b y). lia.
Qed.

Lemma blocked_ms_separated_le a b l lo :
  separated l ->
  (forall h, head l = Some h -> lo <= h.1) ->
  blocked_ms a b l <= Z.max 0 (b - Z.max a lo).
Proof.
  intros [Hv Hs]. revert lo.
  induction l as [|x l IH]; intros lo Hlo.
  - unfold blocked_ms. simpl. lia.
  - apply Forall_cons in Hv as [Hx Hv]. apply Sorted_inv in Hs as [Hs Hhd].
    specialize (Hlo _ eq_refl). simpl in Hlo.
    rewrite blocked_ms_cons.
    assert (Hr : blocked_ms a b l <= Z.max 0 (b - Z.max a x.2)).
    { apply IH; [done..|]. intros h Hh.
      destruct l as [|y l]; [done|]. injection Hh as <-.
      apply HdRel_inv in Hhd. lia. }
    unfold overlap. cbv zeta.
    destruct (Z.gtb_spec (Z.min b x.2) (Z.max a x.1)); lia.
Qed.

Lemma working_ms_separated a b l :
  separated l -> _working_ms a b l = Z.max 0 (b - a) - blocked_ms a b l.
Proof.
  intros Hsep. unfold _working_ms. cbv zeta.
  destruct (Z.eqb_spec (Z.max 0 (b - a)) 0) as [E|E].
  - assert (blocked_ms a b l = 0); [|lia].
    pose proof (blocked_ms_nonneg a b l).
    pose proof (blocked_ms_separated_le a b l a Hsep) as Hle.
    destruct l as [|x l]; [done|].
    destruct (Z.le_gt_cases a x.1) as [Hax|Hax].
    + assert (blocked_ms a b (x :: l) <= Z.max 0 (b - Z.max a a)); [|lia].
      apply blocked_ms_separated_le; [done|]. by intros h [= <-].
    + assert (blocked_ms a b (x :: l) <= Z.max 0 (b - Z.max a x.1)); [|lia].
      apply blocked_ms_separated_le; [done|]. by intros h [= <-].
  - destruct l as [|x l]; [unfold blocked_ms; simpl; lia|].
    destruct (Z.le_gt_cases a x.1) as [Hax|Hax].
    + assert (blocked_ms a b (x :: l) <= Z.max 0 (b - Z.max a a)); [|lia].
      apply blocked_ms_separated_le; [done|]. by intros h [= <-].
    + assert (blocked_ms a b (x :: l) <= Z.max 0 (b - Z.max a x.1)); [|lia].
      apply blocked_ms_separated_le; [done|]. by intros h [= <-].
Qed.

Lemma overlap_split a m b x :
  x.1 <= x.2 -> a <= m <= b ->
  overlap a b x = overlap a m x + overlap m b x.
Proof.
  intros Hx Hm. unfold overlap. cbv zeta.
  destruct (Z.gtb_spec (Z.min b x.2) (Z.max a x.1)),
           (Z.gtb_spec (Z.min m x.2) (Z.max a x.1)),
           (Z.gtb_spec (Z.min b x.2) (Z.max m x.1)); lia.
Qed.

Lemma blocked_ms_split a m b l :
  Forall (fun x => x.1 < x.2) l -> a <= m <= b ->
  blocked_ms a b l = blocked_ms a m l + blocked_ms m b l.
Proof.
  intros Hv Hm. induction Hv as [|x l Hx Hv IH]; [done|].
  rewrite !blocked_ms_cons, IH, (overlap_split a m b x) by lia. lia.
Qed.

Lemma working_ms_split a m b l :
  separated l -> a <= m <= b ->
  _working_ms a b l = _working_ms a m l + _working_ms m b l.
Proof.
  intros Hsep Hm. rewrite !working_ms_separated by done.
  rewrite (blocked_ms_split a m b l) by (done || apply Hsep). lia.
Qed.

Lemma working_ms_range a b l : 0 <= _working_ms a b l <= Z.max 0 (b - a).
Proof.
  unfold _working_ms. cbv zeta.
  destruct (Z.eqb_spec (Z.max 0 (b - a)) 0); [lia|].
  destruct l; [lia|]. pose proof (blocked_ms_nonneg a b (s :: l)). lia.
Qed.

Lemma working_ms_mono_end a b1 b2 l :
  separated l -> b1 <= b2 -> _working_ms a b1 l <= _working_ms a b2 l.
Proof.
  intros Hsep Hb. destruct (Z.le_gt_cases a b1) as [Hab|Hab].
  - rewrite (working_ms_split a b1 b2 l) by (done || lia).
    pose proof (working_ms_range b1 b2 l). lia.
  - pose proof (working_ms_range a b1 l). pose proof (working_ms_range a b2 l). lia.
Qed.

Lemma hour_working_seconds_range h l : 0 <= _hour_working_seconds h l <= 3600.
Proof.
  unfold _hour_working_seconds.
  pose proof (working_ms_range h (h + 3600 * 1000) l) as Hr.
  split.
  - apply Z.div_pos; lia.
  - apply Z.div_le_upper_bound; lia.
Qed.

(** X3: the working time of a window is never negative, never more than
    the window's length, and falls short of it by at least the part of
    every single break span that lies inside the window. *)
Theorem working_ms_bounds (start_ms end_ms : Z) (spans : list span) :
  0 <= _working_ms start_ms end_ms spans <= Z.max 0 (end_ms - start_ms) /\
  forall x, x ∈ spans ->
    _working_ms start_ms end_ms spans
    <= Z.max 0 (end_ms - start_ms) - overlap start_ms end_ms x.
Proof.
  split; [apply working_ms_range|].
  intros x Hx. pose proof (blocked_ms_elem start_ms end_ms spans x Hx).
  pose proof (overlap_range start_ms end_ms x).
  unfold _working_ms. cbv zeta.
  destruct (Z.eqb_spec (Z.max 0 (end_ms - start_ms)) 0); [lia|].
  destruct spans; [by apply elem_of_nil in Hx|]. lia.
Qed.

(** X4: on the spans a load leaves, working time plus the time blocked by
    breaks is exactly the length of the window: no break is counted twice
    and the clamp at zero never cuts anything off. *)
Theorem working_ms_loaded_exact (lid : Z) (rows : list break_row)
        (start_ms end_ms : Z) :
  _working_ms start_ms end_ms (load_breaks lid rows)
  + blocked_ms start_ms end_ms (load_breaks lid rows)
  = Z.max 0 (end_ms - start_ms).
Proof.
  rewrite working_ms_separated; [lia|].
  apply merge_spans_separated, spans_of_rows_valid.
Qed.

(** X5: on the spans a load leaves, the working time of a window is the
    sum of the working times of its two parts at any split point, so it
    grows with the window. *)
Theorem working_ms_loaded_additive (lid : Z) (rows : list break_row)
        (a m b : Z) :
  a <= m <= b ->
  _working_ms a b (load_breaks lid rows)
  = _working_ms a m (load_breaks lid rows)
    + _working_ms m b (load_breaks lid rows) /\
  _working_ms a m (load_breaks lid rows)
  <= _working_ms a b (load_breaks lid rows).
Proof.
  intros Hm.
  assert (Hsep : separated (load_breaks lid rows))
    by apply merge_spans_separated, spans_of_rows_valid.
  rewrite (working_ms_split a m b) by done.
  pose proof (working_ms_range m b (load_breaks lid rows)). lia.
Qed.

Lemma working_ms_loaded_additive_witness :
  let rows := [ {| is_active := true; line_id := 1;
                   break_start_time := Some 1000; break_end_time := Some 3000 |};
                {| is_active := true; line_id := 1;
                   break_start_time := Some 2000; break_end_time := Some 5000 |} ] in
  0 <= 2500 <= 10000 /\
  (_working_ms 0 10000 (load_breaks 1 rows)
   = _working_ms 0 2500 (load_breaks 1 rows)
     + _working_ms 2500 10000 (load_breaks 1 rows) /\
   _working_ms 0 2500 (load_breaks 1 rows)
   <= _working_ms 0 10000 (load_breaks 1 rows)).
Proof.
  intros rows. split; [lia|].
  apply (working_ms_loaded_additive 1 rows 0 2500 10000). lia.
Defined.

(** ** Base targets *)

Lemma int_of_float_ge (n : Z) (x : Q) :
  (inject_Z n <= x)%Q -> n <= Num.int_of_float x.
Proof.
  intros H. transitivity (Num.int_of_float (inject_Z n));
    [by rewrite int_of_float_Z|by apply int_of_float_mono].
Qed.

Lemma int_of_float_le (n : Z) (x : Q) :
  (x <= inject_Z n)%Q -> Num.int_of_float x <= n.
Proof.
  intros H. transitivity (Num.int_of_float (inject_Z n));
    [by apply int_of_float_mono|by rewrite int_of_float_Z].
Qed.

Lemma base_target_zero (work_sec : Z) (ct_eff : Q) :
  (ct_eff <= 0)%Q \/ work_sec <= 0 -> base_target work_sec ct_eff = Some 0.
Proof.
  intros [H|H]; unfold base_target.
  - by rewrite (proj2 (Qltb_false 0 ct_eff)).
  - destruct (Num.Qltb 0 ct_eff); [|done].
    destruct (Z.gtb_spec work_sec 0); [lia|done].
Qed.

Lemma quotient_range (work_sec : Z) (ct_eff : Q) :
  (0 < ct_eff)%Q -> 0 <= work_sec ->
  (inject_Z work_sec <= inject_Z (2 ^ 53) * ct_eff)%Q ->
  0 <= Qfloor (inject_Z work_sec / ct_eff) /\
  Qceiling (inject_Z work_sec / ct_eff) <= 2 ^ 53.
Proof.
  intros Hct Hw Hr. split.
  - change 0 with (Qfloor 0). apply Qfloor_resp_le.
    apply Qle_shift_div_l; [done|]. rewrite Qmult_0_l.
    change 0%Q with (inject_Z 0). by rewrite <- Zle_Qle.
  - rewrite <- (Qceiling_Z (2 ^ 53)). apply Qceiling_resp_le.
    by apply Qle_shift_div_r.
Qed.

Lemma base_target_spec (work_sec : Z) (ct_eff : Q) :
  (0 < ct_eff)%Q -> 0 < work_sec <= 2 ^ 53 ->
  (inject_Z work_sec <= inject_Z (2 ^ 53) * ct_eff)%Q ->
  exists b, base_target work_sec ct_eff = Some b /\
    Qfloor (inject_Z work_sec / ct_eff) <= b
      <= Qceiling (inject_Z work_sec / ct_eff).
Proof.
  intros Hct Hw Hr. unfold base_target.
  rewrite (proj2 (Qltb_true 0 ct_eff)) by done.
  rewrite (proj2 (Z.gtb_lt work_sec 0)) by lia.
  destruct (float_of_int_exact work_sec) as (a & -> & Ha); [lia|].
  destruct (quotient_range work_sec ct_eff) as [Hf Hc]; [done|lia|done|].
  set (q := (inject_Z work_sec / ct_eff)%Q) in *.
  assert (Hq : (a / ct_eff == q)%Q) by (unfold q; by rewrite Ha).
  destruct (round_double_between (a / ct_eff) (Qfloor q) (Qceiling q))
    as (r & Hr' & _ & H1 & H2).
  - lia.
  - lia.
  - rewrite Hq. apply Qfloor_le.
  - rewrite Hq. apply Qle_ceiling.
  - unfold Double.fdiv. rewrite Hr'. eexists. split; [done|]. split.
    + by apply int_of_float_ge.
    + by apply int_of_float_le.
Qed.

Lemma base_target_returns (work_sec : Z) (ct_eff : Q) :
  work_sec <= 2 ^ 53 ->
  (inject_Z work_sec <= inject_Z (2 ^ 53) * ct_eff)%Q ->
  is_Some (base_target work_sec ct_eff).
Proof.
  intros Hw Hr.
  destruct (Qlt_le_dec 0 ct_eff) as [Hc|Hc];
    [|rewrite base_target_zero; [done|by left]].
  destruct (Z.lt_ge_cases 0 work_sec) as [Hw0|Hw0];
    [|rewrite base_target_zero; [done|right; lia]].
  destruct (base_target_spec work_sec ct_eff) as (b & -> & _); done.
Qed.

Lemma base_target_nonneg (work_sec : Z) (ct_eff : Q) (b : Z) :
  base_target work_sec ct_eff = Some b -> 0 <= b.
Proof.
  unfold base_target.
  destruct (Num.Qltb 0 ct_eff) eqn:Ec; [|by intros [= <-]].
  destruct (Z.gtb_spec work_sec 0) as [Hw|]; [|by intros [= <-]].
  apply Qltb_true in Ec.
  destruct (Double.float_of_int work_sec) as [a|] eqn:Ea; [|done].
  destruct (Double.fdiv a ct_eff) as [q|] eqn:Eq; [|done].
  intros [= <-].
  apply float_of_int_nonneg in Ea; [|lia].
  apply round_double_Some in Eq. subst q.
  change 0 with (Num.int_of_float 0). apply int_of_float_mono.
  assert (H0 : (Double.round_nearest 0 == 0)%Q) by reflexivity.
  rewrite <- H0. apply round_nearest_mono.
  apply Qle_shift_div_l; [done|]. lra.
Qed.

Lemma cycles_near (work_sec : Z) (ct_eff : Q) (b : Z) :
  (0 < ct_eff)%Q ->
  Qfloor (inject_Z work_sec / ct_eff) <= b
    <= Qceiling (inject_Z work_sec / ct_eff) ->
  ((inject_Z b - 1) * ct_eff < inject_Z work_sec)%Q /\
  (inject_Z work_sec < (inject_Z b + 1) * ct_eff)%Q.
Proof.
  intros Hct [H1 H2].
  set (q := (inject_Z work_sec / ct_eff)%Q) in *.
  pose proof (Qlt_floor q) as Hf. pose proof (Qceiling_lt q) as Hc.
  assert (E : (q * ct_eff == inject_Z work_sec)%Q) by (unfold q; field; lra).
  rewrite Zle_Qle in H1, H2.
  rewrite inject_Z_plus in Hf. unfold Z.sub in Hc. rewrite inject_Z_plus in Hc.
  rewrite inject_Z_opp in Hc. change (inject_Z 1) with 1%Q in Hf, Hc.
  rewrite <- E. split; apply Qmult_lt_compat_r; lra.
Qed.

(** X6: with a positive effective cycle time and a positive number of
    working seconds, both within the range where doubles hold integers
    exactly, the base target is the exact quotient rounded down or up to
    a whole number: it differs from the working seconds by less than one
    cycle.  Rounding up happens: 3600 seconds at the double 3.6 give 1000,
    whose cycles take a little more than 3600 seconds. *)
Theorem base_target_near (work_sec : Z) (ct_eff : Q) :
  (0 < ct_eff)%Q -> 0 < work_sec <= 2 ^ 53 ->
  (inject_Z work_sec <= inject_Z (2 ^ 53) * ct_eff)%Q ->
  (exists b, base_target work_sec ct_eff = Some b /\
     Qfloor (inject_Z work_sec / ct_eff) <= b
       <= Qceiling (inject_Z work_sec / ct_eff) /\
     ((inject_Z b - 1) * ct_eff < inject_Z work_sec)%Q /\
     (inject_Z work_sec < (inject_Z b + 1) * ct_eff)%Q) /\
  base_target 3600 Double.d3_6 = Some 1000 /\
  (3600 < 1000 * Double.d3_6)%Q /\
  base_target 3600 (7 # 2) = Some 1028.
Proof.
  intros Hct Hw Hr. split; [|by vm_compute].
  destruct (base_target_spec work_sec ct_eff Hct Hw Hr) as (b & Hb & Hfc).
  exists b. split; [done|]. split; [done|]. by apply cycles_near.
Qed.

Lemma base_target_near_witness :
  (0 < 7 # 2)%Q /\ 0 < 3599 <= 2 ^ 53 /\
  (inject_Z 3599 <= inject_Z (2 ^ 53) * (7 # 2))%Q /\
  (exists b, base_target 3599 (7 # 2) = Some b /\
     Qfloor (inject_Z 3599 / (7 # 2)) <= b
       <= Qceiling (inject_Z 3599 / (7 # 2)) /\
     ((inject_Z b - 1) * (7 # 2) < inject_Z 3599)%Q /\
     (inject_Z 3599 < (inject_Z b + 1) * (7 # 2))%Q).
Proof.
  split; [reflexivity|]. split; [lia|]. split; [by vm_compute|].
  apply (base_target_near 3599 (7 # 2)); [reflexivity|lia|by vm_compute].
Defined.

(** X7: the hourly base writes nothing for a station that is not
    critical; otherwise it writes at most one row per evaluation, only
    with a positive target that is new and becomes the remembered one,
    and an evaluation repeated on unchanged inputs writes nothing.  With
    a cycle time of at least [3600 / 2^53] seconds the evaluation
    returns, and the cycles of a written target but one fit into the
    3600 seconds of the hour. *)
Theorem hourly_base_step_rows (is_critical : bool) (last : option Z)
        (hour_start_local_ms : Z) (spans : list span) (ct_eff : Q) :
  let step l := hourly_base_step is_critical l hour_start_local_ms spans ct_eff in
  (is_critical = false -> step last = Some (last, [])) /\
  (forall r, step last = Some r ->
     (length r.2 <= 1)%nat /\
     (forall v, v ∈ r.2 ->
        0 < v /\ r.1 = Some v /\ last <> Some v /\ is_critical = true) /\
     step r.1 = Some (r.1, [])) /\
  ((3600 <= inject_Z (2 ^ 53) * ct_eff)%Q \/ (ct_eff <= 0)%Q ->
   exists r, step last = Some r /\
     forall v, v ∈ r.2 -> ((inject_Z v - 1) * ct_eff < 3600)%Q) /\
  hourly_base_step true None 0 [] Double.d3_6 = Some (Some 1000, [1000]).
Proof.
  cbv zeta. unfold hourly_base_step.
  set (w := _hour_working_seconds hour_start_local_ms spans).
  pose proof (hour_working_seconds_range hour_start_local_ms spans) as Hw.
  fold w in Hw.
  split; [by intros ->|]. split; [|split; [|by vm_compute]].
  - intros r. destruct is_critical.
    2:{ intros [= <-]. simpl. split; [lia|].
        split; [by intros v Hv; apply elem_of_nil in Hv|done]. }
    destruct (base_target w ct_eff) as [hb|] eqn:Eb; [|done].
    intros [= <-]. case_bool_decide as E; simpl.
    + split; [lia|]. split; [by intros v Hv; apply elem_of_nil in Hv|].
      by rewrite bool_decide_eq_true_2.
    + split; [destruct (hb >? 0); simpl; lia|]. split.
      * intros v Hv.
        destruct (Z.gtb_spec hb 0) as [Hpos|]; [|by apply elem_of_nil in Hv].
        apply list_elem_of_singleton in Hv as ->. done.
      * by rewrite bool_decide_eq_true_2.
  - intros Hr. destruct is_critical.
    2:{ eexists. split; [done|]. by intros v Hv; apply elem_of_nil in Hv. }
    destruct Hr as [Hr|Hr].
    2:{ rewrite base_target_zero by (by left). eexists. split; [done|].
        intros v Hv. case_bool_decide; simpl in Hv;
          by apply elem_of_nil in Hv. }
    assert (Hct : (0 < ct_eff)%Q).
    { assert (H53 : (0 < inject_Z (2 ^ 53))%Q) by reflexivity. nra. }
    assert (Hwq : (inject_Z w <= inject_Z (2 ^ 53) * ct_eff)%Q).
    { eapply Qle_trans; [|exact Hr].
      change 3600%Q with (inject_Z 3600). rewrite <- Zle_Qle. lia. }
    destruct (Z.lt_ge_cases 0 w) as [Hw0|Hw0].
    2:{ rewrite base_target_zero by (right; lia). eexists. split; [done|].
        intros v Hv. case_bool_decide; simpl in Hv;
          by apply elem_of_nil in Hv. }
    destruct (base_target_spec w ct_eff) as (hb & -> & Hfc);
      [done|lia|done|].
    eexists. split; [done|]. intros v Hv.
    assert (v = hb) as ->.
    { case_bool_decide; simpl in Hv; [by apply elem_of_nil in Hv|].
      destruct (hb >? 0); [|by apply elem_of_nil in Hv].
      by apply list_elem_of_singleton in Hv. }
    destruct (cycles_near w ct_eff hb Hct Hfc) as [Hlo _].
    eapply Qlt_le_trans; [exact Hlo|].
    change 3600%Q with (inject_Z 3600). rewrite <- Zle_Qle. lia.
Qed.

(** X8: the shift base does nothing unless the station is critical and has
    a shift with a start and an end that are present and not 0.  Where it
    runs, a first evaluation writes a row even when the target is zero,
    a row carries a new target that is never negative and becomes the
    remembered one, and an evaluation repeated on unchanged inputs writes
    nothing.  A shift that starts at epoch 0 gets no row. *)
Theorem shift_base_step_rows (is_critical : bool) (shift_id : option Z)
        (shift_start_ms shift_end_ms : option Z) (last : option Z)
        (spans : list span) (ct_eff : Q) :
  let step l := shift_base_step is_critical shift_id shift_start_ms
                                shift_end_ms l spans ct_eff in
  (is_critical = false \/ shift_id = None \/
   shift_start_ms = None \/ shift_start_ms = Some 0 \/
   shift_end_ms = None \/ shift_end_ms = Some 0 ->
   step last = Some (last, [])) /\
  (forall r, step last = Some r ->
     (length r.2 <= 1)%nat /\
     (forall v, v ∈ r.2 -> 0 <= v /\ r.1 = Some v /\ last <> Some v) /\
     step r.1 = Some (r.1, [])) /\
  (forall sh s_ms e_ms,
     is_critical = true -> shift_id = Some sh ->
     shift_start_ms = Some s_ms -> shift_end_ms = Some e_ms ->
     s_ms <> 0 -> e_ms <> 0 ->
     (forall r, step None = Some r -> exists v, r = (Some v, [v])) /\
     (_working_ms s_ms e_ms spans / 1000 <= 2 ^ 53 ->
      (inject_Z (_working_ms s_ms e_ms spans / 1000)
       <= inject_Z (2 ^ 53) * ct_eff)%Q ->
      is_Some (step last))) /\
  shift_base_step true (Some 1) (Some 0) (Some 28800000) None [] 30
  = Some (None, []) /\
  shift_base_step true (Some 1) (Some 1000) (Some 28801000) None [] 30
  = Some (Some 960, [960]) /\
  shift_base_step true (Some 1) (Some 1000) (Some 28801000) None
                  [(1000, 28801000)] 30
  = Some (Some 0, [0]).
Proof.
  cbv zeta. unfold shift_base_step.
  split; [|split; [|split; [|by vm_compute]]].
  - intros H. destruct shift_id as [sh|]; [|done].
    destruct shift_start_ms as [s_ms|]; [|done].
    destruct shift_end_ms as [e_ms|]; [|done].
    destruct H as [->|[H|[H|[H|[H|H]]]]]; try done.
    + injection H as ->. simpl. by rewrite andb_false_r.
    + injection H as ->. simpl. by rewrite andb_false_r.
  - intros r.
    assert (Hskip : Some (last, []) = Some r ->
      (length r.2 <= 1)%nat /\
      (forall v, v ∈ r.2 -> 0 <= v /\ r.1 = Some v /\ last <> Some v) /\
      Some (r.1, @nil Z) = Some (r.1, [])).
    { intros [= <-]. simpl. split; [lia|].
      split; [by intros v Hv; apply elem_of_nil in Hv|done]. }
    destruct shift_id as [sh|]; [|done].
    destruct shift_start_ms as [s_ms|]; [|done].
    destruct shift_end_ms as [e_ms|]; [|done].
    destruct (is_critical && negb (s_ms =? 0) && negb (e_ms =? 0)); [|done].
    destruct (base_target _ ct_eff) as [sb|] eqn:Eb; [|done].
    apply base_target_nonneg in Eb.
    intros [= <-]. case_bool_decide as E; simpl.
    + split; [lia|]. split; [by intros v Hv; apply elem_of_nil in Hv|].
      by rewrite bool_decide_eq_true_2.
    + split; [lia|]. split.
      * intros v Hv. apply list_elem_of_singleton in Hv as ->. done.
      * by rewrite bool_decide_eq_true_2.
  - intros sh s_ms e_ms -> -> -> -> Hs He. simpl.
    rewrite (proj2 (Z.eqb_neq s_ms 0)), (proj2 (Z.eqb_neq e_ms 0)) by done.
    simpl. split.
    + intros r. destruct (base_target _ ct_eff) as [sb|]; [|done].
      intros [= <-]. by exists sb.
    + intros Hw Hr.
      destruct (base_target_returns _ ct_eff Hw Hr) as [sb ->]. done.
Qed.

(** ** Live targets *)

Lemma frac_range (q : Q) :
  (0 <= Num.Qmin 1 (Num.Qmax 0 q))%Q /\ (Num.Qmin 1 (Num.Qmax 0 q) <= 1)%Q.
Proof.
  destruct (Qmax_cases 0 q) as [[-> ?]|[-> ?]];
    [destruct (Qmin_cases 1 0) as [[-> ?]|[-> ?]]
    |destruct (Qmin_cases 1 q) as [[-> ?]|[-> ?]]]; split; lra.
Qed.

Lemma frac_mono (p q : Q) :
  (p <= q)%Q ->
  (Num.Qmin 1 (Num.Qmax 0 p) <= Num.Qmin 1 (Num.Qmax 0 q))%Q.
Proof.
  intros Hpq.
  destruct (Qmax_cases 0 p) as [[-> ?]|[-> ?]];
    destruct (Qmax_cases 0 q) as [[-> ?]|[-> ?]];
    [destruct (Qmin_cases 1 0) as [[-> ?]|[-> ?]]
    |destruct (Qmin_cases 1 0) as [[-> ?]|[-> ?]];
     destruct (Qmin_cases 1 q) as [[-> ?]|[-> ?]]
    |destruct (Qmin_cases 1 0) as [[-> ?]|[-> ?]];
     destruct (Qmin_cases 1 p) as [[-> ?]|[-> ?]]
    |destruct (Qmin_cases 1 p) as [[-> ?]|[-> ?]];
     destruct (Qmin_cases 1 q) as [[-> ?]|[-> ?]]]; lra.
Qed.

Lemma frac_Qeq (p q : Q) :
  (p == q)%Q ->
  (Num.Qmin 1 (Num.Qmax 0 p) == Num.Qmin 1 (Num.Qmax 0 q))%Q.
Proof. intros H. apply Qle_antisym; apply frac_mono; lra. Qed.

Lemma frac_one (q : Q) : (1 <= q)%Q -> (Num.Qmin 1 (Num.Qmax 0 q) == 1)%Q.
Proof.
  intros Hq.
  destruct (Qmax_cases 0 q) as [[-> ?]|[-> ?]];
    [destruct (Qmin_cases 1 0) as [[-> ?]|[-> ?]]
    |destruct (Qmin_cases 1 q) as [[-> ?]|[-> ?]]]; lra.
Qed.

Lemma elapsed_seconds_range hour_ms now_ms spans :
  0 <= _working_ms hour_ms (Z.min now_ms (hour_ms + 3600 * 1000)) spans / 1000
    <= 3600.
Proof.
  pose proof (working_ms_range hour_ms
                (Z.min now_ms (hour_ms + 3600 * 1000)) spans) as Hr.
  split.
  - apply Z.div_pos; lia.
  - apply Z.div_le_upper_bound; lia.
Qed.

(** The live target of an open row with a target up to [2^53] and a
    working second in its hour, in terms of the rounding. *)
Lemma live_target_hour_open (tgt_base hour_ms now_ms : Z) (spans : list span) :
  let T := _working_ms hour_ms (hour_ms + 3600 * 1000) spans / 1000 in
  let E := _working_ms hour_ms (Z.min now_ms (hour_ms + 3600 * 1000)) spans
           / 1000 in
  0 < tgt_base <= 2 ^ 53 -> 0 < T ->
  exists f v,
    (f == Num.Qmin 1 (Num.Qmax 0
            (Double.round_nearest (inject_Z E / inject_Z T))))%Q /\
    v = Num.int_of_float (Double.round_nearest (inject_Z tgt_base * f)) /\
    0 <= v <= tgt_base /\
    live_target_hour false tgt_base hour_ms now_ms spans = Some v.
Proof.
  intros T E Hb HT. unfold live_target_hour. cbv zeta. fold T. fold E.
  pose proof (hour_working_seconds_range hour_ms spans) as HTr.
  unfold _hour_working_seconds in HTr. fold T in HTr.
  pose proof (elapsed_seconds_range hour_ms now_ms spans) as HEr. fold E in HEr.
  simpl. rewrite (proj2 (Z.leb_gt tgt_base 0)) by lia.
  rewrite (proj2 (Z.leb_gt T 0)) by lia.
  destruct (float_of_int_exact E) as (a & -> & Ha); [lia|].
  destruct (float_of_int_exact T) as (b & -> & Hb'); [lia|].
  destruct (float_of_int_exact tgt_base) as (t & -> & Ht); [lia|].
  assert (HTq : (0 < inject_Z T)%Q)
    by (change 0%Q with (inject_Z 0); rewrite <- Zlt_Qlt; lia).
  assert (HEq : (0 <= inject_Z E)%Q)
    by (change 0%Q with (inject_Z 0); rewrite <- Zle_Qle; lia).
  assert (HEq' : (inject_Z E <= 3600)%Q)
    by (change 3600%Q with (inject_Z 3600); rewrite <- Zle_Qle; lia).
  assert (HT1 : (1 <= inject_Z T)%Q)
    by (change 1%Q with (inject_Z 1); rewrite <- Zle_Qle; lia).
  assert (Hab : (a / b == inject_Z E / inject_Z T)%Q) by (by rewrite Ha, Hb').
  destruct (round_double_between (a / b) 0 3600) as (q & Hq & Hqn & _).
  - lia.
  - lia.
  - rewrite Hab. apply Qle_shift_div_l; [done|].
    change (inject_Z 0) with 0%Q. lra.
  - rewrite Hab. apply Qle_shift_div_r; [done|].
    change (inject_Z 3600) with 3600%Q. nra.
  - unfold Double.fdiv. rewrite Hq.
    set (f := Num.Qmin 1 (Num.Qmax 0 q)).
    pose proof (frac_range q) as [Hf0 Hf1]. fold f in Hf0, Hf1.
    assert (Hbq : (0 < inject_Z tgt_base)%Q)
      by (change 0%Q with (inject_Z 0); rewrite <- Zlt_Qlt; lia).
    destruct (round_double_between (t * f) 0 tgt_base) as (p & Hp & Hpn & H1 & H2).
    + lia.
    + lia.
    + rewrite Ht. change (inject_Z 0) with 0%Q. nra.
    + rewrite Ht. nra.
    + unfold Double.fmul. rewrite Hp.
      exists f, (Num.int_of_float p). split; [|split; [|split; [|done]]].
      * unfold f. apply frac_Qeq. rewrite Hqn.
        by apply round_nearest_Qeq.
      * apply int_of_float_Qeq. rewrite Hpn.
        apply round_nearest_Qeq. by rewrite Ht.
      * split.
        -- by apply int_of_float_ge.
        -- by apply int_of_float_le.
Qed.

Lemma live_target_hour_zero (is_closed : bool) (tgt_base hour_ms now_ms : Z)
      (spans : list span) :
  is_closed = true \/ tgt_base <= 0 \/
  _working_ms hour_ms (hour_ms + 3600 * 1000) spans / 1000 <= 0 ->
  live_target_hour is_closed tgt_base hour_ms now_ms spans = Some 0.
Proof.
  unfold live_target_hour. cbv zeta. intros [->|[H|H]]; [done| |].
  - rewrite (proj2 (Z.leb_le tgt_base 0)) by done. by rewrite orb_true_r.
  - destruct (is_closed || (tgt_base <=? 0)); [done|].
    by rewrite (proj2 (Z.leb_le _ 0)) by done.
Qed.

(** X9: a live hourly target is zero for a closed row and for a row
    without a positive base target, and it is never negative.  With a
    base target up to [2^53] it is computed and never above the base
    target.  It can be one below the exact share: a target of 100 after
    1044 of 3600 working seconds gives 28, where the exact share is 29. *)
Theorem live_target_hour_range (is_closed : bool) (tgt_base : Z)
        (hour_ms now_ms : Z) (spans : list span) :
  live_target_hour true tgt_base hour_ms now_ms spans = Some 0 /\
  (tgt_base <= 0 ->
   live_target_hour is_closed tgt_base hour_ms now_ms spans = Some 0) /\
  (forall v, live_target_hour is_closed tgt_base hour_ms now_ms spans = Some v ->
             0 <= v) /\
  (tgt_base <= 2 ^ 53 ->
   exists v, live_target_hour is_closed tgt_base hour_ms now_ms spans = Some v /\
             0 <= v <= Z.max 0 tgt_base) /\
  live_target_hour false 100 0 1044000 [] = Some 28 /\
  100 * 1044 / 3600 = 29.
Proof.
  split; [done|]. split; [|split; [|split; [|by vm_compute]]].
  - intros H. apply live_target_hour_zero. auto.
  - unfold live_target_hour. cbv zeta.
    destruct (is_closed || (tgt_base <=? 0)) eqn:Ec; [by intros v [= <-]|].
    apply orb_false_iff in Ec as [_ Hb]. apply Z.leb_gt in Hb.
    destruct (_ <=? 0); [by intros v [= <-]|].
    destruct (Double.float_of_int _) as [a|]; [|done].
    destruct (Double.float_of_int _) as [b|]; [|done].
    set (f := match Double.fdiv a b with
              | Some q => Num.Qmin 1 (Num.Qmax 0 q)
              | None => 1%Q
              end).
    assert (Hf : (0 <= f)%Q).
    { unfold f. destruct (Double.fdiv a b) as [q|]; [|lra].
      apply frac_range. }
    destruct (Double.float_of_int tgt_base) as [t|] eqn:Et; [|done].
    apply float_of_int_nonneg in Et; [|lia].
    destruct (Double.fmul t f) as [p|] eqn:Ep; [|done].
    intros v [= <-]. apply round_double_Some in Ep. subst p.
    change 0 with (Num.int_of_float 0). apply int_of_float_mono.
    assert (H0 : (Double.round_nearest 0 == 0)%Q) by reflexivity.
    rewrite <- H0. apply round_nearest_mono. nra.
  - intros Hb.
    destruct is_closed; [exists 0; split; [done|lia]|].
    destruct (Z.le_gt_cases tgt_base 0) as [H0|H0].
    { exists 0. split; [apply live_target_hour_zero; auto|lia]. }
    destruct (Z.le_gt_cases
                (_working_ms hour_ms (hour_ms + 3600 * 1000) spans / 1000) 0)
      as [HT|HT].
    { exists 0. split; [apply live_target_hour_zero; auto|lia]. }
    destruct (live_target_hour_open tgt_base hour_ms now_ms spans)
      as (f & v & _ & _ & Hv & ->); [lia|lia|].
    exists v. split; [done|lia].
Qed.

(** X10: on the spans a load leaves and with a base target up to [2^53],
    the live target of an open hour is computed, never decreases as time
    passes, and once the hour is over it equals the base target if the
    hour has any working second. *)
Theorem live_target_hour_grows (lid : Z) (rows : list break_row)
        (tgt_base hour_ms now1 now2 : Z) :
  now1 <= now2 -> tgt_base <= 2 ^ 53 ->
  exists v1 v2,
    live_target_hour false tgt_base hour_ms now1 (load_breaks lid rows)
    = Some v1 /\
    live_target_hour false tgt_base hour_ms now2 (load_breaks lid rows)
    = Some v2 /\
    v1 <= v2 /\
    (hour_ms + 3600 * 1000 <= now2 ->
     0 < _hour_working_seconds hour_ms (load_breaks lid rows) ->
     v2 = Z.max 0 tgt_base).
Proof.
  intros Hnow Hb.
  assert (Hsep : separated (load_breaks lid rows))
    by apply merge_spans_separated, spans_of_rows_valid.
  set (l := load_breaks lid rows) in *.
  destruct (Z.le_gt_cases tgt_base 0) as [H0|H0].
  { exists 0, 0. rewrite !live_target_hour_zero by auto.
    repeat split; try done. lia. }
  unfold _hour_working_seconds.
  set (T := _working_ms hour_ms (hour_ms + 3600 * 1000) l / 1000).
  destruct (Z.le_gt_cases T 0) as [HT|HT].
  { exists 0, 0. rewrite !live_target_hour_zero by auto.
    repeat split; try done. lia. }
  destruct (live_target_hour_open tgt_base hour_ms now1 l)
    as (f1 & v1 & Hf1 & Hv1 & _ & Hl1); [lia|done|].
  destruct (live_target_hour_open tgt_base hour_ms now2 l)
    as (f2 & v2 & Hf2 & Hv2 & _ & Hl2); [lia|done|].
  fold T in Hf1, Hf2.
  set (e1 := _working_ms hour_ms (Z.min now1 (hour_ms + 3600 * 1000)) l / 1000)
    in *.
  set (e2 := _working_ms hour_ms (Z.min now2 (hour_ms + 3600 * 1000)) l / 1000)
    in *.
  assert (Hbq : (0 < inject_Z tgt_base)%Q)
    by (change 0%Q with (inject_Z 0); rewrite <- Zlt_Qlt; lia).
  assert (HTq : (0 < inject_Z T)%Q)
    by (change 0%Q with (inject_Z 0); rewrite <- Zlt_Qlt; lia).
  exists v1, v2. split; [done|]. split; [done|]. split.
  - subst v1 v2. apply int_of_float_mono, round_nearest_mono.
    assert (He : e1 <= e2).
    { apply Z.div_le_mono; [lia|]. apply working_ms_mono_end; [done|lia]. }
    assert (Hq : (inject_Z e1 / inject_Z T <= inject_Z e2 / inject_Z T)%Q).
    { unfold Qdiv. apply Qmult_le_compat_r; [by rewrite <- Zle_Qle|].
      apply Qinv_le_0_compat. lra. }
    apply round_nearest_mono, frac_mono in Hq.
    rewrite <- Hf1, <- Hf2 in Hq. nra.
  - intros Hend _. rewrite Z.max_r by lia. subst v2.
    assert (He : e2 = T) by (unfold e2, T; by rewrite Z.min_r by lia).
    rewrite He in Hf2.
    assert (Hq : (inject_Z T / inject_Z T == 1)%Q) by (field; lra).
    assert (H1 : (Double.round_nearest (inject_Z T / inject_Z T) == 1)%Q).
    { rewrite (round_nearest_Qeq _ _ Hq).
      apply (round_nearest_Z 1). lia. }
    assert (Hf : (f2 == 1)%Q).
    { rewrite Hf2. apply frac_one. lra. }
    transitivity (Num.int_of_float (inject_Z tgt_base));
      [|by rewrite int_of_float_Z].
    apply int_of_float_Qeq.
    rewrite <- (round_nearest_Z tgt_base) at 2 by lia.
    apply round_nearest_Qeq. rewrite Hf. ring.
Qed.

Lemma live_target_hour_grows_witness :
  let rows := [ {| is_active := true; line_id := 1;
                   break_start_time := Some 600000;
                   break_end_time := Some 1200000 |} ] in
  1800000 <= 3600000 /\ 100 <= 2 ^ 53 /\
  exists v1 v2,
    live_target_hour false 100 0 1800000 (load_breaks 1 rows) = Some v1 /\
    live_target_hour false 100 0 3600000 (load_breaks 1 rows) = Some v2 /\
    v1 <= v2 /\
    (0 + 3600 * 1000 <= 3600000 ->
     0 < _hour_working_seconds 0 (load_breaks 1 rows) ->
     v2 = Z.max 0 100).
Proof.
  intros rows. split; [lia|]. split; [lia|].
  apply (live_target_hour_grows 1 rows 100 0 1800000 3600000); lia.
Defined.
End BreakSpans.


(** ** Shift windows *)

Section ShiftWindows.
Import OvercyclePublisher Shifts.

Lemma insert_by_start_perm w l : insert_by_start w l ≡ₚ w :: l.
Proof.
  induction l as [|y l IH]; simpl; [done|].
  destruct (win_start w <? win_start y); [done|].
  rewrite IH. apply Permutation_swap.
Qed.

Lemma sort_by_start_acc_perm l acc :
  foldl (fun acc w => insert_by_start w acc) acc l ≡ₚ acc ++ l.
Proof.
  revert acc. induction l as [|w l IH]; intros acc; simpl.
  - by rewrite app_nil_r.
  - rewrite IH, insert_by_start_perm. simpl. apply Permutation_middle.
Qed.

Lemma insert_by_start_sorted w l :
  StronglySorted (fun a b => win_start a <= win_start b) l ->
  StronglySorted (fun a b => win_start a <= win_start b) (insert_by_start w l).
Proof.
  induction 1 as [|y l Hs IH Hall]; simpl; [repeat constructor|].
  destruct (Z.ltb_spec (win_start w) (win_start y)) as [Hlt|Hge].
  - constructor; [by constructor|]. constructor; [lia|].
    eapply Forall_impl; [exact Hall|]. intros z Hz. simpl in *. lia.
  - constructor; [done|]. rewrite insert_by_start_perm.
    constructor; [lia|done].
Qed.

Lemma sort_by_start_acc_sorted l acc :
  StronglySorted (fun a b => win_start a <= win_start b) acc ->
  StronglySorted (fun a b => win_start a <= win_start b)
                 (foldl (fun acc w => insert_by_start w acc) acc l).
Proof.
  revert acc. induction l as [|w l IH]; intros acc Hacc; simpl; [done|].
  apply IH. by apply insert_by_start_sorted.
Qed.

Lemma filter_start_none s (l : list shift_window) :
  Forall (fun v => win_start v <> s) l ->
  filter (fun v => win_start v = s) l = [].
Proof.
  induction 1 as [|y l Hy _ IH]; [done|].
  rewrite filter_cons. by destruct (decide (win_start y = s)).
Qed.

Lemma insert_by_start_stable s w l :
  StronglySorted (fun a b => win_start a <= win_start b) l ->
  filter (fun v => win_start v = s) (insert_by_start w l)
  = filter (fun v => win_start v = s) (l ++ [w]).
Proof.
  induction 1 as [|y l Hs IH Hall]; simpl; [done|].
  destruct (Z.ltb_spec (win_start w) (win_start y)) as [Hlt|Hge].
  - change (y :: l ++ [w]) with ((y :: l) ++ [w]).
    rewrite filter_app, (filter_cons _ w (y :: l)), (filter_cons _ w []), filter_nil.
    destruct (decide (win_start w = s)) as [Hw|Hw]; [|by rewrite app_nil_r].
    rewrite filter_start_none; [done|].
    constructor; [lia|].
    eapply Forall_impl; [exact Hall|]. intros z Hz. simpl in *. lia.
  - by rewrite !filter_cons, IH.
Qed.

Lemma sort_by_start_acc_stable s l acc :
  StronglySorted (fun a b => win_start a <= win_start b) acc ->
  filter (fun v => win_start v = s)
         (foldl (fun acc w => insert_by_start w acc) acc l)
  = filter (fun v => win_start v = s) (acc ++ l).
Proof.
  revert acc. induction l as [|w l IH]; intros acc Hacc; simpl.
  - by rewrite app_nil_r.
  - rewrite IH by (by apply insert_by_start_sorted).
    rewrite filter_app, insert_by_start_stable by done.
    rewrite <- filter_app, <- app_assoc. done.
Qed.

Lemma wins_of_rows_elem lid day rows w :
  w ∈ wins_of_rows lid day rows <->
  exists r, r ∈ rows /\ sch_line_id r = lid /\
            start_time r = Some (win_start w) /\
            end_time r = Some (win_end w) /\
            w = (sch_shift_id r, day, win_start w, win_end w).
Proof.
  unfold wins_of_rows. rewrite list_elem_of_omap. split.
  - intros (r & Hr & Hf). exists r. split; [done|].
    case_bool_decide as Hl; [|done].
    destruct (start_time r) as [st|]; [|done].
    destruct (end_time r) as [en|]; [|done].
    injection Hf as <-. done.
  - intros (r & Hr & Hl & Hs & He & Hw). exists r. split; [done|].
    rewrite bool_decide_eq_true_2, Hs, He by done. by rewrite Hw at 3.
Qed.

(** X11: the windows a load leaves for a line are in ascending order of
    their starts, windows with the same start keep the order of the rows
    (yesterday's before today's), and a window is listed exactly when a
    schedule row of the line with both times gives it. *)
Theorem load_shifts_sorted (lid : Z) (yday today : string)
        (yrows trows : list schedule_row) :
  let wins := load_shifts lid yday today yrows trows in
  StronglySorted (fun a b => win_start a <= win_start b) wins /\
  (forall s, filter (fun v => win_start v = s) wins
             = filter (fun v => win_start v = s)
                      (wins_of_rows lid yday yrows
                       ++ wins_of_rows lid today trows)) /\
  (forall w, w ∈ wins <->
     exists day rows r,
       ((day = yday /\ rows = yrows) \/ (day = today /\ rows = trows)) /\
       r ∈ rows /\ sch_line_id r = lid /\
       start_time r = Some (win_start w) /\ end_time r = Some (win_end w) /\
       w = (sch_shift_id r, day, win_start w, win_end w)).
Proof.
  cbv zeta. unfold load_shifts, sort_by_start. split; [|split].
  - apply sort_by_start_acc_sorted. constructor.
  - intros s. rewrite sort_by_start_acc_stable by constructor. done.
  - intros w. rewrite sort_by_start_acc_perm. simpl.
    rewrite elem_of_app, !wins_of_rows_elem. split.
    + intros [(r & H)|(r & H)].
      * exists yday, yrows, r. split; [by left|done].
      * exists today, trows, r. split; [by right|done].
    + intros (day & rows & r & [[-> ->]|[-> ->]] & H).
      * left. by exists r.
      * right. by exists r.
Qed.

Lemma active_shift_spec wins now :
  match _active_shift_for_line wins now with
  | Some w => exists pre post, wins = pre ++ w :: post /\ contains now w /\
                               Forall (fun v => ~ contains now v) pre
  | None => Forall (fun v => ~ contains now v) wins
  end.
Proof.
  induction wins as [|w wins IH]; simpl; [constructor|].
  destruct (Z.leb_spec (win_start w) now) as [Hs|Hs];
    [destruct (Z.ltb_spec now (win_end w)) as [He|He]|]; simpl.
  - exists [], wins. split; [done|]. split; [done|constructor].
  - destruct (_active_shift_for_line wins now) as [v|].
    + destruct IH as (pre & post & -> & Hc & Hpre).
      exists (w :: pre), post. split; [done|]. split; [done|].
      constructor; [|done]. unfold contains. lia.
    + constructor; [|done]. unfold contains. lia.
  - destruct (_active_shift_for_line wins now) as [v|].
    + destruct IH as (pre & post & -> & Hc & Hpre).
      exists (w :: pre), post. split; [done|]. split; [done|].
      constructor; [|done]. unfold contains. lia.
    + constructor; [|done]. unfold contains. lia.
Qed.

Lemma last_ended_spec wins now last :
  StronglySorted (fun a b => win_end a <= win_end b) wins ->
  (forall l, last = Some l ->
             win_end l <= now /\ Forall (fun v => win_end l <= win_end v) wins) ->
  match last_ended wins now last with
  | Some w => (w ∈ wins \/ last = Some w) /\ win_end w <= now /\
              forall v, v ∈ wins -> win_end v <= now -> win_end v <= win_end w
  | None => last = None /\ forall v, v ∈ wins -> ~ win_end v <= now
  end.
Proof.
  intros Hs. revert last. induction Hs as [|w wins Hs IH Hall]; intros last Hl; simpl.
  - destruct last as [l|].
    + destruct (Hl l eq_refl) as [Hle _]. split; [by right|]. split; [done|].
      intros v Hv. by apply elem_of_nil in Hv.
    + split; [done|]. intros v Hv. by apply elem_of_nil in Hv.
  - fold (win_end w). destruct (Z.leb_spec (win_end w) now) as [Hw|Hw].
    + specialize (IH (Some w)).
      destruct (last_ended wins now (Some w)) as [w'|].
      * destruct IH as (Hin & Hle & Hmax).
        { intros l [= <-]. done. }
        split; [destruct Hin as [?|[= ->]]; left; [by right|by left]|].
        split; [done|].
        intros v Hv Hve. apply elem_of_cons in Hv as [->|Hv]; [|by apply Hmax].
        destruct Hin as [Hin|[= ->]]; [|lia].
        by apply (proj1 (Forall_forall _ _) Hall).
      * destruct IH as [? _]; [|done]. intros l [= <-]. done.
    + assert (Hnone : forall v, v ∈ w :: wins -> ~ win_end v <= now).
      { intros v Hv. apply elem_of_cons in Hv as [->|Hv]; [lia|].
        pose proof (proj1 (Forall_forall _ _) Hall v Hv). simpl in *. lia. }
      destruct last as [l|].
      * destruct (Hl l eq_refl) as [Hle _]. split; [by right|]. split; [done|].
        intros v Hv Hve. by apply Hnone in Hve.
      * done.
Qed.

Lemma last_ended_ended wins now last :
  (forall l, last = Some l -> win_end l <= now) ->
  forall w, last_ended wins now last = Some w ->
            win_end w <= now /\ (w ∈ wins \/ last = Some w).
Proof.
  revert last. induction wins as [|v wins IH]; intros last Hl w; simpl.
  - intros ->. split; [by apply Hl|by right].
  - fold (win_end v). destruct (Z.leb_spec (win_end v) now) as [Hv|Hv].
    + intros Hw. apply IH in Hw as [Hle [Hin|[= ->]]].
      * split; [done|]. left. by right.
      * split; [done|]. left. by left.
      * intros l [= <-]. done.
    + intros ->. split; [by apply Hl|by right].
Qed.

(** X12: the active shift of a line is the first window of its list that
    contains the current time (start inclusive, end exclusive), and there
    is none exactly when no window contains it. *)
Theorem active_shift_first_containing (wins : list shift_window) (now_ms : Z) :
  (forall w, _active_shift_for_line wins now_ms = Some w <->
     exists pre post, wins = pre ++ w :: post /\ contains now_ms w /\
                      Forall (fun v => ~ contains now_ms v) pre) /\
  (_active_shift_for_line wins now_ms = None <->
     Forall (fun v => ~ contains now_ms v) wins).
Proof.
  pose proof (active_shift_spec wins now_ms) as Hspec.
  destruct (_active_shift_for_line wins now_ms) as [w0|] eqn:E.
  - destruct Hspec as (pre & post & Hw & Hc & Hpre). split.
    + intros w. split.
      * intros [= <-]. by exists pre, post.
      * intros (pre' & post' & Hw' & Hc' & Hpre'). f_equal.
        rewrite Hw in Hw'. clear E Hw.
        revert pre' Hw' Hpre'. induction Hpre as [|p pre Hp _ IH]; intros pre' Hw' Hpre'.
        -- destruct pre' as [|p' pre']; simpl in Hw'; [by injection Hw'|].
           injection Hw' as -> _. by apply Forall_cons in Hpre' as [? _].
        -- destruct pre' as [|p' pre']; simpl in Hw'.
           ++ injection Hw' as -> _. done.
           ++ injection Hw' as _ Hw'. apply Forall_cons in Hpre' as [_ ?].
              by apply IH with pre'.
    + split; [done|]. intros Hall. rewrite Hw in Hall.
      apply Forall_app in Hall as [_ Hall]. by apply Forall_cons in Hall as [? _].
  - split; [|done]. intros w. split; [done|].
    intros (pre & post & -> & Hc & _).
    apply Forall_app in Hspec as [_ Hall]. by apply Forall_cons in Hall as [? _].
Qed.

(** X13: when the windows of a line are listed by ascending end, the
    shift returned as last ended has ended, at most the grace ago, and no
    ended window ends later; none is returned exactly when every ended
    window ended more than the grace ago. *)
Theorem last_ended_shift_latest (wins : list shift_window)
        (now_ms grace_ms : Z) :
  StronglySorted (fun a b => win_end a <= win_end b) wins ->
  match _last_ended_shift_for_line wins now_ms grace_ms with
  | Some w => w ∈ wins /\ win_end w <= now_ms <= win_end w + grace_ms /\
              forall v, v ∈ wins -> win_end v <= now_ms ->
                        win_end v <= win_end w
  | None => forall v, v ∈ wins -> win_end v <= now_ms ->
                      grace_ms < now_ms - win_end v
  end.
Proof.
  intros Hs. unfold _last_ended_shift_for_line.
  pose proof (last_ended_spec wins now_ms None Hs) as Hspec.
  destruct (last_ended wins now_ms None) as [w|].
  - destruct Hspec as ([Hin|?] & Hle & Hmax); [done| |done].
    fold (win_end w). destruct (Z.leb_spec (now_ms - win_end w) grace_ms) as [Hg|Hg].
    + split; [done|]. split; [lia|done].
    + intros v Hv Hve. specialize (Hmax v Hv Hve). lia.
  - destruct Hspec as [_ Hnone]; [done|]. intros v Hv Hve. by apply Hnone in Hve.
Qed.

Lemma last_ended_shift_latest_witness :
  let wins : list shift_window :=
    [(1, "2025-06-22", 0, 100); (2, "2025-06-22", 100, 200);
     (3, "2025-06-22", 200, 300)] in
  match _last_ended_shift_for_line wins 250 60 with
  | Some w => w ∈ wins /\ win_end w <= 250 <= win_end w + 60 /\
              forall v, v ∈ wins -> win_end v <= 250 -> win_end v <= win_end w
  | None => forall v, v ∈ wins -> win_end v <= 250 -> 60 < 250 - win_end v
  end.
Proof.
  intros wins. apply (last_ended_shift_latest wins 250 60).
  repeat constructor; vm_compute; discriminate.
Defined.

(** X14: the shift a tick finalises and the shift the same tick treats as
    active are never the same window: the first has ended at the current
    time and the second has not. *)
Theorem last_ended_is_not_active (wins wins' : list shift_window)
        (now_ms grace_ms : Z) (w v : shift_window) :
  _last_ended_shift_for_line wins now_ms grace_ms = Some w ->
  _active_shift_for_line wins' now_ms = Some v ->
  win_end w <= now_ms < win_end v /\ w <> v /\
  now_ms - win_end w <= grace_ms /\ w ∈ wins /\ v ∈ wins'.
Proof.
  unfold _last_ended_shift_for_line. intros Hw Hv.
  destruct (last_ended wins now_ms None) as [w'|] eqn:E; [|done].
  fold (win_end w') in Hw.
  destruct (Z.leb_spec (now_ms - win_end w') grace_ms) as [Hg|Hg]; [|done].
  injection Hw as ->.
  apply last_ended_ended in E as [Hle [Hin|?]]; [|done|done].
  pose proof (active_shift_spec wins' now_ms) as Hspec. rewrite Hv in Hspec.
  destruct Hspec as (pre & post & -> & [Hs He] & _).
  split; [lia|]. split; [intros ->; lia|]. split; [done|]. split; [done|].
  apply elem_of_app. right. by left.
Qed.

Lemma last_ended_is_not_active_witness :
  let wins : list shift_window :=
    [(1, "2025-06-22", 0, 100); (2, "2025-06-22", 100, 200)] in
  win_end (1, "2025-06-22", 0, 100) <= 150 < win_end (2, "2025-06-22", 100, 200).
Proof.
  intros wins.
  exact (proj1 (last_ended_is_not_active wins wins 150 60
                  (1, "2025-06-22", 0, 100) (2, "2025-06-22", 100, 200)
                  eq_refl eq_refl)).
Defined.
End ShiftWindows.


(** ** The history scan and the rows of a tick *)

Section OvercycleScan.
Import OvercyclePublisher OvercycleTick.

Lemma ct_index_hint_free segs t h1 h2 :
  sorted_segments segs -> ct_index t segs h1 = ct_index t segs h2.
Proof.
  intros Hs. destruct segs as [|sg segs].
  - unfold ct_index, hint_index. simpl.
    rewrite !bool_decide_eq_false_2 by lia. done.
  - assert (Hne : sg :: segs <> []) by done.
    destruct (ct_index_spec (sg :: segs) t h1 Hne Hs) as (_ & Hin1 & Hb1).
    destruct (ct_index_spec (sg :: segs) t h2 Hne Hs) as (_ & Hin2 & Hb2).
    destruct (Z.le_gt_cases (seg_start (sg :: segs) 0) t) as [Hle|Hgt].
    + apply (in_force_unique (sg :: segs) t); auto.
    + rewrite Hb1, Hb2 by lia. done.
Qed.

Lemma ct_at_hint_free_eq segs t h1 h2 :
  sorted_segments segs -> _ct_at t segs h1 = _ct_at t segs h2.
Proof.
  intros Hs. unfold _ct_at. cbv zeta.
  by rewrite (ct_index_hint_free segs t h1 h2 Hs).
Qed.

Lemma oc_step_counters segs a1 a2 row :
  sorted_segments segs -> counters a1 = counters a2 ->
  counters (oc_step segs a1 row) = counters (oc_step segs a2 row).
Proof.
  intros Hs Hc. destruct row as [ts [act|]]; [|done].
  unfold oc_step; simpl.
  rewrite (ct_at_hint_free_eq segs ts (idx a1) (idx a2) Hs).
  destruct (_ct_at ts segs (idx a2)) as [[ct mult] i].
  unfold counters in Hc. injection Hc as Hcnt Hmx Hsum.
  destruct (Num.Qleb ct 0); [by unfold counters; simpl; congruence|].
  destruct (Num.Qleb act ct); [by unfold counters; simpl; congruence|].
  destruct (Num.Qltb (ct * mult) act); [by unfold counters; simpl; congruence|].
  unfold counters; simpl. by rewrite Hcnt, Hmx, Hsum.
Qed.

(** X15: on segments sorted by start, the lookup hint is only a
    shortcut: the segment found does not depend on it, and neither do the
    count, the largest overage and the summed overage of a history
    scan. *)
Theorem ct_at_hint_free (segs : list segment) :
  sorted_segments segs ->
  (forall t h1 h2, _ct_at t segs h1 = _ct_at t segs h2) /\
  (forall rows a1 a2, counters a1 = counters a2 ->
     counters (foldl (oc_step segs) a1 rows)
     = counters (foldl (oc_step segs) a2 rows)).
Proof.
  intros Hs. split; [intros; by apply ct_at_hint_free_eq|].
  induction rows as [|row rows IH]; intros a1 a2 Hc; simpl; [done|].
  apply IH. by apply oc_step_counters.
Qed.

Lemma ct_at_hint_free_witness :
  (forall t h1 h2, _ct_at t two_segments h1 = _ct_at t two_segments h2) /\
  (forall rows a1 a2, counters a1 = counters a2 ->
     counters (foldl (oc_step two_segments) a1 rows)
     = counters (foldl (oc_step two_segments) a2 rows)).
Proof.
  apply (ct_at_hint_free two_segments).
  intros i j Hij. simpl in Hij.
  destruct i as [|[|i]]; destruct j as [|[|j]]; vm_compute; try lia;
    discriminate.
Defined.

Lemma oc_step_bound segs n a (row : hist_row) :
  oc_bound n a ->
  oc_bound (n + match row.2 with Some _ => 1 | None => 0 end)
           (oc_step segs a row).
Proof.
  intros (Hc & Hm & Hs). destruct row as [ts [act|]]; simpl.
  2:{ unfold oc_step; simpl. split; [lia|done]. }
  unfold oc_step; simpl.
  destruct (_ct_at ts segs (idx a)) as [[ct mult] i].
  assert (Hskip : oc_bound (n + 1)
            {| cnt := cnt a; mx := mx a; sum_over := sum_over a; idx := i |}).
  { split; [simpl; lia|done]. }
  destruct (Num.Qleb ct 0); [done|].
  destruct (Num.Qleb act ct) eqn:E1; [done|].
  destruct (Num.Qltb (ct * mult) act); [done|].
  apply Qleb_false in E1.
  unfold oc_bound; simpl. split; [lia|].
  assert (Hcq : (0 <= inject_Z (cnt a))%Q)
    by (change 0%Q with (inject_Z 0); rewrite <- Zle_Qle; lia).
  rewrite inject_Z_plus. change (inject_Z 1) with 1%Q.
  destruct (Num.Qltb (mx a) (act - ct)) eqn:E2.
  - apply Qltb_true in E2. split; [lra|]. nra.
  - apply Qltb_false in E2. split; [lra|]. nra.
Qed.

Lemma oc_fold_bound segs (rows : list hist_row) n a :
  oc_bound n a ->
  oc_bound (n + Z.of_nat (length (omap snd rows))) (foldl (oc_step segs) a rows).
Proof.
  revert n a. induction rows as [|row rows IH]; intros n a Ha.
  - simpl. by rewrite Z.add_0_r.
  - cbn [foldl]. destruct row as [ts [act|]].
    + change (omap snd ((ts, Some act) :: rows)) with (act :: omap snd rows).
      rewrite length_cons, Nat2Z.inj_succ.
      replace (n + Z.succ (Z.of_nat (length (omap snd rows))))
        with (n + 1 + Z.of_nat (length (omap snd rows))) by lia.
      apply IH. apply (oc_step_bound segs n a (ts, Some act) Ha).
    + change (omap snd ((ts, None) :: rows)) with (omap snd rows).
      apply IH. pose proof (oc_step_bound segs n a (ts, None) Ha) as Hb.
      simpl in Hb. by rewrite Z.add_0_r in Hb.
Qed.

(** X16: a history scan counts at most as many overcycle events as the
    history has readable samples, and the summed overage is at most the
    count times the largest single overage. *)
Theorem scan_history_bounds (segs : list segment)
        (ds : option (list hist_row)) :
  let r := scan_history segs ds in
  0 <= cnt r <= Z.of_nat (length (omap snd (default [] ds))) /\
  (sum_over r <= inject_Z (cnt r) * mx r)%Q /\
  (ds = None \/ segs = [] -> r = oc_init).
Proof.
  cbv zeta.
  assert (H0 : oc_bound 0 oc_init).
  { unfold oc_bound, oc_init; simpl. split; [lia|]. split; lra. }
  split; [|split].
  - unfold scan_history. destruct segs as [|sg segs]; [simpl; lia|].
    destruct ds as [rows|]; [|simpl; lia].
    apply (oc_fold_bound (sg :: segs) rows) in H0. apply H0.
  - unfold scan_history. destruct segs as [|sg segs]; [apply H0|].
    destruct ds as [rows|]; [|apply H0].
    apply (oc_fold_bound (sg :: segs) rows) in H0. apply H0.
  - intros [->| ->]; unfold scan_history; [by destruct segs|done].
Qed.

Lemma station_delta_rows cs qh ht st shid sdate ss a b se inc r :
  r ∈ station_delta cs qh ht st shid sdate ss a b se inc ->
  ar_station_id r = station_id st /\ ar_line_id r = line_id st /\
  ar_shift_id r = shid /\ ar_shift_date r = sdate /\
  shift_start_local r = ss /\ shift_end_local r = se /\
  as_of_local r = b /\ slot_duration_min r = minutes_between ss b /\
  is_final r = None.
Proof.
  unfold station_delta. cbv zeta. destruct (_ || _).
  - intros ->%list_elem_of_singleton. done.
  - intros Hr. by apply elem_of_nil in Hr.
Qed.

Lemma station_delta_seeded cs qh ht st shid sdate ss a b se inc :
  station_id st ∈ inc \/ ht (station_id st) = true ->
  exists r, station_delta cs qh ht st shid sdate ss a b se inc = [r].
Proof.
  intros Hseed. unfold station_delta. cbv zeta.
  assert (E : bool_decide (station_id st ∈ inc) || ht (station_id st) = true).
  { destruct Hseed as [Hin|Hin].
    - by rewrite bool_decide_eq_true_2.
    - rewrite Hin. apply orb_true_r. }
  rewrite E, orb_true_r. by eexists.
Qed.

Lemma station_delta_length cs qh ht st shid sdate ss a b se inc :
  (length (station_delta cs qh ht st shid sdate ss a b se inc) <= 1)%nat.
Proof. unfold station_delta. cbv zeta. destruct (_ || _); simpl; lia. Qed.

Lemma compute_deltas_row_fields cs qh ht sts shid sdate ss a b se inc r :
  r ∈ _compute_deltas_for_line cs qh ht sts shid sdate ss a b se inc ->
  as_of_local r = b /\ ar_shift_id r = shid /\ ar_shift_date r = sdate /\
  shift_start_local r = ss /\ shift_end_local r = se /\
  slot_duration_min r = minutes_between ss b /\ is_final r = None.
Proof.
  intros Hr. unfold _compute_deltas_for_line in Hr.
  apply list_elem_of_In, in_flat_map in Hr as (st & Hst & Hr).
  apply list_elem_of_In in Hr.
  by apply station_delta_rows in Hr as (? & ? & ? & ? & ? & ? & ? & ? & ?).
Qed.

(** X17: the delta computation returns at most one anchor row per
    station, in the order of the stations; each row is dated at the end
    [b] of the window and carries the shift's identity; and every station
    that already has a row in the store or has a CycleTime tag gets a
    row. *)
Theorem compute_deltas_rows
        (ct_segments : Z -> Z -> Z -> list segment)
        (query_ct_history : Z -> Z -> Z -> option (list hist_row))
        (has_ct_tag : Z -> bool)
        (sts : list station) (shid : Z) (sdate : string)
        (shift_start a b shift_end : Z) (include_zero_for : gset Z) :
  let rows := _compute_deltas_for_line ct_segments query_ct_history
                has_ct_tag sts shid sdate shift_start a b shift_end
                include_zero_for in
  (ar_station_id <$> rows) `sublist_of` (station_id <$> sts) /\
  (forall r, r ∈ rows ->
     as_of_local r = b /\ ar_shift_id r = shid /\ ar_shift_date r = sdate /\
     shift_start_local r = shift_start /\ shift_end_local r = shift_end /\
     slot_duration_min r = minutes_between shift_start b /\
     is_final r = None /\
     exists st, st ∈ sts /\ ar_station_id r = station_id st /\
                ar_line_id r = line_id st) /\
  (forall st, st ∈ sts ->
     station_id st ∈ include_zero_for \/ has_ct_tag (station_id st) = true ->
     exists r, r ∈ rows /\ ar_station_id r = station_id st).
Proof.
  cbv zeta. unfold _compute_deltas_for_line. split; [|split].
  - induction sts as [|st sts IH]; simpl; [done|].
    rewrite fmap_app.
    pose proof (station_delta_length ct_segments query_ct_history has_ct_tag
                  st shid sdate shift_start a b shift_end include_zero_for) as Hlen.
    destruct (station_delta ct_segments query_ct_history has_ct_tag st shid
                sdate shift_start a b shift_end include_zero_for)
      as [|r [|r' l]] eqn:E; simpl in *; [|clear Hlen|lia].
    + by apply sublist_cons.
    + assert (Hr : r ∈ station_delta ct_segments query_ct_history has_ct_tag
                     st shid sdate shift_start a b shift_end include_zero_for)
        by (rewrite E; by left).
      apply station_delta_rows in Hr as (-> & _). by apply sublist_skip.
  - intros r Hr. apply list_elem_of_In, in_flat_map in Hr as (st & Hst & Hr).
    apply list_elem_of_In in Hst, Hr.
    apply station_delta_rows in Hr as (? & ? & ? & ? & ? & ? & ? & ? & ?).
    repeat (split; [done|]). by exists st.
  - intros st Hst Hseed.
    destruct (station_delta_seeded ct_segments query_ct_history has_ct_tag st
                shid sdate shift_start a b shift_end include_zero_for Hseed)
      as [r Hr].
    exists r.
    assert (Hin : r ∈ station_delta ct_segments query_ct_history has_ct_tag
                    st shid sdate shift_start a b shift_end include_zero_for)
      by (rewrite Hr; by left).
    split.
    + apply list_elem_of_In, in_flat_map. exists st.
      split; by apply list_elem_of_In.
    + by apply station_delta_rows in Hin as (-> & _).
Qed.

Lemma latest_acc_spec (rows : list (Z * option Z)) (best : option Z) :
  let f := fun (best : option Z) (r : Z * option Z) =>
             match r.2, best with
             | Some t, None => Some t
             | Some t, Some b0 => if t >? b0 then Some t else best
             | None, _ => best
             end in
  match foldl f best rows with
  | Some m =>
      (best = Some m \/ exists sid, (sid, Some m) ∈ rows) /\
      (forall b0, best = Some b0 -> b0 <= m) /\
      (forall sid t, (sid, Some t) ∈ rows -> t <= m)
  | None => best = None /\ forall sid t, (sid, Some t) ∉ rows
  end.
Proof.
  cbv zeta. revert best. induction rows as [|[sid [t|]] rows IH]; intros best; simpl.
  - destruct best as [b0|].
    + split; [by left|]. split; [by intros ? [= <-]|].
      intros ? ? Hin. by apply elem_of_nil in Hin.
    + split; [done|]. intros ? ? Hin. by apply elem_of_nil in Hin.
  - set (best' := match best with
                  | Some b0 => if t >? b0 then Some t else best
                  | None => Some t
                  end).
    assert (Hb : exists m0, best' = Some m0 /\ t <= m0 /\
                            (forall b0, best = Some b0 -> b0 <= m0) /\
                            (best = Some m0 \/ m0 = t)).
    { subst best'. destruct best as [b0|].
      - destruct (Z.gtb_spec t b0).
        + exists t. split; [done|]. split; [lia|]. split; [|by right].
          intros ? [= <-]. lia.
        + exists b0. split; [done|]. split; [lia|]. split; [|by left].
          by intros ? [= <-].
      - exists t. split; [done|]. split; [lia|]. split; [done|by right]. }
    destruct Hb as (m0 & Hb & Ht & Hold & Hsrc).
    specialize (IH best'). fold best'.
    destruct (foldl _ best' rows) as [m|].
    + destruct IH as (Hin & Hge & Hall).
      specialize (Hge m0 Hb).
      split; [|split].
      * destruct Hin as [Hin|[sid' Hin]].
        -- rewrite Hb in Hin. injection Hin as <-.
           destruct Hsrc as [?| ->]; [by left|]. right. exists sid. by left.
        -- right. exists sid'. by right.
      * intros b0 Hb0. specialize (Hold b0 Hb0). lia.
      * intros sid' t' Hin'. apply elem_of_cons in Hin' as [[= -> ->]|Hin'].
        -- lia.
        -- by apply (Hall sid').
    + destruct IH as [IH _]. congruence.
  - specialize (IH best).
    destruct (foldl _ best rows) as [m|].
    + destruct IH as (Hin & Hge & Hall). split; [|split; [done|]].
      * destruct Hin as [?|[sid' ?]]; [by left|]. right. exists sid'. by right.
      * intros sid' t' Hin'. apply elem_of_cons in Hin' as [[=]|Hin'].
        by apply (Hall sid').
    + destruct IH as [-> Hno]. split; [done|].
      intros sid' t' Hin'. apply elem_of_cons in Hin' as [[=]|Hin'].
      by apply (Hno sid' t').
Qed.

Lemma first_some_spec (l : list (option Z)) :
  match first_some l with
  | Some t => exists pre post, l = pre ++ Some t :: post /\ Forall (fun o => o = None) pre
  | None => Forall (fun o => o = None) l
  end.
Proof.
  induction l as [|[t|] l IH]; simpl.
  - constructor.
  - exists [], l. split; [done|constructor].
  - fold (first_some l). destruct (first_some l) as [t|].
    + destruct IH as (pre & post & -> & Hpre).
      exists (None :: pre), post. split; [done|]. by constructor.
    + by constructor.
Qed.

(** X18: the anchor from which a tick continues is the first non-null
    watermark of the line; without one it is the latest as-of time among
    the station rows of the shift, and without any it is the shift
    start. *)
Theorem line_last_asof_chain (v : store_view) (shift_start : Z) :
  let r := _line_last_asof v shift_start in
  (forall rows t, last_as_of_rows v = Some rows -> first_some rows = Some t ->
     r = t /\ exists pre post, rows = pre ++ Some t :: post /\
                               Forall (fun o => o = None) pre) /\
  ((last_as_of_rows v = None \/
    exists rows, last_as_of_rows v = Some rows /\
                 Forall (fun o => o = None) rows) ->
   match station_cum_rows v with
   | Some rows =>
       (forall sid t, (sid, Some t) ∈ rows -> t <= r) /\
       ((exists sid, (sid, Some r) ∈ rows) \/
        (r = shift_start /\ forall sid t, (sid, Some t) ∉ rows))
   | None => r = shift_start
   end).
Proof.
  cbv zeta. unfold _line_last_asof. split.
  - intros rows t -> Ht. rewrite Ht. split; [done|].
    pose proof (first_some_spec rows) as Hs. by rewrite Ht in Hs.
  - intros Hnone.
    assert (E : match last_as_of_rows v with
                | Some rows => first_some rows
                | None => None
                end = None).
    { destruct Hnone as [->|(rows & -> & Hall)]; [done|].
      pose proof (first_some_spec rows) as Hs.
      destruct (first_some rows) as [t|]; [|done].
      destruct Hs as (pre & post & -> & _).
      apply Forall_app in Hall as [_ Hall]. by apply Forall_cons in Hall as [? _]. }
    rewrite E. destruct (station_cum_rows v) as [rows|]; [|done].
    pose proof (latest_acc_spec rows None) as Hl. cbv zeta in Hl.
    unfold latest. destruct (foldl _ None rows) as [m|]; simpl.
    + destruct Hl as ([?|Hin] & _ & Hall); [done|]. split; [done|by left].
    + destruct Hl as [_ Hno]. split; [|by right].
      intros sid t Hin. by apply Hno in Hin.
Qed.

Lemma set_final_rows f rows :
  Forall (fun r => is_final r = Some f) (set_final f <$> rows).
Proof. apply Forall_fmap, Forall_true. done. Qed.


(** X19: a station batch written by a tick is never empty.  The rows
    written for the shift that just ended carry [is_final = 1] and are
    dated at the shift end, which has passed; the rows written for the
    active shift carry [is_final = 0] and are dated at the current time,
    which lies inside the shift.  When the rows the store already holds
    cannot be read, no batch is written at all. *)
Theorem station_batches_tagged
        (ct_segments : Z -> Z -> Z -> list segment)
        (query_ct_history : Z -> Z -> Z -> option (list hist_row))
        (has_ct_tag : Z -> bool) (H : gmap Z string)
        (lid : Z) (sts : list station) (wins : list shift_window)
        (now_ms : Z) (v : store_view) :
  Forall (fun e =>
            match station_rows_of e with
            | Some rows =>
                rows <> [] /\ is_Some (station_cum_rows v) /\
                Forall (fun r => is_final r = Some 1 /\
                                 as_of_local r = shift_end_local r /\
                                 shift_end_local r <= now_ms) rows
            | None => True
            end)
         (finalize_prior_shift ct_segments query_ct_history has_ct_tag H
                               lid sts wins now_ms v) /\
  Forall (fun e =>
            match station_rows_of e with
            | Some rows =>
                rows <> [] /\ is_Some (station_cum_rows v) /\
                Forall (fun r => is_final r = Some 0 /\
                                 as_of_local r = now_ms /\
                                 shift_start_local r <= now_ms
                                   < shift_end_local r) rows
            | None => True
            end)
         (current_shift ct_segments query_ct_history has_ct_tag H
                        lid sts wins now_ms v).
Proof.
  split.
  - unfold finalize_prior_shift, _last_ended_shift_for_line.
    destruct (last_ended wins now_ms None) as [w|] eqn:E; [|constructor].
    destruct (_ <=? _); [|constructor].
    apply last_ended_ended in E as [Hle _]; [|done].
    destruct w as [[[shid sday] s_ms] e_ms]. unfold Shifts.win_end in Hle.
    simpl in Hle.
    destruct (catch_up ct_segments query_ct_history has_ct_tag sts
                (shid, sday, s_ms, e_ms) v) as [delta|] eqn:Ec; [|constructor].
    apply Forall_app. split.
    + unfold catch_up in Ec. destruct (_ <? _); [|injection Ec as <-; constructor].
      unfold _existing_station_rows in Ec.
      destruct (station_cum_rows v) as [cum|]; [|done].
      injection Ec as <-.
      destruct (set_final 1 <$> _) as [|r rows] eqn:Er; [constructor|].
      constructor; [|constructor]. simpl. split; [done|]. split; [done|].
      rewrite <- Er. apply Forall_fmap, Forall_forall. intros r0 Hr0. simpl.
      pose proof (compute_deltas_row_fields ct_segments
        query_ct_history has_ct_tag sts shid sday s_ms
        (_line_last_asof v s_ms) e_ms e_ms (list_to_set cum.*1)
        r0 Hr0) as (Ha & _ & _ & _ & He & _).
      split; [done|]. split; [congruence|lia].
    + unfold final_snapshot.
      destruct (match shift_accum v with Some _ => _ | None => _ end);
        [|constructor].
      apply Forall_app. split; [destruct (_ || _); repeat constructor|].
      repeat constructor.
  - unfold current_shift.
    pose proof (active_shift_spec wins now_ms) as Hspec.
    destruct (Shifts._active_shift_for_line wins now_ms) as [w|]; [|constructor].
    destruct Hspec as (_ & _ & _ & [Hs He] & _).
    destruct w as [[[shid sday] s_ms] e_ms].
    unfold Shifts.win_start, Shifts.win_end in Hs, He. simpl in Hs, He.
    destruct (current_delta ct_segments query_ct_history has_ct_tag sts
                (shid, sday, s_ms, e_ms) now_ms v) as [delta|] eqn:Ec;
      [|constructor].
    apply Forall_app. split.
    + unfold current_delta in Ec.
      rewrite (proj2 (Z.ltb_lt now_ms e_ms)) in Ec by done.
      destruct (_ >? _); [|injection Ec as <-; constructor].
      unfold _existing_station_rows in Ec.
      destruct (station_cum_rows v) as [cum|]; [|done].
      injection Ec as <-.
      destruct (set_final 0 <$> _) as [|r rows] eqn:Er; [constructor|].
      constructor; [|constructor]. simpl. split; [done|]. split; [done|].
      rewrite <- Er. apply Forall_fmap, Forall_forall. intros r0 Hr0. simpl.
      pose proof (compute_deltas_row_fields ct_segments
        query_ct_history has_ct_tag sts shid sday s_ms
        (_line_last_asof v s_ms) now_ms e_ms (list_to_set cum.*1)
        r0 Hr0) as (Ha & _ & _ & Hst & He' & _).
      split; [done|]. split; [done|]. lia.
    + unfold current_snapshot.
      destruct (match shift_accum v with Some _ => _ | None => _ end);
        [|constructor].
      apply Forall_app. split; [destruct (_ || _); repeat constructor|].
      repeat constructor.
Qed.

End OvercycleScan.


(** ** Hour and week boundaries, and the rows of a rollup tick *)

Section RollupTicks.
Import ProductionRollup RollupTick.

Lemma hour_multiple_mod q : (HOUR_MS * q) mod HOUR_MS = 0.
Proof. rewrite Z.mul_comm. apply Z_mod_mult. Qed.

Lemma hour_aligned h : h mod HOUR_MS = 0 -> h = HOUR_MS * (h / HOUR_MS).
Proof.
  intros Hh. pose proof (Z_div_mod_eq_full h HOUR_MS). lia.
Qed.

Lemma floor_hour_facts d :
  d = HOUR_MS * (d / HOUR_MS) + d mod HOUR_MS /\
  0 <= d mod HOUR_MS < HOUR_MS /\
  _floor_hour_utc d = HOUR_MS * (d / HOUR_MS).
Proof.
  pose proof (Z_div_mod_eq_full d HOUR_MS) as E.
  pose proof (Z.mod_pos_bound d HOUR_MS ltac:(done)) as B.
  unfold _floor_hour_utc. lia.
Qed.

(** X21: the hour floor of a time is the start of the UTC hour that
    contains it and the hour ceiling is the first hour start at or after
    it; the two coincide exactly on an hour start, and applying either
    again changes nothing. *)
Theorem floor_ceil_hour (d : Z) :
  let f := _floor_hour_utc d in
  let c := _ceil_hour_utc d in
  f mod HOUR_MS = 0 /\ c mod HOUR_MS = 0 /\
  f <= d < f + HOUR_MS /\ d <= c < d + HOUR_MS /\
  (c = f <-> d mod HOUR_MS = 0) /\ (c = f \/ c = f + HOUR_MS) /\
  _floor_hour_utc f = f /\ _ceil_hour_utc c = c /\
  (forall h, h mod HOUR_MS = 0 -> h <= d -> h <= f) /\
  (forall h, h mod HOUR_MS = 0 -> d <= h -> c <= h).
Proof.
  cbv zeta.
  destruct (floor_hour_facts d) as (Ed & Br & Ef).
  assert (Hf : _floor_hour_utc d mod HOUR_MS = 0)
    by (rewrite Ef; apply hour_multiple_mod).
  assert (Hc : _ceil_hour_utc d mod HOUR_MS = 0).
  { unfold _ceil_hour_utc. destruct (Z.eqb_spec (d mod HOUR_MS) 0); simpl; [done|].
    rewrite Ef. replace (HOUR_MS * (d / HOUR_MS) + HOUR_MS)
      with (HOUR_MS * (d / HOUR_MS + 1)) by lia.
    apply hour_multiple_mod. }
  assert (Hcv : _ceil_hour_utc d
                = if negb (d mod HOUR_MS =? 0)
                  then _floor_hour_utc d + HOUR_MS else d) by done.
  assert (HH : HOUR_MS = 3600000) by done.
  split; [done|]. split; [done|].
  split; [lia|].
  split; [destruct (Z.eqb_spec (d mod HOUR_MS) 0); simpl in Hcv; lia|].
  split; [destruct (Z.eqb_spec (d mod HOUR_MS) 0); simpl in Hcv; lia|].
  split; [destruct (Z.eqb_spec (d mod HOUR_MS) 0); simpl in Hcv; lia|].
  split; [unfold _floor_hour_utc at 1; rewrite Hf; lia|].
  split; [unfold _ceil_hour_utc at 1; rewrite Hc; done|].
  split.
  - intros h Hh Hle. apply hour_aligned in Hh.
    destruct (Z.le_gt_cases (h / HOUR_MS) (d / HOUR_MS)); lia.
  - intros h Hh Hle. apply hour_aligned in Hh.
    destruct (Z.eqb_spec (d mod HOUR_MS) 0); simpl in Hcv; [lia|].
    destruct (Z.le_gt_cases (h / HOUR_MS) (d / HOUR_MS)); lia.
Qed.

(** X22: for a configured first day of the week between 1 and 7, the week
    start of a day is the latest day at or before it that falls on that
    weekday; it lies at most six days back, and every day of the
    following week maps to the same week start. *)
Theorem week_start_is_configured_weekday (day dow_1to7 : Z) :
  1 <= dow_1to7 <= 7 ->
  let w := _week_start_local_sys day dow_1to7 in
  day_of_week w = dow_1to7 /\ day - 6 <= w <= day /\
  (forall d, w <= d <= w + 6 -> _week_start_local_sys d dow_1to7 = w) /\
  _week_start_local_sys (w + 7) dow_1to7 = w + 7.
Proof.
  intros Hd. cbv zeta. unfold _week_start_local_sys, day_of_week. cbv zeta.
  repeat split.
  - Z.div_mod_to_equations. lia.
  - Z.div_mod_to_equations. lia.
  - Z.div_mod_to_equations. lia.
  - intros d Hw. Z.div_mod_to_equations. lia.
  - Z.div_mod_to_equations. lia.
Qed.

Lemma week_start_is_configured_weekday_witness :
  1 <= 2 <= 7 /\
  day_of_week (_week_start_local_sys 20000 2) = 2 /\
  20000 - 6 <= _week_start_local_sys 20000 2 <= 20000.
Proof.
  split; [lia|].
  pose proof (week_start_is_configured_weekday 20000 2 ltac:(lia)) as H.
  cbv zeta in H. exact (conj (proj1 H) (proj1 (proj2 H))).
Defined.

Lemma accumulate_last_peak s curr : last_peak (accumulate s curr) = curr.
Proof.
  unfold accumulate. destruct (Z.geb_spec curr (last_peak s)); [|done].
  destruct (Z.gtb_spec (curr - last_peak s) 0); simpl; lia.
Qed.

Lemma idle_flush_state sid s now_ms :
  hour_start_utc (idle_flush sid s now_ms).1 = hour_start_utc s /\
  last_peak (idle_flush sid s now_ms).1 = last_peak s /\
  hour_total (idle_flush sid s now_ms).1 = hour_total s /\
  shift_total (idle_flush sid s now_ms).1 = shift_total s /\
  week_total (idle_flush sid s now_ms).1 = week_total s.
Proof. unfold idle_flush. by destruct (_ >=? _). Qed.

(** X23: a tick writes at most one hourly row for a station.  When the
    hour has changed it is the closed row of the previous hour, with the
    total and the end count as the previous tick left them; the new hour
    starts at zero and the counter movement seen by this tick enters no
    total.  Within the same hour the only row is the open one, written
    exactly when the last flush is at least the idle interval ago.  After
    every tick the baseline is the value just read. *)
Theorem tick_hour_rows (sid : Z) (s : station_state) (now_ms cur_hr : Z)
        (reading : option Z) (anchor : option Q) :
  let r := tick_hour sid s now_ms cur_hr reading anchor in
  let s' := r.1.1 in
  let rows := r.1.2 in
  let wms := r.2 in
  hour_start_utc s' = cur_hr /\
  last_peak s' = default (last_peak s) reading /\
  (length rows <= 1)%nat /\
  Forall (fun row => 0 <= hr_total_parts row) rows /\
  (hour_start_utc s <> cur_hr ->
     (exists row, rows = [row] /\ hr_is_closed row = 1 /\
        hr_hour_start_utc_ms row = hour_start_utc s /\
        hr_total_parts row = Z.max 0 (hour_total s) /\
        hr_end_count row = Some (last_peak s)) /\
     length wms = 1%nat /\
     hour_total s' = 0 /\ shift_total s' = shift_total s /\
     week_total s' = week_total s) /\
  (hour_start_utc s = cur_hr ->
     wms = [] /\
     Forall (fun row => hr_is_closed row = 0 /\
                        hr_hour_start_utc_ms row = cur_hr /\
                        hr_end_count row = None /\
                        hr_total_parts row = Z.max 0 (hour_total s')) rows /\
     (rows <> [] <-> WRITE_IDLE_SEC * 1000 <= now_ms - hour_last_flush s)).
Proof.
  cbv zeta. unfold tick_hour. cbv zeta.
  set (curr := default (last_peak s) reading).
  unfold hour_rollover.
  case_bool_decide as Hh.
  - set (s1 := {| line_id := line_id s; tag := tag s; hour_start_utc := cur_hr;
                  hour_start_count := _; hour_total := 0; last_peak := curr;
                  hour_last_flush := now_ms; shift_id := shift_id s;
                  shift_date := shift_date s;
                  shift_start_count := shift_start_count s;
                  shift_total := shift_total s;
                  week_start_local := week_start_local s;
                  week_total := week_total s;
                  past_shift_done_keys := past_shift_done_keys s |}).
    assert (Ha : accumulate s1 curr = s1).
    { change curr with (last_peak s1) at 1. apply accumulate_frozen. }
    rewrite Ha. unfold idle_flush.
    change (hour_last_flush s1) with now_ms. rewrite Z.sub_diag.
    change (0 >=? WRITE_IDLE_SEC * 1000) with false. simpl.
    split; [done|]. split; [done|]. split; [lia|].
    split; [repeat constructor; simpl; lia|].
    split; [|done]. intros _. split; [|done]. by eexists.
  - pose proof (accumulate_keeps_hour s curr) as Hk.
    pose proof (accumulate_last_peak s curr) as Hp.
    unfold idle_flush.
    replace (hour_last_flush (accumulate s curr)) with (hour_last_flush s)
      by (unfold accumulate; destruct (_ >=? _); [destruct (_ >? 0)|]; done).
    destruct (Z.geb_spec (now_ms - hour_last_flush s) (WRITE_IDLE_SEC * 1000));
      simpl.
    + split; [congruence|]. split; [done|]. split; [lia|].
      split; [repeat constructor; simpl; lia|].
      split; [done|]. intros _. split; [done|].
      split; [repeat constructor; simpl; congruence|]. split; [lia|done].
    + split; [congruence|]. split; [done|]. split; [lia|].
      split; [constructor|].
      split; [done|]. intros _. split; [done|].
      split; [constructor|]. split; [done|lia].
Qed.

(** X24: the shift part of a tick leaves the station on the shift that
    is current (a window that has already ended counts as none).  It
    writes at most two rows, the closed row of the shift just left first
    and then the open row of the current shift; the open row is written
    on every tick while a shift is current, and nothing changes in the
    state when the shift is the same as before. *)
Theorem tick_shift_rows (queryTagHistory : string -> Z -> Z -> dataset)
        (sid : Z) (s : station_state) (now_ms curr : Z)
        (active : option (Z * string * Z * Z)) :
  let r := tick_shift queryTagHistory sid s now_ms curr active in
  let cur := current_window active now_ms in
  let cur_id := (fun w : Z * string * Z * Z => w.1.1.1) <$> cur in
  let cur_date := (fun w : Z * string * Z * Z => w.1.1.2) <$> cur in
  shift_id r.1 = cur_id /\ shift_date r.1 = cur_date /\
  (forall w, cur = Some w -> active = Some w /\ now_ms < w.2) /\
  (shift_id s = cur_id -> shift_date s = cur_date -> r.1 = s) /\
  exists closed open,
    r.2 = closed ++ open /\ (length closed <= 1)%nat /\
    Forall (fun row => ss_is_closed row = 1 /\
                       Some (ss_shift_id row) = shift_id s /\
                       ss_total_parts row = Z.max 0 (shift_total s) /\
                       ss_end_count row = Some (last_peak s)) closed /\
    (closed <> [] -> shift_id s <> cur_id \/ shift_date s <> cur_date) /\
    match cur with
    | Some w =>
        exists row, open = [row] /\ ss_is_closed row = 0 /\
                    ss_shift_id row = w.1.1.1 /\
                    ss_shift_local_date row = Some w.1.1.2 /\
                    ss_end_count row = None /\ 0 <= ss_total_parts row
    | None => open = []
    end.
Proof.
  cbv zeta. unfold tick_shift. cbv zeta.
  assert (Hcur : forall w, current_window active now_ms = Some w ->
                           active = Some w /\ now_ms < w.2).
  { intros w. unfold current_window. destruct active as [w0|]; [|done].
    destruct (Z.geb_spec now_ms w0.2); [done|]. intros [= <-]. split; [done|lia]. }
  destruct (current_window active now_ms) as [w|] eqn:Ec; simpl.
  - case_bool_decide as Hch; simpl.
    + split; [done|]. split; [done|]. split; [done|].
      split; [intros E1 E2; destruct Hch; congruence|].
      eexists _, _. split; [reflexivity|].
      destruct (shift_id s) as [shid|] eqn:Es;
        [destruct (shift_date s) as [d|] eqn:Ed;
         [case_bool_decide|]|]; simpl.
      all: split; [lia|]; split; [repeat constructor|];
        split; [try done|]; eexists; split; [reflexivity|]; simpl;
        repeat split; lia.
    + assert (Hid : shift_id s = Some w.1.1.1 /\ shift_date s = Some w.1.1.2).
      { split; apply dec_stable; intros Hne; apply Hch; tauto. }
      destruct Hid as [Hid Hdate].
      split; [done|]. split; [done|]. split; [done|]. split; [done|].
      eexists [], _. split; [reflexivity|]. split; [simpl; lia|].
      split; [constructor|]. split; [done|].
      rewrite Hid. eexists. split; [reflexivity|]. simpl.
      repeat split; try done. lia.
  - case_bool_decide as Hch; simpl.
    + split; [done|]. split; [done|]. split; [done|].
      split; [intros E1 E2; destruct Hch; congruence|].
      eexists _, []. split; [reflexivity|].
      destruct (shift_id s) as [shid|] eqn:Es;
        [destruct (shift_date s) as [d|] eqn:Ed;
         [case_bool_decide|]|]; simpl.
      all: split; [lia|]; split; [repeat constructor|]; split; done.
    + assert (Hid : shift_id s = None /\ shift_date s = None).
      { split; apply dec_stable; intros Hne; apply Hch; tauto. }
      destruct Hid as [Hid Hdate].
      split; [done|]. split; [done|]. split; [done|]. split; [done|].
      exists [], []. rewrite Hid. split; [done|]. split; [simpl; lia|].
      split; [constructor|]. done.
Qed.
End RollupTicks.


(** ** Effective cycle time, multiplier and part configuration *)

Section TargetsBounds.
Import ProductionTargetsLive TargetsConfig.

Lemma Qsum_ge_member (l : list Q) (m : Q) :
  Forall (fun x => (0 <= x)%Q) l -> In m l -> (m <= Qsum l)%Q.
Proof.
  induction 1 as [|x l Hx Hl IH]; simpl; [done|].
  assert (H0 : (0 <= Qsum l)%Q).
  { clear IH. induction Hl as [|y l Hy _ IH]; simpl; [lra|]. lra. }
  intros [->|Hin]; [lra|]. specialize (IH Hin). lra.
Qed.

Lemma Qsum_le_bound (l : list Q) (b : Q) :
  Forall (fun x => (x <= b)%Q) l ->
  (Qsum l <= inject_Z (Z.of_nat (length l)) * b)%Q.
Proof.
  induction 1 as [|x l Hx Hl IH];
    [simpl; change (inject_Z (Z.of_nat 0)) with 0%Q; lra|].
  rewrite length_cons, Nat2Z.inj_succ. unfold Z.succ.
  rewrite inject_Z_plus. change (inject_Z 1) with 1%Q.
  change (Qsum (x :: l)) with (x + Qsum l)%Q. lra.
Qed.

Lemma Qsum_ge_bound (l : list Q) (b : Q) :
  Forall (fun x => (b <= x)%Q) l ->
  (inject_Z (Z.of_nat (length l)) * b <= Qsum l)%Q.
Proof.
  induction 1 as [|x l Hx Hl IH];
    [simpl; change (inject_Z (Z.of_nat 0)) with 0%Q; lra|].
  rewrite length_cons, Nat2Z.inj_succ. unfold Z.succ.
  rewrite inject_Z_plus. change (inject_Z 1) with 1%Q.
  change (Qsum (x :: l)) with (x + Qsum l)%Q. lra.
Qed.

Lemma length_pos_Q {A} (x : A) (l : list A) :
  (0 < inject_Z (Z.of_nat (length (x :: l))))%Q.
Proof.
  change 0%Q with (inject_Z 0). rewrite <- Zlt_Qlt. simpl. lia.
Qed.

Lemma blend_between (lam mean par : Q) :
  (0 <= lam)%Q -> (lam <= 1)%Q -> (par <= mean)%Q ->
  (par <= (1 - lam) * mean + lam * par)%Q /\
  ((1 - lam) * mean + lam * par <= mean)%Q.
Proof. intros. split; nra. Qed.

Lemma blend_antitone (l1 l2 mean par : Q) :
  (l1 <= l2)%Q -> (par <= mean)%Q ->
  ((1 - l2) * mean + l2 * par <= (1 - l1) * mean + l1 * par)%Q.
Proof. intros. nra. Qed.

Lemma clamp01_mono (x y : Q) : (x <= y)%Q -> (clamp01 x <= clamp01 y)%Q.
Proof.
  intros Hxy. unfold clamp01.
  destruct (Qmin_cases 1 x) as [[-> ?]|[-> ?]];
    destruct (Qmin_cases 1 y) as [[-> ?]|[-> ?]];
    repeat match goal with
           | |- context [Num.Qmax ?a ?b] =>
               destruct (Qmax_cases a b) as [[-> ?]|[-> ?]]
           end; lra.
Qed.

Lemma mean_between_par_max (c : Q) (rest : list Q) :
  Forall (fun x => (0 < x)%Q) (c :: rest) ->
  let k := inject_Z (Z.of_nat (length (c :: rest))) in
  (0 < Qmaximum c rest / k)%Q /\
  (Qmaximum c rest / k <= Qsum (c :: rest) / k)%Q /\
  (Qsum (c :: rest) / k <= Qmaximum c rest)%Q.
Proof.
  intros Hpos k.
  pose proof (length_pos_Q c rest) as Hk. fold k in Hk.
  destruct (Qmaximum_spec c rest) as [Hin Hub].
  assert (HM : (0 < Qmaximum c rest)%Q).
  { apply (proj1 (Forall_forall _ _) Hpos). by apply list_elem_of_In. }
  assert (Hge : (Qmaximum c rest <= Qsum (c :: rest))%Q).
  { apply Qsum_ge_member; [|done].
    eapply Forall_impl; [exact Hpos|]. intros x Hx. simpl in Hx. lra. }
  assert (Hle : (Qsum (c :: rest) <= k * Qmaximum c rest)%Q).
  { apply Qsum_le_bound. apply Forall_forall. intros x Hx.
    apply Hub. by apply list_elem_of_In. }
  split; [|split].
  - apply Qlt_shift_div_l; [done|]. lra.
  - unfold Qdiv. apply Qmult_le_compat_r; [done|].
    apply Qinv_le_0_compat. lra.
  - apply Qle_shift_div_r; [done|]. lra.
Qed.

(** X25: the effective cycle time is 0 when no entry is positive;
    otherwise it is positive, at most the mean of the positive entries
    (which is at most the largest of them) and at least the largest
    divided by their number; and a larger parallelism factor never gives
    a larger effective cycle time. *)
Theorem ct_eff_between (cts : list Q) (fixtures : Z) (pf : option Q) :
  let pos := filter (fun ct => Num.Qltb 0 ct = true) cts in
  let r := _ct_eff_from_cts cts fixtures pf in
  let k := inject_Z (Z.of_nat (length pos)) in
  (pos = [] -> r = 0%Q) /\
  (forall c rest, pos = c :: rest ->
     (0 < r)%Q /\ (Qmaximum c rest / k <= r)%Q /\
     (r <= Qsum pos / k)%Q /\ (Qsum pos / k <= Qmaximum c rest)%Q) /\
  (forall p1 p2, (p1 <= p2)%Q ->
     (_ct_eff_from_cts cts fixtures (Some p2)
      <= _ct_eff_from_cts cts fixtures (Some p1))%Q).
Proof.
  cbv zeta. unfold _ct_eff_from_cts. cbv zeta.
  assert (Hpos : Forall (fun x => (0 < x)%Q)
                        (filter (fun ct => Num.Qltb 0 ct = true) cts)).
  { apply Forall_forall. intros x Hx. apply list_elem_of_filter in Hx as [Hx _].
    by apply Qltb_true. }
  destruct (filter (fun ct => Num.Qltb 0 ct = true) cts) as [|c [|c2 rest]].
  - split; [done|]. split; [done|]. intros; lra.
  - split; [done|]. split.
    + intros c' rest' [= <- <-].
      pose proof (mean_between_par_max c [] Hpos) as (H1 & H2 & H3).
      cbv zeta in H1, H2, H3.
      apply Forall_cons in Hpos as [Hc _].
      assert (E : (Qsum [c] / inject_Z (Z.of_nat (length [c])) == c)%Q).
      { simpl. field. }
      assert (E2 : (Qmaximum c [] / inject_Z (Z.of_nat (length [c])) == c)%Q).
      { unfold Qmaximum. simpl. field. }
      split; [done|]. split; [rewrite E2; lra|]. split; [rewrite E; lra|].
      rewrite E. unfold Qmaximum. simpl. lra.
    + intros; lra.
  - pose proof (mean_between_par_max c (c2 :: rest) Hpos) as (H1 & H2 & H3).
    cbv zeta in H1, H2, H3.
    set (k := inject_Z (Z.of_nat (length (c :: c2 :: rest)))) in *.
    set (mean := (Qsum (c :: c2 :: rest) / k)%Q) in *.
    set (par := (Qmaximum c (c2 :: rest) / k)%Q) in *.
    split; [done|]. split.
    + intros c' rest' [= <- <-]. fold par.
      destruct pf as [p|].
      * destruct (clamp01_range p) as [L0 L1].
        destruct (blend_between (clamp01 p) mean par L0 L1 H2) as [B1 B2].
        split; [lra|]. split; [done|]. split; [done|done].
      * split; [lra|]. split; [done|]. split; [lra|done].
    + intros p1 p2 Hp. apply blend_antitone; [|done]. by apply clamp01_mono.
Qed.

Lemma Qminimum_spec m l :
  In (Qminimum m l) (m :: l) /\
  forall x, In x (m :: l) -> (Qminimum m l <= x)%Q.
Proof.
  unfold Qminimum. revert m; induction l as [|y l IH]; intros m; simpl.
  - split; [by left|]. intros x [->|[]]. lra.
  - destruct (IH (Num.Qmin m y)) as [Hin Hlb]. split.
    + destruct Hin as [Hin|Hin]; [|by right; right].
      rewrite <- Hin. destruct (Qmin_cases m y) as [[-> _]|[-> _]]; auto.
    + intros x Hx.
      assert (Hm : (foldl Num.Qmin (Num.Qmin m y) l <= Num.Qmin m y)%Q)
        by (apply Hlb; by left).
      destruct Hx as [<-|[<-|Hx]].
      * destruct (Qmin_cases m y) as [[E ?]|[E ?]]; rewrite E in *; lra.
      * destruct (Qmin_cases m y) as [[E ?]|[E ?]]; rewrite E in *; lra.
      * apply Hlb. by right.
Qed.

Lemma mult_vals_positive parts cfg :
  Forall (fun m => (0 < m)%Q) (mult_vals parts cfg).
Proof.
  apply Forall_forall. intros m Hm. unfold mult_vals in Hm.
  apply list_elem_of_omap in Hm as (p & _ & Hp).
  destruct (cfg !! p) as [fv|]; [|done].
  destruct (Num.Qltb 0 fv) eqn:E; [|done].
  injection Hp as <-. by apply Qltb_true.
Qed.

(** X26: the effective overcycle multiplier is 0 when the configuration
    is missing or no part in use has a positive multiplier; otherwise it
    is positive, at least the smallest of the positive multipliers of the
    parts in use and at most their mean. *)
Theorem eff_mult_between (is_missing_cfg : bool) (parts_used : list string)
        (cfg_mults : gmap string Q) (pf : Q) :
  let mv := mult_vals parts_used cfg_mults in
  let r := eff_mult is_missing_cfg parts_used cfg_mults pf in
  let k := inject_Z (Z.of_nat (length mv)) in
  (is_missing_cfg = true \/ mv = [] -> r = 0%Q) /\
  (is_missing_cfg = false -> forall m rest, mv = m :: rest ->
     In (Qminimum m rest) mv /\
     (forall x, In x mv -> (Qminimum m rest <= x)%Q) /\
     (0 < r)%Q /\ (Qminimum m rest <= r)%Q /\ (r <= Qsum mv / k)%Q).
Proof.
  cbv zeta. unfold eff_mult. split.
  - intros [->|E]; [done|]. destruct is_missing_cfg; [done|].
    destruct parts_used; [done|]. by rewrite E.
  - intros -> m rest E.
    pose proof (mult_vals_positive parts_used cfg_mults) as Hpos.
    destruct parts_used as [|p parts]; [done|].
    rewrite E in *. clear E.
    destruct (Qminimum_spec m rest) as [Hin Hlb].
    split; [done|]. split; [done|].
    assert (Hmin : (0 < Qminimum m rest)%Q).
    { apply (proj1 (Forall_forall _ _) Hpos). by apply list_elem_of_In. }
    pose proof (length_pos_Q m rest) as Hk.
    assert (Hmean : (Qminimum m rest
                     <= Qsum (m :: rest) / inject_Z (Z.of_nat (length (m :: rest))))%Q).
    { apply Qle_shift_div_l; [done|]. rewrite Qmult_comm.
      apply Qsum_ge_bound. apply Forall_forall. intros x Hx.
      apply Hlb. by apply list_elem_of_In. }
    destruct rest as [|m2 rest].
    + assert (E : (Qsum [m] / inject_Z (Z.of_nat (length [m])) == m)%Q)
        by (simpl; field).
      unfold Qminimum in *. simpl in *. split; [done|]. split; [lra|].
      rewrite E. lra.
    + cbv zeta.
      set (mean := (Qsum (m :: m2 :: rest)
                    / inject_Z (Z.of_nat (length (m :: m2 :: rest))))%Q) in *.
      set (mn := Qminimum m (m2 :: rest)) in *.
      destruct (clamp01_range pf) as [L0 L1]. unfold clamp01 in L0, L1.
      destruct (blend_between (Num.Qmax 0 (Num.Qmin 1 pf)) mean mn L0 L1 Hmean)
        as [B1 B2].
      split; [lra|]. split; [done|done].
Qed.

Lemma first_increment_from_base rows b :
  first_increment_loop rows (Some b)
  = fst <$> head (filter (fun row => exceeds b row = true) rows).
Proof.
  induction rows as [|[ts [v|]] rows IH]; simpl; [done| |].
  - destruct (Num.Qltb b v) eqn:E.
    + by rewrite filter_cons_True by (unfold exceeds; simpl; exact E).
    + rewrite filter_cons_False by (unfold exceeds; simpl; congruence).
      apply IH.
  - rewrite filter_cons_False by (unfold exceeds; simpl; congruence).
    apply IH.
Qed.

Lemma first_increment_unreadable rows base :
  Forall (fun row : ProductionRollup.hist_row => row.2 = None) rows ->
  first_increment_loop rows base = None.
Proof.
  induction 1 as [|[ts v] rows Hv _ IH]; simpl; [done|].
  simpl in Hv. by rewrite Hv.
Qed.

(** X27: the first-increment search returns the time of the first
    readable sample above the reference and nothing when there is none.
    The reference is the previous value when one is given, else the first
    readable sample of the history; it never moves afterwards.  A failed
    query gives nothing. *)
Theorem first_increment_first_above
        (queryTagHistory : string -> Z -> Z -> ProductionRollup.dataset)
        (tag_path : string) (prev_val : option Q) (start_ms end_ms : Z) :
  let r := _first_increment_ts queryTagHistory tag_path prev_val
                               start_ms end_ms in
  match queryTagHistory tag_path start_ms end_ms with
  | None => r = None
  | Some rows =>
      (forall b, prev_val = Some b ->
         r = fst <$> head (filter (fun row => exceeds b row = true) rows)) /\
      (prev_val = None ->
         (Forall (fun row : ProductionRollup.hist_row => row.2 = None) rows ->
          r = None) /\
         (forall pre ts0 v0 post,
            rows = pre ++ (ts0, Some v0) :: post ->
            Forall (fun row : ProductionRollup.hist_row => row.2 = None) pre ->
            r = fst <$> head (filter (fun row => exceeds v0 row = true) post)))
  end.
Proof.
  cbv zeta. unfold _first_increment_ts.
  destruct (queryTagHistory tag_path start_ms end_ms) as [rows|]; [|done].
  split.
  - intros b ->. apply first_increment_from_base.
  - intros ->. split; [apply first_increment_unreadable|].
    intros pre ts0 v0 post -> Hpre.
    induction Hpre as [|[ts v] pre Hv _ IH]; simpl.
    + apply first_increment_from_base.
    + simpl in Hv. by rewrite Hv.
Qed.

Lemma cfg_fold_spec (rows : list part_ct_row) :
  let r := foldl cfg_step (∅, ∅) rows in
  (forall p ct, r.1 !! p = Some ct ->
     (0 < ct)%Q /\ p <> EmptyString /\
     exists row, row ∈ rows /\ part_number row = Some p /\
                 cycle_time row = Some ct) /\
  (forall p m, r.2 !! p = Some m -> (0 < m)%Q /\ is_Some (r.1 !! p)) /\
  (forall row p ct, row ∈ rows -> part_number row = Some p ->
     p <> EmptyString -> cycle_time row = Some ct -> (0 < ct)%Q ->
     is_Some (r.1 !! p)).
Proof.
  cbv zeta. induction rows as [|row rows IH] using rev_ind.
  - simpl. split; [intros ? ? Hl; by rewrite lookup_empty in Hl|].
    split; [intros ? ? Hl; by rewrite lookup_empty in Hl|].
    intros ? ? ? Hin. by apply elem_of_nil in Hin.
  - rewrite foldl_app. simpl.
    destruct IH as (IH1 & IH2 & IH3).
    set (acc := foldl cfg_step (∅, ∅) rows) in *.
    unfold cfg_step. cbv zeta.
    destruct (Num.Qltb 0 (default 0%Q (cycle_time row))) eqn:Ect; simpl.
    2:{ split; [|split; [done|]].
        - intros p ct Hl. destruct (IH1 p ct Hl) as (? & ? & r0 & ? & ?).
          split; [done|]. split; [done|]. exists r0.
          split; [apply elem_of_app; by left|done].
        - intros r0 p ct Hin Hp Hne Hct Hpos.
          apply elem_of_app in Hin as [Hin|Hin]; [by eapply IH3|].
          apply list_elem_of_singleton in Hin as ->.
          rewrite Hct in Ect. simpl in Ect.
          apply Qltb_false in Ect. lra. }
    case_bool_decide as Epn; simpl.
    { split; [|split; [done|]].
      - intros p ct Hl. destruct (IH1 p ct Hl) as (? & ? & r0 & ? & ?).
        split; [done|]. split; [done|]. exists r0.
        split; [apply elem_of_app; by left|done].
      - intros r0 p ct Hin Hp Hne Hct Hpos.
        apply elem_of_app in Hin as [Hin|Hin]; [by eapply IH3|].
        apply list_elem_of_singleton in Hin as ->.
        rewrite Hp in Epn. simpl in Epn. done. }
    apply Qltb_true in Ect.
    assert (Hrow : exists pn ct, part_number row = Some pn /\
                                 cycle_time row = Some ct).
    { destruct (part_number row) as [pn|]; [|done].
      destruct (cycle_time row) as [ct|]; [|simpl in Ect; lra].
      by exists pn, ct. }
    destruct Hrow as (pn & ct0 & Hpn & Hct0).
    rewrite Hpn, Hct0 in *. simpl in *.
    split; [|split].
    + intros p ct Hl. destruct (decide (p = pn)) as [->|Hne].
      * rewrite lookup_insert_eq in Hl. injection Hl as <-.
        split; [done|]. split; [done|]. exists row.
        split; [apply elem_of_app; right; by left|done].
      * rewrite lookup_insert_ne in Hl by done.
        destruct (IH1 p ct Hl) as (? & ? & r0 & ? & ?).
        split; [done|]. split; [done|]. exists r0.
        split; [apply elem_of_app; by left|done].
    + intros p m Hl.
      assert (Hcase : (p = pn /\ (0 < m)%Q) \/ acc.2 !! p = Some m).
      { destruct (overcycle_multiplier row) as [m0|]; [|by right].
        destruct (Num.Qltb 0 m0) eqn:Em; [|by right].
        destruct (decide (p = pn)) as [->|Hne].
        - rewrite lookup_insert_eq in Hl. injection Hl as <-.
          left. split; [done|]. by apply Qltb_true.
        - rewrite lookup_insert_ne in Hl by done. by right. }
      destruct Hcase as [[-> Hm]|Hold].
      * split; [done|]. rewrite lookup_insert_eq. by eexists.
      * destruct (IH2 p m Hold) as [Hm Hs]. split; [done|].
        destruct (decide (p = pn)) as [->|Hne];
          [rewrite lookup_insert_eq; by eexists|by rewrite lookup_insert_ne].
    + intros r0 p ct Hin Hp Hne Hct Hpos.
      destruct (decide (p = pn)) as [->|Hpne];
        [rewrite lookup_insert_eq; by eexists|].
      rewrite lookup_insert_ne by done.
      apply elem_of_app in Hin as [Hin|Hin]; [by eapply IH3|].
      apply list_elem_of_singleton in Hin as ->. congruence.
Qed.

(** X28: after a configuration refresh every stored cycle time is
    positive and belongs to a non-empty part number of some row, every
    stored multiplier is positive and belongs to a part that has a cycle
    time, and a part is stored exactly when some row gives it a positive
    cycle time; so a live part counts as missing exactly when it is not
    stored. *)
Theorem refresh_config_maps (ds2 : option (list part_ct_row)) :
  let r := _refresh_station_ct_config ds2 in
  (forall p ct, r.1 !! p = Some ct -> (0 < ct)%Q /\ p <> EmptyString) /\
  (forall p m, r.2 !! p = Some m -> (0 < m)%Q /\ is_Some (r.1 !! p)) /\
  (forall p, is_Some (r.1 !! p) <->
     p <> EmptyString /\
     exists row ct, row ∈ default [] ds2 /\ part_number row = Some p /\
                    cycle_time row = Some ct /\ (0 < ct)%Q) /\
  (forall p, is_missing_part r.1 p = true <-> r.1 !! p = None) /\
  (forall live fps p, p ∈ missing_parts r.1 live fps <->
     p ∈ take fps live /\ r.1 !! p = None).
Proof.
  cbv zeta. unfold _refresh_station_ct_config.
  destruct (cfg_fold_spec (default [] ds2)) as (H1 & H2 & H3).
  set (r := foldl cfg_step (∅, ∅) (default [] ds2)) in *.
  assert (Hmiss : forall p, is_missing_part r.1 p = true <-> r.1 !! p = None).
  { intros p. unfold is_missing_part.
    destruct (r.1 !! p) as [ct|] eqn:E; [|done].
    destruct (H1 p ct E) as [Hpos _]. split; [|done].
    intros Hle. apply Qleb_true in Hle. lra. }
  split; [|split; [done|split; [|split; [done|]]]].
  - intros p ct Hl. destruct (H1 p ct Hl) as (? & ? & _). done.
  - intros p. split.
    + intros [ct Hl]. destruct (H1 p ct Hl) as (Hpos & Hne & row & Hin & Hp & Hc).
      split; [done|]. by exists row, ct.
    + intros (Hne & row & ct & Hin & Hp & Hc & Hpos). by eapply H3.
  - intros live fps p. unfold missing_parts.
    rewrite list_elem_of_filter, Hmiss. tauto.
Qed.
End TargetsBounds.


(** ** Event-path index and the code-name cache *)

Section TagRoutingFacts.
Import TagRouting.

Lemma endswith_app (s suf : path) : endswith (s ++ suf) suf = true.
Proof. unfold endswith. apply bool_decide_eq_true_2. by apply suffix_app_r. Qed.

Lemma strip_suffix_app (s suf : path) : strip_suffix (s ++ suf) suf = s.
Proof.
  unfold strip_suffix. rewrite length_app.
  replace (length s + length suf - length suf)%nat with (length s) by lia.
  by rewrite take_app_length.
Qed.

Lemma register_lookup idx p topic q :
  (q ∈ _index_variants p ->
   register idx p topic !! q = Some (default ∅ (idx !! q) ∪ {[ topic ]})) /\
  (q ∉ _index_variants p -> register idx p topic !! q = idx !! q).
Proof.
  unfold register.
  apply (set_fold_ind_L
           (fun m X =>
              (q ∈ X -> m !! q = Some (default ∅ (idx !! q) ∪ {[ topic ]})) /\
              (q ∉ X -> m !! q = idx !! q))).
  - split; [set_solver|done].
  - intros pv X m Hpv [IH1 IH2]. unfold add_topic.
    destruct (decide (q = pv)) as [->|Hne].
    + rewrite lookup_insert_eq. split; [|set_solver].
      intros _. by rewrite IH2.
    + rewrite lookup_insert_ne by done. split.
      * intros Hq. apply IH1. set_solver.
      * intros Hq. apply IH2. set_solver.
Qed.

Lemma topic_keys_direct idx p topic :
  topic ∈ default ∅ (idx !! p) -> topic ∈ topic_keys idx p.
Proof.
  intros Hin. unfold topic_keys. cbv zeta.
  rewrite bool_decide_eq_false_2 by set_solver. done.
Qed.

(** X29: after a path is registered for a topic, an event on any of the
    path's variants finds the topic; the variants always include the path
    itself, and for a path that does not end in "/Value" both the path
    and the path followed by "/Value" find the topic whichever of the two
    was registered. *)
Theorem registered_variants_are_found
        (idx : gmap path (gset string)) (p : path) (topic : string) :
  (forall q, q ∈ _index_variants p ->
             topic ∈ topic_keys (register idx p topic) q) /\
  p ∈ _index_variants p /\
  (endswith p VALUE = false ->
   forall a b, a ∈ [p; p ++ VALUE] -> b ∈ [p; p ++ VALUE] ->
               topic ∈ topic_keys (register idx a topic) b).
Proof.
  assert (Hfound : forall p0 q, q ∈ _index_variants p0 ->
                                topic ∈ topic_keys (register idx p0 topic) q).
  { intros p0 q Hq. apply topic_keys_direct.
    rewrite (proj1 (register_lookup idx p0 topic q) Hq). simpl. set_solver. }
  split; [apply Hfound|]. split; [unfold _index_variants; set_solver|].
  intros Hend a b Ha Hb. apply Hfound.
  assert (Hp : forall x, x ∈ [p; p ++ VALUE] -> x = p \/ x = p ++ VALUE).
  { intros x Hx. apply elem_of_cons in Hx as [->|Hx]; [by left|].
    apply list_elem_of_singleton in Hx. by right. }
  unfold _index_variants.
  destruct (Hp a Ha) as [->| ->]; destruct (Hp b Hb) as [->| ->].
  - set_solver.
  - rewrite Hend. set_solver.
  - rewrite endswith_app, strip_suffix_app. set_solver.
  - set_solver.
Qed.
End TagRoutingFacts.

Section NameCacheFacts.
Import NameCache.
Context {K : Type} `{Countable K}.

(** X30: a name found by the query is served from the cache, without a
    new query, for as long as the entry is at most the cache lifetime
    old, and is queried again once it is older; a lookup that found no
    name is stored but never served, so the next call queries again; and
    a call never changes the entry of another key. *)
Theorem get_name_cache_behaviour
        (lookup_name : K -> option string) (t1 t1' t2 t2' : Q)
        (c : gmap K (option string * Q)) (key : K) :
  let r1 := _get_name lookup_name t1 t1' c key in
  let r2 := _get_name lookup_name t2 t2' r1.1.2 key in
  (r1.2 = true -> r1.1.1 = lookup_name key) /\
  (forall name, r1.2 = true -> r1.1.1 = Some name ->
     (t2 - t1' <= _LOOKUP_TTL_SEC)%Q -> r2 = (Some name, r1.1.2, false)) /\
  (r1.2 = true -> (_LOOKUP_TTL_SEC < t2 - t1')%Q ->
     r2.2 = true /\ r2.1.1 = lookup_name key) /\
  (r1.1.1 = None -> r2.2 = true /\ r2.1.1 = lookup_name key) /\
  (forall k, k <> key -> r1.1.2 !! k = c !! k).
Proof.
  cbv zeta.
  assert (Hq : forall t t' (c0 : gmap K (option string * Q)),
             (_get_name lookup_name t t' c0 key).2 = true ->
             (_get_name lookup_name t t' c0 key).1.1 = lookup_name key /\
             (_get_name lookup_name t t' c0 key).1.2 !! key
             = Some (lookup_name key, t')).
  { intros t t' c0. unfold _get_name, _cache_get, _cache_put.
    destruct (c0 !! key) as [[[n|] ts]|]; [destruct (Num.Qleb _ _)|destruct (Num.Qleb _ _)|];
      simpl; try done;
      destruct (lookup_name key); simpl; intros _;
      (split; [done|apply lookup_insert_eq]). }
  assert (Hmiss : forall t t' (c0 : gmap K (option string * Q)) n ts,
             c0 !! key = Some (n, ts) ->
             n = None \/ (_LOOKUP_TTL_SEC < t - ts)%Q ->
             (_get_name lookup_name t t' c0 key).2 = true).
  { intros t t' c0 n ts Hl Hcase. unfold _get_name, _cache_get. rewrite Hl.
    destruct (Num.Qleb (t - ts) _LOOKUP_TTL_SEC) eqn:E.
    - destruct Hcase as [->|Hlt]; [by destruct (lookup_name key)|].
      apply Qleb_true in E. lra.
    - by destruct (lookup_name key). }
  split; [intros Hr; by apply Hq|]. split; [|split; [|split]].
  - intros name Hr Hn Hfresh.
    destruct (Hq t1 t1' c Hr) as [Hres Hl]. rewrite Hn in Hres.
    rewrite <- Hres in Hl.
    unfold _get_name at 1, _cache_get. rewrite Hl.
    by rewrite (proj2 (Qleb_true _ _) Hfresh).
  - intros Hr Hold.
    destruct (Hq t1 t1' c Hr) as [_ Hl].
    assert (Hr2 : (_get_name lookup_name t2 t2'
                     (_get_name lookup_name t1 t1' c key).1.2 key).2 = true)
      by (eapply Hmiss; [exact Hl|by right]).
    split; [done|]. by apply Hq.
  - intros Hnone.
    assert (Hr : (_get_name lookup_name t1 t1' c key).2 = true).
    { revert Hnone. unfold _get_name, _cache_get.
      destruct (c !! key) as [[[n|] ts]|]; [destruct (Num.Qleb _ _)|destruct (Num.Qleb _ _)|];
        simpl; try done; by destruct (lookup_name key). }
    destruct (Hq t1 t1' c Hr) as [Hres Hl]. rewrite Hnone in Hres.
    rewrite <- Hres in Hl.
    assert (Hr2 : (_get_name lookup_name t2 t2'
                     (_get_name lookup_name t1 t1' c key).1.2 key).2 = true)
      by (eapply Hmiss; [exact Hl|by left]).
    split; [done|]. by apply Hq.
  - intros k Hk. unfold _get_name, _cache_get, _cache_put.
    destruct (c !! key) as [[[n|] ts]|]; [destruct (Num.Qleb _ _)|destruct (Num.Qleb _ _)|];
      simpl; try done;
      destruct (lookup_name key); simpl;
      (etrans; [by apply lookup_insert_ne|]); try done;
      by apply lookup_delete_ne.
Qed.
End NameCacheFacts.
